(** * Outline extraction pipeline: a shallow embedding of [outline_extractor.py]

    The development follows the Python module function by function:
    [find_and_parse_toc], [engineer_features_layout],
    [stitch_multiline_headings], [nlp_sanity_check],
    [assign_levels_by_font_size] and [process_document_definitive].

    Modelling conventions.
    - A Python [str] is a [string]; every character stands for the code point
      of the same number (0..255).  Inside that range the classes used by the
      source are exact: [\s], [str.strip] and [str.split] use the interpreter's
      whitespace table, [\d] is the decimal digits ['0'..'9'].
    - Coordinates of a bounding box are Python floats.  Every finite float is
      a rational, so they are kept as [Q]; comparisons are exact.  The one
      computation on them, the quotient of line 83, is carried out as the
      interpreter does it, in binary64: the result of every operation is
      rounded to the nearest double, a tie going to the even significand, and
      a result beyond the largest double is an infinity (module [Float64]).
    - [pages_content] is the dictionary built by [parse_pdf_enhanced], whose
      keys are [0 .. len(doc)-1] inserted in that order: it is kept as the
      list of its values, the key being the position.
    - A dictionary key that is added later ([level], [is_heading_prediction],
      the four features) is an [option] field: [None] is an absent key.
    - The classifier is a parameter: a function from the feature table to one
      probability per row. *)

From Stdlib Require Import List String Ascii Bool Arith ZArith QArith Lia.
From Stdlib Require Import Sorting.Sorted Sorting.Permutation.
From Stdlib Require Import Numbers.DecimalString QArith.Qround Lqa.
From Stdlib Require Import QArith.Qabs QArith.Qpower.
From Stdlib Require PrimFloat FloatOps SpecFloat.
Import ListNotations.

Local Open Scope nat_scope.

(* ================================================================== *)
(** * Characters and the string methods used by the source *)
(* ================================================================== *)

Module Text.

Definition code (c : ascii) : nat := nat_of_ascii c.

Definition between (lo hi n : nat) : bool := (lo <=? n) && (n <=? hi).

(** Whitespace as [str.isspace] sees it below code point 256:
    TAB..CR, FS..US, SPACE, NEL and NBSP. *)
Definition is_space (c : ascii) : bool :=
  let n := code c in
  between 9 13 n || between 28 32 n || (n =? 133) || (n =? 160).

Definition is_digit (c : ascii) : bool := between 48 57 (code c).

(** The class [[a-zA-Z]]. *)
Definition is_alpha (c : ascii) : bool :=
  between 65 90 (code c) || between 97 122 (code c).

Definition is_dot (c : ascii) : bool := code c =? 46.

(** The class [.] without DOTALL: anything but a line feed. *)
Definition not_newline (c : ascii) : bool := negb (code c =? 10).

(** The class [[\.\s]]. *)
Definition is_dot_or_space (c : ascii) : bool := is_dot c || is_space c.

(** [str.lower] on one character: ASCII capitals and the Latin-1 capitals
    (U+00C0..U+00DE without the multiplication sign) move up by 32. *)
Definition lower_char (c : ascii) : ascii :=
  let n := code c in
  if between 65 90 n || (between 192 222 n && negb (n =? 215))
  then ascii_of_nat (n + 32) else c.

Definition chars (s : string) : list ascii := list_ascii_of_string s.
Definition str (l : list ascii) : string := string_of_list_ascii l.

Definition lower (s : string) : string := str (map lower_char (chars s)).

Fixpoint lstrip_chars (l : list ascii) : list ascii :=
  match l with
  | c :: t => if is_space c then lstrip_chars t else l
  | [] => []
  end.

Definition rstrip_chars (l : list ascii) : list ascii :=
  rev (lstrip_chars (rev l)).

(** [str.strip()] *)
Definition strip (s : string) : string :=
  str (rstrip_chars (lstrip_chars (chars s))).

(** [str.split()] with no separator: the maximal runs of characters that
    are not whitespace, in order.  [cur] is the word being read, reversed. *)
Fixpoint split_loop (l : list ascii) (cur : list ascii) : list string :=
  match l with
  | [] => match cur with [] => [] | _ => [str (rev cur)] end
  | c :: t =>
      if is_space c
      then match cur with
           | [] => split_loop t []
           | _ => str (rev cur) :: split_loop t []
           end
      else split_loop t (c :: cur)
  end.

Definition split (s : string) : list string := split_loop (chars s) [].

Fixpoint starts_with (p l : list ascii) : bool :=
  match p, l with
  | [], _ => true
  | a :: p', b :: l' => Ascii.eqb a b && starts_with p' l'
  | _ :: _, [] => false
  end.

Fixpoint contains_chars (needle hay : list ascii) : bool :=
  starts_with needle hay ||
  match hay with
  | [] => false
  | _ :: t => contains_chars needle t
  end.

(** [needle in hay] *)
Definition contains (needle hay : string) : bool :=
  contains_chars (chars needle) (chars hay).

(** [sep.join(parts)] *)
Fixpoint join (sep : string) (parts : list string) : string :=
  match parts with
  | [] => EmptyString
  | [p] => p
  | p :: rest => (p ++ sep ++ join sep rest)%string
  end.

(** [int(s)] on a string of decimal digits (the interpreter's cap on the
    number of digits it converts is left out). *)
Definition int_of_digits (s : string) : Z :=
  fold_left (fun acc c => (10 * acc + (Z.of_nat (code c) - 48))%Z) (chars s) 0%Z.

(** [f"H{n}"] *)
Definition level_tag (n : nat) : string :=
  ("H" ++ NilEmpty.string_of_uint (Nat.to_uint n))%string.

End Text.

(* ================================================================== *)
(** * A backtracking matcher for the [re] patterns of the source *)
(* ================================================================== *)

Module Re.

Import Text.

(** The constructs the four patterns of the module are built from.
    [Rep greedy lo hi r] is [r{lo,hi}] (greedy) or [r{lo,hi}?] (lazy),
    [hi = None] standing for no upper bound. *)
Inductive regex : Type :=
| Bol                                  (* ^ *)
| Eol                                  (* $ *)
| Chr (p : ascii -> bool)              (* a character class *)
| Cat (r1 r2 : regex)
| Alt (r1 r2 : regex)
| Rep (greedy : bool) (lo : nat) (hi : option nat) (r : regex)
| Grp (n : nat) (r : regex).           (* capturing group number n *)

(** A position in the subject: the number of characters already consumed,
    what is left of it, and the spans of the groups closed so far. *)
Record mstate : Type := mkState {
  pos : nat;
  rest : list ascii;
  caps : list (nat * (nat * nat))
}.

Definition orelse {A} (a b : option A) : option A :=
  match a with Some _ => a | None => b end.

Definition below (cnt : nat) (hi : option nat) : bool :=
  match hi with None => true | Some h => cnt <? h end.

(** The matcher tries the alternatives in the engine's order and hands every
    candidate position to the continuation [k]; the first one that [k]
    accepts wins.  An iteration of a repeat has to consume a character (every
    repeated body of the source does), so a repeat at a position with [n]
    characters left runs at most [n] times. *)
Fixpoint run (r : regex) (st : mstate) (k : mstate -> option mstate)
  {struct r} : option mstate :=
  match r with
  | Bol => if pos st =? 0 then k st else None
  | Eol =>
      match rest st with
      | [] => k st
      | [c] => if code c =? 10 then k st else None
      | _ => None
      end
  | Chr p =>
      match rest st with
      | c :: t => if p c then k (mkState (S (pos st)) t (caps st)) else None
      | [] => None
      end
  | Cat r1 r2 => run r1 st (fun st1 => run r2 st1 k)
  | Alt r1 r2 => orelse (run r1 st k) (run r2 st k)
  | Grp n r1 =>
      run r1 st
        (fun st1 => k (mkState (pos st1) (rest st1)
                         ((n, (pos st, pos st1)) :: caps st1)))
  | Rep greedy lo hi r1 =>
      (fix loop (fuel cnt : nat) (cur : mstate) {struct fuel}
         : option mstate :=
         let stop := if lo <=? cnt then k cur else None in
         match fuel with
         | 0 => stop
         | S fuel' =>
             let more :=
               if below cnt hi
               then run r1 cur
                      (fun nxt => if pos nxt =? pos cur then None
                                  else loop fuel' (S cnt) nxt)
               else None in
             if greedy then orelse more stop else orelse stop more
         end) (List.length (rest st)) 0 st
  end.

(** [re.match(r, s)] *)
Definition re_match (r : regex) (s : string) : option mstate :=
  run r (mkState 0 (chars s) []) Some.

(** [m.group(n)] *)
Definition group (s : string) (m : mstate) (n : nat) : string :=
  match find (fun c => fst c =? n) (caps m) with
  | Some (_, (b, e)) => str (firstn (e - b) (skipn b (chars s)))
  | None => EmptyString
  end.

(** [re.search(r, s)]: the first position from which [r] matches. *)
Fixpoint search_from (r : regex) (p : nat) (l : list ascii) : option mstate :=
  match run r (mkState p l []) Some with
  | Some m => Some m
  | None =>
      match l with
      | [] => None
      | _ :: t => search_from r (S p) t
      end
  end.

Definition re_search (r : regex) (s : string) : option mstate :=
  search_from r 0 (chars s).

(** [re.sub(r, '', s)]: every non-overlapping match, leftmost first, is
    deleted.  A match that consumed nothing deletes nothing, and the scan
    then moves one character on.  [fuel] bounds the number of positions
    visited, which is at most the length of the subject plus one. *)
Fixpoint sub_loop (fuel : nat) (r : regex) (p : nat) (l : list ascii)
  : list ascii :=
  match fuel with
  | 0 => l
  | S fuel' =>
      match run r (mkState p l []) Some with
      | Some m =>
          if pos m =? p
          then match l with
               | [] => []
               | c :: t => c :: sub_loop fuel' r (S p) t
               end
          else sub_loop fuel' r (pos m) (rest m)
      | None =>
          match l with
          | [] => []
          | c :: t => c :: sub_loop fuel' r (S p) t
          end
      end
  end.

Definition re_sub_empty (r : regex) (s : string) : string :=
  str (sub_loop (S (String.length s)) r 0 (chars s)).

Definition star (r : regex) : regex := Rep true 0 None r.
Definition plus (r : regex) : regex := Rep true 1 None r.

(** [^(.*?)(?:\s*\.|\s){2,}(\d+)$] *)
Definition TOC_LINE : regex :=
  Cat Bol
   (Cat (Grp 1 (Rep false 0 None (Chr not_newline)))
    (Cat (Rep true 2 None
            (Alt (Cat (star (Chr is_space)) (Chr is_dot)) (Chr is_space)))
     (Cat (Grp 2 (plus (Chr is_digit))) Eol))).

(** [^\d+[\.\s]*] *)
Definition NUM_PREFIX : regex :=
  Cat Bol (Cat (plus (Chr is_digit)) (star (Chr is_dot_or_space))).

(** [^(?:(\d{1,2}(?:\.\d{1,2})* ))], written here with a blank before
    the two closing parentheses. *)
Definition SECTION_MARK : regex :=
  Cat Bol
   (Grp 1 (Cat (Rep true 1 (Some 2) (Chr is_digit))
              (star (Cat (Chr is_dot) (Rep true 1 (Some 2) (Chr is_digit)))))).

(** [[a-zA-Z]] *)
Definition LETTER : regex := Chr is_alpha.

End Re.

Import Text Re.
Local Open Scope string_scope.
Local Open Scope list_scope.
Local Open Scope nat_scope.

(* ================================================================== *)
(** * Python builtins on lists *)
(* ================================================================== *)

Section Builtins.

Context {A : Type}.

(** [sorted] is a stable sort: elements that compare equal keep their
    order.  [leb x y] says that [x] may stand before [y]. *)
Fixpoint insert_sorted (leb : A -> A -> bool) (x : A) (l : list A) : list A :=
  match l with
  | [] => [x]
  | y :: t => if leb x y then x :: l else y :: insert_sorted leb x t
  end.

Fixpoint sorted (leb : A -> A -> bool) (l : list A) : list A :=
  match l with
  | [] => []
  | x :: t => insert_sorted leb x (sorted leb t)
  end.

(** [list(set(l))] up to the order, which the callers fix by sorting:
    one representative of every class of [eqb]. *)
Fixpoint distinct (eqb : A -> A -> bool) (l : list A) : list A :=
  match l with
  | [] => []
  | x :: t => if existsb (eqb x) t then distinct eqb t else x :: distinct eqb t
  end.

(** [enumerate] *)
Fixpoint enumerate_from (i : nat) (l : list A) : list (nat * A) :=
  match l with
  | [] => []
  | x :: t => (i, x) :: enumerate_from (S i) t
  end.

Definition enumerate (l : list A) : list (nat * A) := enumerate_from 0 l.

(** [next(i for i, x in enumerate(l) if p x)], [None] for StopIteration. *)
Fixpoint index_where (p : A -> bool) (l : list A) : option nat :=
  match l with
  | [] => None
  | x :: t => if p x then Some 0 else option_map S (index_where p t)
  end.

End Builtins.

(** [d.get(k, default)] on a dictionary kept as an association list. *)
Fixpoint dict_get {K V : Type} (eqb : K -> K -> bool) (d : list (K * V))
  (k : K) (default : V) : V :=
  match d with
  | [] => default
  | (k', v) :: t => if eqb k k' then v else dict_get eqb t k default
  end.

(** [d[k] = v]: an existing key keeps its place, a new one goes last. *)
Fixpoint dict_set {K V : Type} (eqb : K -> K -> bool) (d : list (K * V))
  (k : K) (v : V) : list (K * V) :=
  match d with
  | [] => [(k, v)]
  | (k', v') :: t =>
      if eqb k k' then (k', v) :: t else (k', v') :: dict_set eqb t k v
  end.

Definition Qlt_bool (a b : Q) : bool := negb (Qle_bool b a).

(** [max(l)] on a non-empty list of integers. *)
Definition max_of (x : Z) (l : list Z) : Z := fold_left Z.max l x.

(** [round(x)] with one argument: the nearest integer, a tie going to the
    even one. *)
Definition round_half_even (x : Q) : Z :=
  let f := Qfloor x in
  let r := (x - inject_Z f)%Q in
  if Qlt_bool r (1 # 2) then f
  else if Qlt_bool (1 # 2) r then (f + 1)%Z
  else if Z.even f then f else (f + 1)%Z.

(** Binary64 arithmetic on the rationals that finite doubles stand for.
    An operation gives the exact result rounded to the nearest double, a tie
    going to the even significand; [None] stands for an infinity, the result
    of an overflow.  Doubles have a significand of 53 bits and are multiples
    of 2^-1074; the first power of two beyond them is 2^1024. *)
Module Float64.

(** The exponent of [q]: 2^e <= |q| < 2^(e+1), for [q] other than 0. *)
Definition ilog2 (q : Q) : Z :=
  let e := (Z.log2 (Z.abs (Qnum q)) - Z.log2 (Zpos (Qden q)))%Z in
  if Qle_bool (2 ^ e) (Qabs q) then e else (e - 1)%Z.

(** The exponent of the spacing of the doubles around [q]. *)
Definition quantum (q : Q) : Z := Z.max (ilog2 q - 52) (-1074).

(** The double nearest to [q]. *)
Definition round (q : Q) : option Q :=
  let u := quantum q in
  let r := (inject_Z (round_half_even (q / 2 ^ u)) * 2 ^ u)%Q in
  if Qle_bool (2 ^ 1024) (Qabs r) then None else Some r.

(** [a + b] and [a / b] on floats, [b] not zero.  An infinity divided by a
    finite number is an infinity. *)
Definition add (a b : Q) : option Q := round (a + b).
Definition div (a : option Q) (b : Q) : option Q :=
  match a with
  | Some x => round (x / b)
  | None => None
  end.

(** The doubles that the literals [0.4] and [0.6] denote. *)
Definition literal_0_4 : Q := 7205759403792794 # 18014398509481984.
Definition literal_0_6 : Q := 5404319552844595 # 9007199254740992.

(** The quotients that round to a double strictly between the two
    literals: those above the point half way from the double 0.4 to the next
    double, up to the point half way from the double before 0.6 to it. *)
Definition window_lo : Q := 14411518807585589 # 36028797018963968.
Definition window_hi : Q := 10808639105689189 # 18014398509481984.

End Float64.

(* ================================================================== *)
(** * Exceptions *)
(* ================================================================== *)

Inductive exn : Type :=
| ZeroDivisionError
| KeyError
| ValueError.

Inductive result (A : Type) : Type :=
| Ok (a : A)
| Raise (e : exn).

Arguments Ok {A} a.
Arguments Raise {A} e.

Definition bind {A B} (m : result A) (f : A -> result B) : result B :=
  match m with
  | Ok a => f a
  | Raise e => Raise e
  end.

Notation "x <- m ;; k" := (bind m (fun x => k))
  (at level 61, m at next level, right associativity).

Fixpoint mapM {A B} (f : A -> result B) (l : list A) : result (list B) :=
  match l with
  | [] => Ok []
  | x :: t => y <- f x ;; ys <- mapM f t ;; Ok (y :: ys)
  end.

(* ================================================================== *)
(** * Data model *)
(* ================================================================== *)

(** [line['bbox']]: the tuple (x0, y0, x1, y1), read by index. *)
Record BBox : Type := mkBBox { b0 : Q; b1 : Q; b2 : Q; b3 : Q }.

(** Equality of two bbox tuples: component by component. *)
Definition bbox_eqb (a b : BBox) : bool :=
  Qeq_bool (b0 a) (b0 b) && Qeq_bool (b1 a) (b1 b) &&
  Qeq_bool (b2 a) (b2 b) && Qeq_bool (b3 a) (b3 b).

(** The four keys written by [engineer_features_layout]. *)
Record Features : Type := mkFeatures {
  pattern_match : Z;
  is_centered : Z;
  indentation : Q;
  font_family_encoded : Z
}.

(** The dictionary of one text line.  The first six keys come from
    [parse_pdf_enhanced]; the others are added on the classifier path. *)
Record Line : Type := mkLine {
  text : string;
  size : Z;
  font_family : string;
  bold : bool;
  page_num : nat;
  bbox : BBox;
  features : option Features;
  is_heading_prediction : option Z;
  level : option string
}.

Definition raw_line (t : string) (sz : Z) (fam : string) (b : bool)
  (pg : nat) (bb : BBox) : Line :=
  mkLine t sz fam b pg bb None None None.

Definition set_text (t : string) (l : Line) : Line :=
  mkLine t (size l) (font_family l) (bold l) (page_num l) (bbox l)
         (features l) (is_heading_prediction l) (level l).

Definition set_features (f : Features) (l : Line) : Line :=
  mkLine (text l) (size l) (font_family l) (bold l) (page_num l) (bbox l)
         (Some f) (is_heading_prediction l) (level l).

Definition set_prediction (p : Z) (l : Line) : Line :=
  mkLine (text l) (size l) (font_family l) (bold l) (page_num l) (bbox l)
         (features l) (Some p) (level l).

Definition set_level (lv : string) (l : Line) : Line :=
  mkLine (text l) (size l) (font_family l) (bold l) (page_num l) (bbox l)
         (features l) (is_heading_prediction l) (Some lv).

(** [pages_content]: the lines of page 0, of page 1, ... *)
Definition Pages : Type := list (list Line).

(** [pages_content.get(p, [])] *)
Definition page_lines (pages : Pages) (p : nat) : list Line := nth p pages [].

(** A table-of-contents entry as the scan appends it (line 60), and as the
    function returns it, with the [level] key written (line 66). *)
Module TocRaw.
Record entry : Type := mk {
  text : string;
  page : Z;
  indent : Q
}.
End TocRaw.

Module Toc.
Record entry : Type := mk {
  text : string;
  page : Z;
  indent : Q;
  level : string
}.
End Toc.

(** An entry of the final outline and the payload given to [json.dumps]. *)
Module Out.
Record entry : Type := mk {
  level : string;
  text : string;
  page : Z
}.
Record payload : Type := mkPayload {
  title : string;
  outline : list entry
}.
End Out.

(* ================================================================== *)
(** * [find_and_parse_toc] *)
(* ================================================================== *)

Definition TOC_SYNONYMS : list string :=
  ["table of contents"; "contents"; "toc"; "outline"; "index"; "summary";
   "document map"].

Definition in_strings (s : string) (l : list string) : bool :=
  existsb (String.eqb s) l.

(** The body of the innermost loop: one line against the entry pattern. *)
Definition parse_toc_line (toc_line : Line) : option TocRaw.entry :=
  match re_match TOC_LINE (text toc_line) with
  | Some m =>
      let text1 := strip (group (text toc_line) m 1) in
      let text2 := re_sub_empty NUM_PREFIX text1 in
      let page := (int_of_digits (group (text toc_line) m 2) - 1)%Z in
      let indent := b0 (bbox toc_line) in
      Some (TocRaw.mk text2 page indent)
  | None => None
  end.

Fixpoint parse_toc_lines (lines : list Line) : list TocRaw.entry :=
  match lines with
  | [] => []
  | l :: t =>
      match parse_toc_line l with
      | Some e => e :: parse_toc_lines t
      | None => parse_toc_lines t
      end
  end.

(** [range(a, b)] *)
Definition range (a b : nat) : list nat := seq a (b - a).

(** The entries of the pages [page_num .. min(page_num + 5, len) - 1]. *)
Definition toc_window (pages : Pages) (page_num : nat) : list TocRaw.entry :=
  flat_map (fun p_num => parse_toc_lines (page_lines pages p_num))
           (range page_num (Nat.min (page_num + 5) (List.length pages))).

(** Lines 63-66: [indents], [indent_map] and the loop that writes [level]. *)
Definition toc_indents (toc_entries : list TocRaw.entry) : list Q :=
  sorted Qle_bool (distinct Qeq_bool (map TocRaw.indent toc_entries)).

Definition toc_indent_map (toc_entries : list TocRaw.entry)
  : list (Q * string) :=
  map (fun p => (snd p, level_tag (fst p + 1)))
      (enumerate (toc_indents toc_entries)).

Definition toc_assign_levels (toc_entries : list TocRaw.entry)
  : list Toc.entry :=
  let indent_map := toc_indent_map toc_entries in
  map (fun e => Toc.mk (TocRaw.text e) (TocRaw.page e) (TocRaw.indent e)
                  (dict_get Qeq_bool indent_map (TocRaw.indent e) "H1"))
      toc_entries.

Definition is_toc_header (lines : list Line) : bool :=
  existsb (fun line => in_strings (strip (lower (text line))) TOC_SYNONYMS)
          (firstn 3 lines).

(** The outer loop over the candidate pages; [toc_entries] is the list the
    source keeps across them. *)
Fixpoint toc_scan (pages : Pages) (candidates : list nat)
  (toc_entries : list TocRaw.entry) : option (list Toc.entry) :=
  match candidates with
  | [] => None
  | page_num :: more =>
      match page_lines pages page_num with
      | [] => toc_scan pages more toc_entries
      | lines =>
          if is_toc_header lines
          then
            match toc_entries ++ toc_window pages page_num with
            | [] => toc_scan pages more []
            | found => Some (toc_assign_levels found)
            end
          else toc_scan pages more toc_entries
      end
  end.

(** [int(len(pages_content) * 0.2) + 3]: for a page count the product is
    within a rounding error above a fifth of it, so truncation gives the
    integer quotient by 5. *)
Definition max_page_to_scan (pages : Pages) : nat :=
  List.length pages / 5 + 3.

Definition find_and_parse_toc (pages : Pages) : option (list Toc.entry) :=
  toc_scan pages
    (range 0 (Nat.min (max_page_to_scan pages) (List.length pages))) [].

(* ================================================================== *)
(** * [engineer_features_layout] *)
(* ================================================================== *)

(** [font_map]: every family to its rank among the sorted distinct ones. *)
Definition font_map_of (all_lines : list Line) : list (string * Z) :=
  map (fun p => (snd p, Z.of_nat (fst p)))
      (enumerate (sorted String.leb
                    (distinct String.eqb (map font_family all_lines)))).

(** The conditional expression of line 80.  The subscript raises on a page
    number that is not a key. *)
Definition page_width_of (pages : Pages) (line : Line) : result Q :=
  match nth_error pages (page_num line) with
  | None => Raise KeyError
  | Some [] => Ok 1%Q
  | Some (first :: _) => Ok (b2 (bbox first))
  end.

(** [(bbox[0] + bbox[2]) / 2] as the interpreter computes it: the sum is
    rounded, then the half. *)
Definition midpoint64 (bx : BBox) : option Q :=
  Float64.div (Float64.add (b0 bx) (b2 bx)) 2.

(** The chained comparison of line 83 on the rounded quotient.  The last
    division raises on a zero divisor; an infinite quotient fails the
    comparison. *)
Definition centered_flag (bx : BBox) (page_width : Q) : result Z :=
  if Qeq_bool page_width 0 then Raise ZeroDivisionError
  else
    Ok (match Float64.div (midpoint64 bx) page_width with
        | Some ratio =>
            if Qlt_bool Float64.literal_0_4 ratio
               && Qlt_bool ratio Float64.literal_0_6
            then 1%Z else 0%Z
        | None => 0%Z
        end).

(** The body of the loop of lines 78-85 on one line. *)
Definition annotate (pages : Pages) (font_map : list (string * Z))
  (line : Line) : result Line :=
  page_width <- page_width_of pages line ;;
  centered <- centered_flag (bbox line) page_width ;;
  Ok (set_features
        {| pattern_match :=
             match re_match SECTION_MARK (text line) with
             | Some _ => 1%Z
             | None => 0%Z
             end;
           is_centered := centered;
           indentation := b0 (bbox line);
           font_family_encoded :=
             dict_get String.eqb font_map (font_family line) (-1)%Z |}
        line).

(** The function returns the flattened lines; the same dictionaries stay in
    [pages_content], so the pages are returned with the features written.
    The loop visits the lines page by page, in order. *)
Definition engineer_features_layout (pages : Pages)
  : result (Pages * list Line) :=
  let all_lines := List.concat pages in
  match all_lines with
  | [] => Ok (pages, [])
  | _ =>
      let font_map := font_map_of all_lines in
      pages' <- mapM (mapM (annotate pages font_map)) pages ;;
      Ok (pages', List.concat pages')
  end.

(* ================================================================== *)
(** * [stitch_multiline_headings] *)
(* ================================================================== *)

(** [all_lines_map]: for every page, the dictionary from bbox to line. *)
Definition LinesMap : Type := list (list (BBox * Line)).

Definition key_eqb (a b : nat * BBox) : bool :=
  (fst a =? fst b) && bbox_eqb (snd a) (snd b).

(** [next_line.get('is_heading_prediction', 0) == 1] *)
Definition is_potential_heading (next_line : Line) : bool :=
  match is_heading_prediction next_line with
  | Some v => (v =? 1)%Z
  | None => false
  end.

(** The condition of the [if] of lines 116-119. *)
Definition absorbable (h : Line) (next_line : Line) : bool :=
  (List.length (split (text next_line)) <? 7) &&
  negb (bold next_line) &&
  (Z.abs (size next_line - size h) <=? 1)%Z &&
  negb (is_potential_heading next_line).

(** The [while] loop of lines 113-124 on the lines from index [j] on. *)
Fixpoint absorb (h : Line) (from_j : list Line) (merged_text : string)
  (processed_bboxes : list (nat * BBox)) : string * list (nat * BBox) :=
  match from_j with
  | [] => (merged_text, processed_bboxes)
  | next_line :: more =>
      if absorbable h next_line
      then absorb h more (merged_text ++ " " ++ text next_line)%string
                  ((page_num next_line, bbox next_line) :: processed_bboxes)
      else (merged_text, processed_bboxes)
  end.

Definition by_top (a b : Line) : bool := Qle_bool (b1 (bbox a)) (b1 (bbox b)).

(** [sorted(all_lines_map.get(page, {}).values(), key=lambda x: x['bbox'][1])] *)
Definition sorted_page_lines (all_lines_map : LinesMap) (page : nat)
  : list Line :=
  sorted by_top (map snd (nth page all_lines_map [])).

(** One turn of the [for] loop of lines 96-127. *)
Definition stitch_step (all_lines_map : LinesMap)
  (acc : list Line * list (nat * BBox)) (h : Line)
  : list Line * list (nat * BBox) :=
  let '(stitched_headings, processed_bboxes) := acc in
  let current_bbox := bbox h in
  if existsb (key_eqb (page_num h, current_bbox)) processed_bboxes
  then acc
  else
    let lines := sorted_page_lines all_lines_map (page_num h) in
    match index_where (fun line => bbox_eqb (bbox line) current_bbox) lines with
    | None => ((stitched_headings ++ [h])%list, processed_bboxes)
    | Some current_line_index =>
        let '(merged_text, processed') :=
          absorb h (skipn (current_line_index + 1) lines) (text h)
                 processed_bboxes in
        ((stitched_headings ++ [set_text merged_text h])%list, processed')
    end.

Definition stitch_multiline_headings (headings : list Line)
  (all_lines_map : LinesMap) : list Line :=
  fst (fold_left (stitch_step all_lines_map) headings ([], [])).

(* ================================================================== *)
(** * [nlp_sanity_check] and [assign_levels_by_font_size] *)
(* ================================================================== *)

(** The condition of the [if] of lines 136-138. *)
Definition sane (t : string) : bool :=
  match re_search LETTER t with Some _ => true | None => false end &&
  negb (contains "```" t) &&
  (List.length (split t) <? 25).

Fixpoint sanity_loop (headings clean_headings : list Line) : list Line :=
  match headings with
  | [] => clean_headings
  | h :: more =>
      if sane (text h)
      then sanity_loop more (clean_headings ++ [h])%list
      else sanity_loop more clean_headings
  end.

Definition nlp_sanity_check (headings : list Line) : list Line :=
  sanity_loop headings [].

(** [sorted(list(set(sizes)), reverse=True)] *)
Definition heading_sizes (headings : list Line) : list Z :=
  sorted Z.geb (distinct Z.eqb (map size headings)).

Definition size_map_of (headings : list Line) : list (Z * string) :=
  map (fun p => (snd p, level_tag (fst p + 1)))
      (enumerate (firstn 3 (heading_sizes headings))).

Definition assign_levels_by_font_size (headings : list Line) : list Line :=
  match headings with
  | [] => []
  | _ =>
      let size_map := size_map_of headings in
      map (fun h => set_level (dict_get Z.eqb size_map (size h) "H3") h)
          headings
  end.

(* ================================================================== *)
(** * [process_document_definitive] *)
(* ================================================================== *)

(** The six columns handed to the classifier, in the order of
    [features_for_model]. *)
Record Row : Type := mkRow {
  r_size : Z;
  r_pattern_match : Z;
  r_bold : bool;
  r_is_centered : Z;
  r_indentation : Q;
  r_font_family_encoded : Z
}.

(** [model.predict]: one probability per row of the table. *)
Definition Classifier : Type := list Row -> list Q.

(** A column that is missing from the frame is filled with 0. *)
Definition row_of (line : Line) : Row :=
  match features line with
  | Some f => mkRow (size line) (pattern_match f) (bold line) (is_centered f)
                    (indentation f) (font_family_encoded f)
  | None => mkRow (size line) 0 (bold line) 0 0 0
  end.

(** [df['is_heading_prediction'] = (predictions > 0.5).astype(int)]: the
    column is written to the rows of the frame, which are copies of the
    line dictionaries.  A column of another length is refused. *)
Fixpoint with_predictions (rows : list Line) (predictions : list Q)
  : result (list Line) :=
  match rows, predictions with
  | [], [] => Ok []
  | r :: rows', p :: predictions' =>
      rest <- with_predictions rows' predictions' ;;
      Ok (set_prediction (if Qlt_bool (1 # 2) p then 1 else 0) r :: rest)
  | _, _ => Raise ValueError
  end.

(** The title expression of lines 159 and 181. *)
Definition title_of (pages : Pages) : string :=
  match page_lines pages 0 with
  | [] => "Untitled"
  | first :: others =>
      let page_0_lines := first :: others in
      let biggest := max_of (size first) (map size others) in
      join " " (map text (filter (fun l => (size l =? biggest)%Z) page_0_lines))
  end.

(** [{tuple(line['bbox']): line for line in lines}] for every page. *)
Definition lines_map_of (pages : Pages) : LinesMap :=
  map (fun lines =>
         fold_left (fun d line => dict_set bbox_eqb d (bbox line) line) lines [])
      pages.

Definition toc_outline_entry (e : Toc.entry) : Out.entry :=
  Out.mk (Toc.level e) (Toc.text e) (Toc.page e).

Definition final_entry (h : Line) : result Out.entry :=
  match level h with
  | Some lv => Ok (Out.mk lv (text h) (Z.of_nat (page_num h)))
  | None => Raise KeyError
  end.

Definition by_page (a b : Out.entry) : bool := (Out.page a <=? Out.page b)%Z.

Definition INFO_TOC : string :=
  "INFO: Substantial Table of Contents found. Using ToC as primary source.".
Definition INFO_ML : string :=
  "INFO: ToC not found or not substantial. Using ML inference model.".

(** Lines 185-197: the list [final_output] before it is sorted. *)
Definition final_output_of (pages' : Pages) (rows : list Line)
  : result (list Out.entry) :=
  let all_lines_map := lines_map_of pages' in
  let heading_candidates :=
    filter (fun r => match is_heading_prediction r with
                     | Some v => (v =? 1)%Z
                     | None => false
                     end) rows in
  let stitched_headings :=
    stitch_multiline_headings heading_candidates all_lines_map in
  let final_outline_with_levels :=
    assign_levels_by_font_size stitched_headings in
  let final_clean_outline := nlp_sanity_check final_outline_with_levels in
  mapM final_entry final_clean_outline.

(** Lines 164-200: what follows the second [print]. *)
Definition ml_inference (pages : Pages) (model : option Classifier)
  : result Out.payload :=
  match model with
  | None =>
      Ok (Out.mkPayload "Error: ML Model not provided for inference." [])
  | Some predict =>
      feats <- engineer_features_layout pages ;;
      let '(pages', lines_with_features) := feats in
      match lines_with_features with
      | [] => Ok (Out.mkPayload "Could not parse document" [])
      | _ =>
          rows <- with_predictions lines_with_features
                    (predict (map row_of lines_with_features)) ;;
          let title_text := title_of pages' in
          final_output <- final_output_of pages' rows ;;
          Ok (Out.mkPayload title_text (sorted by_page final_output))
      end
  end.

(** The function returns the payload it serialises with [json.dumps], or
    raises; the lines it prints come first.  The test of line 156 holds for
    a list that is neither [None] nor empty and has more than 4 entries. *)
Definition process_document_definitive (pages : Pages)
  (model : option Classifier) : list string * result Out.payload :=
  let parsed_toc := find_and_parse_toc pages in
  match parsed_toc with
  | Some (e :: es) =>
      let entries := e :: es in
      if 4 <? List.length entries
      then ([INFO_TOC],
            Ok (Out.mkPayload (title_of pages)
                              (map toc_outline_entry entries)))
      else ([INFO_ML], ml_inference pages model)
  | _ => ([INFO_ML], ml_inference pages model)
  end.

(* ================================================================== *)
(** * [parse_pdf_enhanced] *)
(* ================================================================== *)

(** What the decoder returns for a page: [get_text("dict")["blocks"]].  A
    block of type 0 is a text block and has lines, a line has spans and a
    bbox, a span has a text, a size and a font name.  A block of another
    type has no lines that are read. *)
Module Raw.
Record span : Type := mkSpan {
  text : string;
  size : Q;
  font : string
}.
Record line : Type := mkLine {
  spans : list span;
  bbox : BBox
}.
Record block : Type := mkBlock {
  type : Z;
  lines : list line
}.
End Raw.

(** [font.split('-')[0]]: the name up to its first hyphen. *)
Fixpoint before_hyphen (l : list ascii) : list ascii :=
  match l with
  | [] => []
  | c :: t => if code c =? 45 then [] else c :: before_hyphen t
  end.

Definition font_family_of (font : string) : string :=
  str (before_hyphen (chars font)).

(** The body of the loop of lines 22-37 on one line of a text block:
    [None] is the [continue] of line 24. *)
Definition normalize_line (page_num : nat) (line : Raw.line) : option Line :=
  let line_text := strip (join " " (map Raw.text (Raw.spans line))) in
  match Raw.spans line with
  | [] => None
  | first_span :: _ =>
      if String.eqb line_text "" then None
      else Some (raw_line line_text
                          (round_half_even (Raw.size first_span))
                          (font_family_of (Raw.font first_span))
                          (contains "bold" (lower (Raw.font first_span)))
                          page_num
                          (Raw.bbox line))
  end.

Fixpoint normalize_lines (page_num : nat) (lines : list Raw.line)
  : list Line :=
  match lines with
  | [] => []
  | l :: t =>
      match normalize_line page_num l with
      | Some x => x :: normalize_lines page_num t
      | None => normalize_lines page_num t
      end
  end.

(** [page_lines] before it is sorted: the lines of the text blocks, in the
    order of the blocks. *)
Definition block_lines (page_num : nat) (blocks : list Raw.block)
  : list Line :=
  flat_map (fun block =>
              if (Raw.type block =? 0)%Z
              then normalize_lines page_num (Raw.lines block)
              else [])
           blocks.

(** The dictionary the function returns, page [i] being made from the
    blocks of page [i] and sorted by the top edge of the lines. *)
Definition parse_pdf_enhanced (doc : list (list Raw.block)) : Pages :=
  map (fun p => sorted by_top (block_lines (fst p) (snd p))) (enumerate doc).

(** [process_document_definitive] begins by parsing: the whole function on
    what the decoder returns. *)
Definition process_decoded (doc : list (list Raw.block))
  (model : option Classifier) : list string * result Out.payload :=
  process_document_definitive (parse_pdf_enhanced doc) model.

(* ================================================================== *)
(** * Notions used in the statements *)
(* ================================================================== *)

(** [x] stands strictly before [y] for the order [leb], up to [eqb]. *)
Definition before {A : Type} (eqb leb : A -> A -> bool) (x y : A) : Prop :=
  leb x y = true /\ eqb x y = false.

(** The position of a value in a list of ranked values. *)
Definition rank_in {A : Type} (eqb : A -> A -> bool) (ds : list A) (x : A)
  : nat :=
  match index_where (eqb x) ds with Some i => i | None => 0 end.

(** The position of an entry's indentation among the ranked ones. *)
Definition toc_rank (indents : list Q) (e : Toc.entry) : nat :=
  rank_in Qeq_bool indents (Toc.indent e).

(** The position of a heading's size among the ranked sizes. *)
Definition size_rank (sizes : list Z) (h : Line) : nat :=
  rank_in Z.eqb sizes (size h).

(** The number of words of a text: [len(text.split())]. *)
Definition word_count (t : string) : nat := List.length (split t).

(** An alphabetic character in the sense of [str.isalpha], below code point
    256: the letters of [[a-zA-Z]], the two ordinal indicators, the micro
    sign, and the letters 192..255 without the signs at 215 and 247. *)
Definition is_alphabetic (c : ascii) : bool :=
  let n := code c in
  between 65 90 n || between 97 122 n ||
  (n =? 170) || (n =? 181) || (n =? 186) ||
  between 192 214 n || between 216 246 n || between 248 255 n.

(** Ascending page numbers. *)
Definition page_sorted (outline : list Out.entry) : Prop :=
  StronglySorted (fun a b => (Out.page a <= Out.page b)%Z) outline.

Definition on_page (p : Z) (e : Out.entry) : bool := (Out.page e =? p)%Z.

(** The line that follows heading [h] on its page, when [h] is found in the
    map and is not the last line, passes the test of lines 116-119. *)
Definition next_absorbable (all_lines_map : LinesMap) (h : Line) : bool :=
  let lines := sorted_page_lines all_lines_map (page_num h) in
  match index_where (fun line => bbox_eqb (bbox line) (bbox h)) lines with
  | None => false
  | Some i =>
      match skipn (i + 1) lines with
      | [] => false
      | next_line :: _ => absorbable h next_line
      end
  end.

(** The quotient of line 83 for a line of box [bx] on a page of width [w],
    in exact arithmetic. *)
Definition centre_ratio (bx : BBox) (w : Q) : Q := ((b0 bx + b2 bx) / 2 / w)%Q.

(** What line 80 and line 83 give for [line], read off the annotated
    [line']: the flag is 1 exactly when the midpoint as computed, divided
    exactly by the width, falls in the window of the quotients that round
    to a double strictly between the two literals. *)
Definition centring_rule (pages : Pages) (line line' : Line) : Prop :=
  exists f page w,
    features line' = Some f /\
    nth_error pages (page_num line) = Some page /\
    w = match page with
        | [] => 1%Q
        | first :: _ => b2 (bbox first)
        end /\
    ~ (w == 0)%Q /\
    (is_centered f = 1 \/ is_centered f = 0)%Z /\
    (is_centered f = 1%Z <->
     exists m,
       midpoint64 (bbox line) = Some m /\
       (Float64.window_lo < m / w)%Q /\ (m / w <= Float64.window_hi)%Q).

(** A number that binary64 holds: a significand below 2^53 and an exponent
    in range. *)
Definition representable (q : Q) (lowest : Z) : Prop :=
  exists m k : Z,
    (q == inject_Z m * 2 ^ k)%Q /\ (Z.abs m < 2 ^ 53)%Z /\
    (lowest <= k <= 971)%Z.

(** The chained comparison of line 83 on the machine's own binary64
    numbers, some values of it, and the comparison with [centered_flag]. *)
Module Binary64.

Import PrimFloat.
Local Set Warnings "-inexact-float".

(** The rational that a finite float stands for. *)
Definition to_Q (f : float) : option Q :=
  match FloatOps.Prim2SF f with
  | SpecFloat.S754_zero _ => Some 0%Q
  | SpecFloat.S754_finite s m e =>
      Some ((if s then -1 else 1) * inject_Z (Zpos m) * 2 ^ e)%Q
  | _ => None
  end.

Definition centered (x0 x2 page_width : float) : bool :=
  ((0.4 <? (x0 + x2) / 2 / page_width) &&
   ((x0 + x2) / 2 / page_width <? 0.6))%float.

(** A line spanning 0..4 and one spanning 1..4 on a page of width 5. *)
Definition on_boundary : bool := centered 0 4 5.
Definition in_the_middle : bool := centered 1 4 5.
Definition quotient_0_4_5 : float := ((0 + 4) / 2 / 5)%float.
Definition literal_0_4 : float := 0.4%float.
Definition same (a b : float) : bool := (a =? b)%float.

(** [centered_flag] on the rationals of three floats gives what the
    machine gives on the floats. *)
Definition agrees (t : float * float * float) : bool :=
  let '(x0, x2, page_width) := t in
  match to_Q x0, to_Q x2, to_Q page_width with
  | Some a, Some b, Some w =>
      match centered_flag (mkBBox a 0 b 0) w with
      | Ok c => Bool.eqb (centered x0 x2 page_width) (c =? 1)%Z
      | Raise _ => false
      end
  | _, _, _ => false
  end.

(** Left edge, right edge and page width: quotients on and next to both
    bounds, sums that are rounded, an overflow and an underflow. *)
Definition triples : list (float * float * float) :=
  [ (0, 4, 5); (1, 4, 5); (0, 6, 5); (0, 8.8, 11); (0, 13.2, 11);
    (0x1p-70, 4, 5); (0, 0x1.0000000000001p2, 5);
    (0, 0x1.3333333333333p3, 16); (0, 0x1.3333333333332p3, 16);
    (0.1, 0.7, 1); (72, 300.5, 612); (56.7, 538.58, 595.276);
    (1e308, 1e308, 1); (-1e308, -1e308, 1); (1, 1, 1e-320);
    (5e-324, 5e-324, 1e-323); (0.4, 0.4, 1); (0.6, 0.6, 1);
    (0.30000000000000004, 0.5, 1); (-4, -6, -10); (3, 7, -10) ]%float.

End Binary64.

(* ================================================================== *)
(** * Further notions *)
(* ================================================================== *)

(** A text that is not empty and has no whitespace at either end. *)
Definition trimmed (s : string) : Prop :=
  s <> "" /\
  (forall c t, chars s = c :: t -> is_space c = false) /\
  (forall c i, chars s = i ++ [c] -> is_space c = false).

(** A line dictionary with the six keys of the parser and no other. *)
Definition unannotated (l : Line) : Prop :=
  features l = None /\ is_heading_prediction l = None /\ level l = None.

(** [rl] is a line of a text block of page [p] of the decoded document. *)
Definition text_block_line (doc : list (list Raw.block)) (p : nat)
  (rl : Raw.line) : Prop :=
  exists blocks block,
    nth_error doc p = Some blocks /\ In block blocks /\
    Raw.type block = 0%Z /\ In rl (Raw.lines block).

(** Top edges in ascending order. *)
Definition top_sorted (lines : list Line) : Prop :=
  StronglySorted (fun a b => (b1 (bbox a) <= b1 (bbox b))%Q) lines.

(** The lines whose top edge is at [y]. *)
Definition at_top (y : Q) (l : Line) : bool := Qeq_bool (b1 (bbox l)) y.

(** ** What a pattern accepts

    [matches r st st'] says that [r] can take the matcher from position
    [st] to position [st'], whatever the order in which the matcher would
    try the alternatives.  An iteration of a repeat consumes a character. *)
Fixpoint iter (R : mstate -> mstate -> Prop) (n : nat) (st st' : mstate)
  : Prop :=
  match n with
  | 0 => st' = st
  | S n' => exists st1, R st st1 /\ pos st1 <> pos st /\ iter R n' st1 st'
  end.

Fixpoint matches (r : regex) (st st' : mstate) : Prop :=
  match r with
  | Bol => pos st = 0 /\ st' = st
  | Eol => (rest st = [] \/ exists c, rest st = [c] /\ code c = 10) /\ st' = st
  | Chr p =>
      exists c t, rest st = c :: t /\ p c = true /\
                  st' = mkState (S (pos st)) t (caps st)
  | Cat r1 r2 => exists st1, matches r1 st st1 /\ matches r2 st1 st'
  | Alt r1 r2 => matches r1 st st' \/ matches r2 st st'
  | Grp n r1 =>
      exists st1, matches r1 st st1 /\
                  st' = mkState (pos st1) (rest st1)
                                ((n, (pos st, pos st1)) :: caps st1)
  | Rep _ lo hi r1 =>
      exists n, lo <= n /\ (forall h, hi = Some h -> n <= h) /\
                iter (matches r1) n st st'
  end.

(** The loop of a repeat, with the matcher of the repeated pattern as a
    parameter: [run (Rep g lo hi r) st k] is this loop on [run r]. *)
Fixpoint rep_loop (run_r : mstate -> (mstate -> option mstate) -> option mstate)
  (greedy : bool) (lo : nat) (hi : option nat)
  (k : mstate -> option mstate) (fuel cnt : nat) (cur : mstate)
  : option mstate :=
  let stop := if lo <=? cnt then k cur else None in
  match fuel with
  | 0 => stop
  | S fuel' =>
      let more :=
        if below cnt hi
        then run_r cur
               (fun nxt => if pos nxt =? pos cur then None
                           else rep_loop run_r greedy lo hi k fuel' (S cnt) nxt)
        else None in
      if greedy then orelse more stop else orelse stop more
  end.

(** The position reached from [st] after reading the characters [w]. *)
Definition advance (st : mstate) (w : list ascii) (t : list ascii) : mstate :=
  mkState (pos st + List.length w) t (caps st).

(** The longest prefix whose characters satisfy [p], and what follows it. *)
Fixpoint take_while (p : ascii -> bool) (l : list ascii) : list ascii :=
  match l with
  | c :: t => if p c then c :: take_while p t else []
  | [] => []
  end.

Fixpoint drop_while (p : ascii -> bool) (l : list ascii) : list ascii :=
  match l with
  | c :: t => if p c then drop_while p t else l
  | [] => []
  end.

(** A character of a leader: a dot or whitespace. *)
Definition is_leader (c : ascii) : bool := is_space c || is_dot c.

(** The text begins with a decimal digit. *)
Definition starts_with_digit (s : string) : Prop :=
  exists c t, chars s = c :: t /\ is_digit c = true.


(** One turn of the leader of the entry pattern: [\s*\.|\s]. *)
Definition LEADER_ITEM : regex :=
  Alt (Cat (star (Chr is_space)) (Chr is_dot)) (Chr is_space).

(** What follows the label in the entry pattern: [(?:\s*\.|\s){2,}(\d+)$]. *)
Definition TOC_REST : regex :=
  Cat (Rep true 2 None LEADER_ITEM) (Cat (Grp 2 (plus (Chr is_digit))) Eol).

(** A lazy repeat of one character class tries the continuation before it
    reads a character more. *)
Fixpoint lazy_scan (p : ascii -> bool) (k : mstate -> option mstate)
  (ps : nat) (l : list ascii) (cs : list (nat * (nat * nat)))
  : option mstate :=
  orelse (k (mkState ps l cs))
         match l with
         | c :: t => if p c then lazy_scan p k (S ps) t cs else None
         | [] => None
         end.

(** The width line 80 takes for a page: the right edge of its first line,
    or 1 when it has no line. *)
Definition page_width (page : list Line) : Q :=
  match page with
  | [] => 1%Q
  | first :: _ => b2 (bbox first)
  end.

(** What the loop of lines 78-85 writes into one line. *)
Definition annotated_from (line line' : Line) : Prop :=
  exists f,
    line' = set_features f line /\
    indentation f = b0 (bbox line) /\
    ((pattern_match f = 1%Z /\ starts_with_digit (text line)) \/
     (pattern_match f = 0%Z /\ ~ starts_with_digit (text line))).

(** The distinct font families of a document in alphabetical order. *)
Definition font_families (pages : Pages) : list string :=
  sorted String.leb (distinct String.eqb (map font_family (List.concat pages))).



(** [l] is [l'] with some elements left out, the others in their order. *)
Inductive sublist {A : Type} : list A -> list A -> Prop :=
| sublist_nil : sublist [] []
| sublist_skip (x : A) (l l' : list A) : sublist l l' -> sublist l (x :: l')
| sublist_take (x : A) (l l' : list A) :
    sublist l l' -> sublist (x :: l) (x :: l').

(** [h'] is the heading [h] with some text appended. *)
Definition text_extended (h h' : Line) : Prop :=
  exists suffix, h' = set_text (text h ++ suffix) h.

(** The longest run of lines at the front that pass a test. *)
Fixpoint run_while (p : Line -> bool) (lines : list Line) : list Line :=
  match lines with
  | l :: t => if p l then l :: run_while p t else []
  | [] => []
  end.

(** The lines that follow heading [h] on its page in the map and pass the
    test of lines 116-119 one after the other; none when [h] is not found. *)
Definition absorbed_run (all_lines_map : LinesMap) (h : Line) : list Line :=
  let lines := sorted_page_lines all_lines_map (page_num h) in
  match index_where (fun line => bbox_eqb (bbox line) (bbox h)) lines with
  | None => []
  | Some i => run_while (absorbable h) (skipn (i + 1) lines)
  end.

(** The texts of the absorbed lines, each after a blank. *)
Fixpoint absorbed_text (lines : list Line) : string :=
  match lines with
  | [] => ""
  | l :: t => (" " ++ text l ++ absorbed_text t)%string
  end.

(** The two variables of the loop of lines 96-127 after the headings [hs]:
    the stitched headings and the consumed (page, bbox) pairs. *)
Definition stitch_state (hs : list Line) (all_lines_map : LinesMap)
  : list Line * list (nat * BBox) :=
  fold_left (stitch_step all_lines_map) hs ([], []).

(** The test of line 98 for heading [h] against a consumed set. *)
Definition consumed (processed_bboxes : list (nat * BBox)) (h : Line) : bool :=
  existsb (key_eqb (page_num h, bbox h)) processed_bboxes.

(* ================================================================== *)
(** * Sample documents *)
(* ================================================================== *)

Module Samples.

Definition box (x0 y0 x1 y1 : Z) : BBox :=
  mkBBox (inject_Z x0) (inject_Z y0) (inject_Z x1) (inject_Z y1).

(** A 12pt line of page 0, 10 points high, that ends at x = 500. *)
Definition line0 (t : string) (x0 y0 : Z) : Line :=
  raw_line t 12 "Times" false 0 (box x0 y0 500 (y0 + 10)).

(** A contents page with four entries, and the same with a fifth. *)
Definition toc4 : Pages :=
  [[ line0 "Contents" 72 0;
     line0 "Overview .... 2" 72 20;
     line0 "Scope .... 3" 90 40;
     line0 "Method .... 9" 72 60;
     line0 "Data . . . 5" 90 80 ]].

Definition toc5 : Pages :=
  [[ line0 "Contents" 72 0;
     line0 "Overview .... 2" 72 20;
     line0 "Scope .... 3" 90 40;
     line0 "Method .... 9" 72 60;
     line0 "Data . . . 5" 90 80;
     line0 "Results   10" 72 100 ]].

(** Two short lines and a long one, no contents page. *)
Definition plain : Pages :=
  [[ line0 "Intro" 72 0;
     line0 "Background" 72 20;
     line0 "This is a long body line with many many words in it" 72 40 ]].

(** A classifier that answers with fixed probabilities. *)
Definition fixed (ps : list Q) : Classifier := fun _ => ps.

End Samples.

(** A heading, the short line it absorbs and a long body line. *)
Module StitchSample.

Definition intro : Line := Samples.line0 "Intro" 72 0.
Definition background : Line := Samples.line0 "Background" 72 20.
Definition body : Line :=
  Samples.line0 "This is a long body line with many many words in it" 72 40.

Definition full_map : LinesMap :=
  lines_map_of [[intro; background; body]].

(** The same page once the absorbed line is gone. *)
Definition remaining_map : LinesMap :=
  lines_map_of [[intro; body]].

Definition headings : list Line := [set_prediction 1 intro].

(** Both short lines predicted as headings, and a map whose lines carry
    the prediction key. *)
Definition two_headings : list Line :=
  [set_prediction 1 intro; set_prediction 1 background].

Definition labelled_map : LinesMap :=
  lines_map_of
    [[set_prediction 1 intro; set_prediction 1 background;
      set_prediction 0 body]].

End StitchSample.

(** Three lines of a page whose first line ends at x = 5. *)
Module CenterSample.

(** The first line fixes the width of the page at 5; the second spans
    0..4, so its midpoint is at 2 and the quotient is 2/5. *)
Definition first : Line :=
  raw_line "A wide first line" 12 "Times" false 0 (Samples.box 0 0 5 10).
Definition second : Line :=
  raw_line "Short" 12 "Times" false 0 (Samples.box 0 20 4 30).
(** A line spanning 1..4 has its midpoint at 5/2, half of the width. *)
Definition third : Line :=
  raw_line "Middle" 12 "Times" false 0 (Samples.box 1 40 4 50).
Definition pages : Pages := [[first; second; third]].

End CenterSample.

(** [n] words separated by single blanks. *)
Definition words (n : nat) : string := join " " (repeat "word" n).

(** What the decoder could return for three pages: a text block whose
    first line has two spans, a line of blanks, a line without spans and a
    line higher up the page; an image block; an empty page; a last page. *)
Module DecodedSample.

Definition doc : list (list Raw.block) :=
  [ [ Raw.mkBlock 0
        [ Raw.mkLine [ Raw.mkSpan " Hello" (23 # 2) "Arial-BoldMT";
                       Raw.mkSpan "World " 10 "Arial" ]
                     (Samples.box 72 200 300 212);
          Raw.mkLine [ Raw.mkSpan "  " 10 "Arial" ]
                     (Samples.box 72 220 80 232);
          Raw.mkLine [] (Samples.box 72 240 72 252);
          Raw.mkLine [ Raw.mkSpan "Top" 9 "Times-Roman" ]
                     (Samples.box 72 50 120 60) ];
      Raw.mkBlock 1
        [ Raw.mkLine [ Raw.mkSpan "picture" 9 "Arial" ]
                     (Samples.box 0 0 10 10) ] ];
    [];
    [ Raw.mkBlock 0
        [ Raw.mkLine [ Raw.mkSpan "Last page" 10 "Arial" ]
                     (Samples.box 72 50 200 60) ] ] ].

End DecodedSample.

(** Four lines in three font families, on two pages. *)
Module FontSample.

Definition pages : Pages :=
  [ [ raw_line "Report" 20 "Times" true 0 (Samples.box 72 50 400 70);
      raw_line "Body text" 11 "Arial" false 0 (Samples.box 72 90 400 101) ];
    [ raw_line "2 Method" 14 "Times" true 1 (Samples.box 72 50 300 64);
      raw_line "x := y" 10 "Courier" false 1 (Samples.box 90 80 200 90) ] ].

End FontSample.

(** A classifier that gives every row the same probability. *)
Module ConstantModel.

Definition always (p : Q) : Classifier := fun rows => map (fun _ => p) rows.


End ConstantModel.

(** A word of three accented letters, the code points 201, 233, 233. *)
Definition accented_word : string :=
  str [ascii_of_nat 201; ascii_of_nat 233; ascii_of_nat 233].

(* ================================================================== *)
(** * The strategy decision *)
(* ================================================================== *)

Lemma info_lines_differ : [INFO_TOC] <> [INFO_ML].
Proof. unfold INFO_TOC, INFO_ML. intro H. discriminate H. Qed.

Lemma process_toc_cases (pages : Pages) (model : option Classifier) :
  (exists entries,
      find_and_parse_toc pages = Some entries /\ 4 < List.length entries /\
      process_document_definitive pages model =
        ([INFO_TOC],
         Ok (Out.mkPayload (title_of pages) (map toc_outline_entry entries))))
  \/ ((forall entries,
          find_and_parse_toc pages = Some entries -> List.length entries <= 4) /\
      process_document_definitive pages model =
        ([INFO_ML], ml_inference pages model)).
Proof.
  unfold process_document_definitive.
  destruct (find_and_parse_toc pages) as [[|e es]|] eqn:E; cbv zeta.
  - right. split; [|reflexivity].
    intros entries H; inversion H; subst; simpl; lia.
  - destruct (4 <? List.length (e :: es)) eqn:L.
    + apply Nat.ltb_lt in L. left. exists (e :: es). auto.
    + apply Nat.ltb_ge in L. right. split; [|reflexivity].
      intros entries H. inversion H; subst. exact L.
  - right. split; [|reflexivity]. intros entries H. discriminate H.
Qed.

Lemma process_toc_rejected (pages : Pages) (model : option Classifier) :
  (forall entries,
      find_and_parse_toc pages = Some entries -> List.length entries <= 4) ->
  process_document_definitive pages model =
    ([INFO_ML], ml_inference pages model).
Proof.
  intros H. destruct (process_toc_cases pages model) as [(es & E & L & _)|[_ R]].
  - specialize (H es E). lia.
  - exact R.
Qed.

(** C1: the orchestrator prints the table-of-contents notice and returns the
    outline mapped from the parsed entries exactly when the parser returned
    a list of more than 4 entries; in every other case (no list, or at most
    4 entries) it prints the fallback notice and returns what the classifier
    path returns. *)
Theorem toc_acceptance_threshold (pages : Pages) (model : option Classifier) :
  (forall entries,
      find_and_parse_toc pages = Some entries -> 4 < List.length entries ->
      process_document_definitive pages model =
        ([INFO_TOC],
         Ok (Out.mkPayload (title_of pages) (map toc_outline_entry entries))))
  /\ ((forall entries,
          find_and_parse_toc pages = Some entries -> List.length entries <= 4) ->
      process_document_definitive pages model =
        ([INFO_ML], ml_inference pages model))
  /\ (fst (process_document_definitive pages model) = [INFO_TOC] <->
      exists entries,
        find_and_parse_toc pages = Some entries /\ 4 < List.length entries).
Proof.
  split; [|split].
  - intros entries E L.
    destruct (process_toc_cases pages model) as [(es & E' & _ & R)|[H _]].
    + rewrite E in E'. inversion E'; subst. exact R.
    + specialize (H _ E). lia.
  - apply process_toc_rejected.
  - destruct (process_toc_cases pages model) as [(es & E & L & R)|[H R]];
      rewrite R; simpl; split.
    + intros _. now exists es.
    + reflexivity.
    + intros B. symmetry in B. now apply info_lines_differ in B.
    + intros (es & E & L). specialize (H _ E). lia.
Qed.

(** Four entries fall through to the classifier path, five are accepted. *)
Lemma toc_acceptance_threshold_witness :
  process_document_definitive Samples.toc4 None =
    ([INFO_ML], ml_inference Samples.toc4 None)
  /\ fst (process_document_definitive Samples.toc5 None) = [INFO_TOC]
  /\ option_map (@List.length _) (find_and_parse_toc Samples.toc4) = Some 4
  /\ option_map (@List.length _) (find_and_parse_toc Samples.toc5) = Some 5.
Proof.
  split; [|split; [|split; vm_compute; reflexivity]].
  - apply (proj1 (proj2 (toc_acceptance_threshold Samples.toc4 None))).
    intros entries H.
    assert (E : option_map (@List.length _) (find_and_parse_toc Samples.toc4)
                = Some 4) by (vm_compute; reflexivity).
    rewrite H in E. simpl in E. inversion E. lia.
  - apply (proj2 (proj2 (toc_acceptance_threshold Samples.toc5 None))).
    destruct (find_and_parse_toc Samples.toc5) as [entries|] eqn:E.
    + exists entries. split; [reflexivity|].
      assert (L : option_map (@List.length _) (find_and_parse_toc Samples.toc5)
                  = Some 5) by (vm_compute; reflexivity).
      rewrite E in L. simpl in L. inversion L. lia.
    + vm_compute in E. discriminate E.
Defined.

(* ================================================================== *)
(** * The two reported conditions of the classifier path *)
(* ================================================================== *)

Lemma concat_nil_pages (pages : Pages) :
  List.concat pages = [] -> forall p, page_lines pages p = [].
Proof.
  unfold page_lines. induction pages as [|pg pages IH]; intros H p.
  - now destruct p.
  - simpl in H. apply app_eq_nil in H as [H1 H2].
    destruct p; simpl; [assumption | now apply IH].
Qed.

Lemma toc_scan_no_lines (pages : Pages) (candidates : list nat)
  (toc_entries : list TocRaw.entry) :
  (forall p, page_lines pages p = []) ->
  toc_scan pages candidates toc_entries = None.
Proof.
  intros H. induction candidates as [|c cs IH]; simpl; [reflexivity|].
  now rewrite H.
Qed.

Lemma no_lines_no_toc (pages : Pages) :
  List.concat pages = [] -> find_and_parse_toc pages = None.
Proof.
  intros H. apply toc_scan_no_lines. now apply concat_nil_pages.
Qed.

(** C5: on the classifier path the function returns, and does not raise, in
    both reported conditions.  Without a model the payload is the fixed
    message with an empty outline; with a model and a document without any
    line (which always takes the classifier path) it is the other fixed
    message with an empty outline. *)
Theorem recoverable_conditions (pages : Pages) :
  ((forall entries,
       find_and_parse_toc pages = Some entries -> List.length entries <= 4) ->
   process_document_definitive pages None =
     ([INFO_ML],
      Ok (Out.mkPayload "Error: ML Model not provided for inference." [])))
  /\ (forall predict : Classifier,
         List.concat pages = [] ->
         process_document_definitive pages (Some predict) =
           ([INFO_ML], Ok (Out.mkPayload "Could not parse document" []))).
Proof.
  split.
  - intros H.
    now rewrite (process_toc_rejected pages None H).
  - intros predict H.
    unfold process_document_definitive.
    rewrite (no_lines_no_toc pages H). cbv zeta.
    unfold ml_inference, engineer_features_layout.
    now rewrite H.
Qed.

Lemma recoverable_conditions_witness :
  process_document_definitive Samples.plain None =
    ([INFO_ML],
     Ok (Out.mkPayload "Error: ML Model not provided for inference." []))
  /\ process_document_definitive [[]; []] (Some (Samples.fixed [])) =
       ([INFO_ML], Ok (Out.mkPayload "Could not parse document" [])).
Proof.
  split.
  - apply (proj1 (recoverable_conditions Samples.plain)).
    intros entries H. vm_compute in H. discriminate H.
  - apply (proj2 (recoverable_conditions [[]; []])). reflexivity.
Defined.

(* ================================================================== *)
(** * Ranking distinct values: [sorted(list(set(...)))] and its [enumerate] *)
(* ================================================================== *)

Section Ranks.

Context {A : Type} (eqb leb : A -> A -> bool).

Hypothesis eqb_refl : forall x, eqb x x = true.
Hypothesis eqb_sym : forall x y, eqb x y = true -> eqb y x = true.
Hypothesis eqb_trans :
  forall x y z, eqb x y = true -> eqb y z = true -> eqb x z = true.
Hypothesis leb_total : forall x y, leb x y = true \/ leb y x = true.
Hypothesis leb_trans :
  forall x y z, leb x y = true -> leb y z = true -> leb x z = true.
Hypothesis leb_antisym :
  forall x y, leb x y = true -> leb y x = true -> eqb x y = true.
Hypothesis eqb_leb : forall x y, eqb x y = true -> leb x y = true.

Lemma eqb_false_sym x y : eqb x y = false -> eqb y x = false.
Proof.
  intros H. destruct (eqb y x) eqn:E; [|reflexivity].
  apply eqb_sym in E. congruence.
Qed.

Lemma before_irrefl x y : before eqb leb x y -> before eqb leb y x -> False.
Proof.
  intros [L1 N1] [L2 _]. pose proof (leb_antisym _ _ L1 L2). congruence.
Qed.

Lemma before_eqb_l x x' y : eqb x x' = true -> before eqb leb x y -> before eqb leb x' y.
Proof.
  intros E [L N]. split.
  - apply leb_trans with x; [apply eqb_leb; now apply eqb_sym | exact L].
  - destruct (eqb x' y) eqn:E'; [|reflexivity].
    rewrite (eqb_trans _ _ _ E E') in N. discriminate.
Qed.

Lemma before_eqb_r x y y' : eqb y y' = true -> before eqb leb x y -> before eqb leb x y'.
Proof.
  intros E [L N]. split.
  - apply leb_trans with y; [exact L | now apply eqb_leb].
  - destruct (eqb x y') eqn:E'; [|reflexivity].
    rewrite (eqb_trans _ _ _ E' (eqb_sym _ _ E)) in N. discriminate.
Qed.

Lemma insert_sorted_In x y l :
  In y (insert_sorted leb x l) <-> y = x \/ In y l.
Proof.
  induction l as [|z l IH]; simpl.
  - intuition.
  - destruct (leb x z); simpl; [intuition|]. rewrite IH. intuition.
Qed.

Lemma sorted_In y l : In y (sorted leb l) <-> In y l.
Proof.
  induction l as [|x l IH]; simpl; [tauto|].
  rewrite insert_sorted_In, IH. intuition.
Qed.

Lemma distinct_In x l : In x (distinct eqb l) -> In x l.
Proof.
  induction l as [|y l IH]; simpl; [tauto|].
  destruct (existsb (eqb y) l); simpl; intuition.
Qed.

Lemma distinct_represents x l :
  In x l -> exists d, In d (distinct eqb l) /\ eqb x d = true.
Proof.
  revert x. induction l as [|y l IH]; intros x; simpl; [tauto|].
  intros [->|H].
  - destruct (existsb (eqb x) l) eqn:E.
    + apply existsb_exists in E as (z & Hz & Exz).
      destruct (IH z Hz) as (d & Hd & Ezd).
      exists d. split; [exact Hd | now apply eqb_trans with z].
    + exists x. split; [now left | apply eqb_refl].
  - destruct (IH x H) as (d & Hd & E).
    exists d. split; [|exact E].
    destruct (existsb (eqb y) l); [exact Hd | now right].
Qed.

Lemma insert_sorted_strict x s :
  StronglySorted (before eqb leb) s ->
  (forall y, In y s -> eqb x y = false) ->
  StronglySorted (before eqb leb) (insert_sorted leb x s).
Proof.
  induction 1 as [|y s SS IH FA]; intros N; simpl.
  - constructor; constructor.
  - rewrite Forall_forall in FA.
    destruct (leb x y) eqn:L.
    + constructor; [now constructor; [|apply Forall_forall]|].
      apply Forall_forall. intros z [<-|Hz].
      * split; [exact L | apply N; now left].
      * split; [|apply N; now right].
        apply leb_trans with y; [exact L | apply (FA z Hz)].
    + constructor.
      * apply IH. intros z Hz. apply N. now right.
      * apply Forall_forall. intros z Hz.
        apply insert_sorted_In in Hz as [->|Hz]; [|now apply FA].
        split.
        -- destruct (leb_total x y) as [C|C]; [congruence | exact C].
        -- apply eqb_false_sym, N. now left.
Qed.

(** The ranking list is strictly ascending for [leb]. *)
Lemma ranks_strict l : StronglySorted (before eqb leb) (sorted leb (distinct eqb l)).
Proof.
  induction l as [|x l IH]; simpl; [constructor|].
  destruct (existsb (eqb x) l) eqn:E; [exact IH|].
  simpl. apply insert_sorted_strict; [exact IH|].
  intros y Hy. apply sorted_In, distinct_In in Hy.
  destruct (eqb x y) eqn:Exy; [|reflexivity].
  assert (existsb (eqb x) l = true) by (apply existsb_exists; eauto).
  congruence.
Qed.

Lemma ranks_In d l : In d (sorted leb (distinct eqb l)) -> In d l.
Proof. intros H. now apply distinct_In, sorted_In. Qed.

Lemma ranks_represent x l :
  In x l -> exists d, In d (sorted leb (distinct eqb l)) /\ eqb x d = true.
Proof.
  intros H. destruct (distinct_represents x l H) as (d & Hd & E).
  exists d. split; [now apply sorted_In | exact E].
Qed.

(** Positions in a strictly ascending list. *)
Lemma strict_nth_order ds i j a b :
  StronglySorted (before eqb leb) ds ->
  nth_error ds i = Some a -> nth_error ds j = Some b ->
  i < j -> before eqb leb a b.
Proof.
  intros SS. revert i j. induction SS as [|d ds SS IH FA]; intros i j Hi Hj L.
  - now destruct i.
  - destruct j as [|j]; [lia|]. simpl in Hj.
    destruct i as [|i]; simpl in Hi.
    + inversion Hi; subst. rewrite Forall_forall in FA.
      apply FA. eapply nth_error_In; eauto.
    + apply (IH i j); auto. lia.
Qed.

Lemma strict_nth_before ds i j a b :
  StronglySorted (before eqb leb) ds ->
  nth_error ds i = Some a -> nth_error ds j = Some b ->
  before eqb leb a b -> i < j.
Proof.
  intros SS Hi Hj B.
  destruct (Nat.lt_trichotomy i j) as [L|[->|L]]; [exact L | |].
  - rewrite Hi in Hj. inversion Hj; subst.
    destruct B as [_ N]. rewrite eqb_refl in N. discriminate.
  - exfalso. apply (before_irrefl a b B).
    eapply strict_nth_order; eauto.
Qed.

Lemma strict_nth_eqb ds i j a b :
  StronglySorted (before eqb leb) ds ->
  nth_error ds i = Some a -> nth_error ds j = Some b ->
  eqb a b = true -> i = j.
Proof.
  intros SS Hi Hj E.
  destruct (Nat.lt_trichotomy i j) as [L|[->|L]]; [|reflexivity|].
  - destruct (strict_nth_order _ _ _ _ _ SS Hi Hj L) as [_ N]. congruence.
  - destruct (strict_nth_order _ _ _ _ _ SS Hj Hi L) as [_ N].
    apply eqb_sym in E. congruence.
Qed.

Lemma index_where_nth (p : A -> bool) l i :
  index_where p l = Some i -> exists d, nth_error l i = Some d /\ p d = true.
Proof.
  revert i. induction l as [|x l IH]; intros i; simpl; [discriminate|].
  destruct (p x) eqn:P.
  - intros H. inversion H; subst. exists x. auto.
  - destruct (index_where p l) as [k|]; simpl; [|discriminate].
    intros H. inversion H; subst. apply (IH k eq_refl).
Qed.

Lemma index_where_found (p : A -> bool) l d :
  In d l -> p d = true -> exists i, index_where p l = Some i.
Proof.
  induction l as [|x l IH]; simpl; [tauto|].
  intros H P. destruct (p x) eqn:Px; [eauto|].
  destruct H as [->|H]; [congruence|].
  destruct (IH H P) as (i & ->). simpl. eauto.
Qed.

(** Reading the dictionary built from [enumerate] is reading the position
    of the key. *)
Lemma dict_get_enumerate {V : Type} (tag : nat -> V) ds n k default :
  dict_get eqb (map (fun p => (snd p, tag (fst p))) (enumerate_from n ds))
           k default =
  match index_where (eqb k) ds with
  | Some i => tag (n + i)
  | None => default
  end.
Proof.
  revert n. induction ds as [|d ds IH]; intros n; simpl; [reflexivity|].
  destruct (eqb k d).
  - now rewrite Nat.add_0_r.
  - rewrite IH. destruct (index_where (eqb k) ds); simpl; [|reflexivity].
    f_equal. lia.
Qed.

Lemma rank_in_spec l x :
  In x l ->
  let ds := sorted leb (distinct eqb l) in
  index_where (eqb x) ds = Some (rank_in eqb ds x) /\
  exists d, nth_error ds (rank_in eqb ds x) = Some d /\ eqb x d = true.
Proof.
  intros H ds. subst ds. destruct (ranks_represent x l H) as (d & Hd & E).
  destruct (index_where_found (eqb x) _ d Hd E) as (i & Hi).
  unfold rank_in. rewrite Hi. split; [reflexivity|].
  now apply index_where_nth.
Qed.

End Ranks.

(* ================================================================== *)
(** * Levels of the table of contents *)
(* ================================================================== *)

Section TocLevels.

#[local] Abbreviation qbefore := (before Qeq_bool Qle_bool).

Lemma Qeq_bool_symm (x y : Q) : Qeq_bool x y = true -> Qeq_bool y x = true.
Proof. rewrite !Qeq_bool_iff. intros H. now symmetry. Qed.

Lemma Qeq_bool_tran (x y z : Q) :
  Qeq_bool x y = true -> Qeq_bool y z = true -> Qeq_bool x z = true.
Proof. rewrite !Qeq_bool_iff. intros H1 H2. now rewrite H1. Qed.

Lemma Qle_bool_total (x y : Q) : Qle_bool x y = true \/ Qle_bool y x = true.
Proof.
  rewrite !Qle_bool_iff. destruct (Qlt_le_dec x y) as [H|H]; [left|right].
  - now apply Qlt_le_weak.
  - exact H.
Qed.

Lemma Qle_bool_tran (x y z : Q) :
  Qle_bool x y = true -> Qle_bool y z = true -> Qle_bool x z = true.
Proof. rewrite !Qle_bool_iff. apply Qle_trans. Qed.

Lemma Qle_bool_antisym (x y : Q) :
  Qle_bool x y = true -> Qle_bool y x = true -> Qeq_bool x y = true.
Proof. rewrite !Qle_bool_iff, Qeq_bool_iff. apply Qle_antisym. Qed.

Lemma Qeq_bool_le (x y : Q) : Qeq_bool x y = true -> Qle_bool x y = true.
Proof.
  rewrite Qle_bool_iff, Qeq_bool_iff. intros H. rewrite H. apply Qle_refl.
Qed.

Lemma qbefore_lt (x y : Q) : qbefore x y <-> (x < y)%Q.
Proof.
  unfold before. rewrite Qle_bool_iff. split.
  - intros [L N]. apply Qle_lteq in L as [L|E]; [exact L|].
    apply Qeq_bool_iff in E. congruence.
  - intros L. split; [now apply Qlt_le_weak|].
    destruct (Qeq_bool x y) eqn:E; [|reflexivity].
    apply Qeq_bool_iff in E. rewrite E in L. now apply Qlt_irrefl in L.
Qed.

Lemma strict_Qlt (ds : list Q) :
  StronglySorted qbefore ds <-> StronglySorted Qlt ds.
Proof.
  split; induction 1 as [|d ds SS IH FA]; constructor; auto;
    rewrite Forall_forall in *; intros z Hz; apply qbefore_lt; auto.
Qed.

Lemma toc_assign_levels_In (raw : list TocRaw.entry) (e : Toc.entry) :
  In e (toc_assign_levels raw) ->
  In (Toc.indent e) (map TocRaw.indent raw) /\
  Toc.level e =
    match index_where (Qeq_bool (Toc.indent e)) (toc_indents raw) with
    | Some i => level_tag (i + 1)
    | None => "H1"
    end.
Proof.
  unfold toc_assign_levels. intros H.
  apply in_map_iff in H as (r & <- & Hr). simpl. split.
  - now apply in_map.
  - unfold toc_indent_map, enumerate.
    now rewrite (dict_get_enumerate Qeq_bool (fun i => level_tag (i + 1))).
Qed.

Lemma toc_indents_strict (raw : list TocRaw.entry) :
  StronglySorted Qlt (toc_indents raw).
Proof.
  apply strict_Qlt. unfold toc_indents.
  apply (ranks_strict Qeq_bool Qle_bool Qeq_bool_symm Qle_bool_total
           Qle_bool_tran).
Qed.

Lemma toc_rank_spec (raw : list TocRaw.entry) (e : Toc.entry) :
  In e (toc_assign_levels raw) ->
  (exists d, nth_error (toc_indents raw) (toc_rank (toc_indents raw) e) = Some d
             /\ (Toc.indent e == d)%Q)
  /\ Toc.level e = level_tag (toc_rank (toc_indents raw) e + 1).
Proof.
  intros H. apply toc_assign_levels_In in H as [Hin Hlv].
  destruct (rank_in_spec Qeq_bool Qle_bool Qeq_bool_refl Qeq_bool_tran
              (map TocRaw.indent raw) (Toc.indent e) Hin) as [Hi (d & Hd & E)].
  fold (toc_indents raw) in Hi, Hd. unfold toc_rank. split.
  - exists d. split; [exact Hd | now apply Qeq_bool_iff].
  - now rewrite Hlv, Hi.
Qed.

Lemma two_values_two_ranks (ds : list Q) (a b : Q) :
  StronglySorted Qlt ds ->
  (forall d, In d ds -> (d == a)%Q \/ (d == b)%Q) ->
  List.length ds <= 2.
Proof.
  intros SS H.
  destruct ds as [|x [|y [|z ds]]]; simpl; try lia.
  exfalso.
  inversion SS as [|? ? SS1 F1]; subst.
  inversion SS1 as [|? ? SS2 F2]; subst.
  rewrite Forall_forall in F1, F2.
  assert (Lxy : (x < y)%Q) by (apply F1; simpl; auto).
  assert (Lxz : (x < z)%Q) by (apply F1; simpl; auto).
  assert (Lyz : (y < z)%Q) by (apply F2; simpl; auto).
  destruct (H x) as [Hx|Hx]; [simpl; auto| |];
    (destruct (H y) as [Hy|Hy]; [simpl; auto| |]);
    (destruct (H z) as [Hz|Hz]; [simpl; auto| |]);
    rewrite ?Hx, ?Hy, ?Hz in *;
    try (now apply Qlt_irrefl in Lxy);
    try (now apply Qlt_irrefl in Lxz);
    try (now apply Qlt_irrefl in Lyz).
Qed.

Lemma toc_scan_levels (pages : Pages) (candidates : list nat)
  (acc : list TocRaw.entry) (entries : list Toc.entry) :
  toc_scan pages candidates acc = Some entries ->
  exists raw, raw <> [] /\ entries = toc_assign_levels raw.
Proof.
  revert acc. induction candidates as [|c cs IH]; intros acc; simpl;
    [discriminate|].
  destruct (page_lines pages c) as [|l ls]; [apply IH|].
  destruct (is_toc_header (l :: ls)); [|apply IH].
  destruct (acc ++ toc_window pages c) as [|r raw] eqn:E; [apply IH|].
  intros H. inversion H. exists (r :: raw). split; [discriminate|reflexivity].
Qed.

End TocLevels.

(** C4: the entries returned by the parser are not empty; with the distinct
    indentation values ranked in strictly ascending order, every entry
    carries the tag H(r+1) of the rank r of its indentation, so that equal
    indentations give equal tags and a smaller indentation gives a smaller
    rank; when the indentations take at most two values only H1 and H2
    occur, never H3. *)
Theorem toc_indent_levels (pages : Pages) (entries : list Toc.entry) :
  find_and_parse_toc pages = Some entries ->
  entries <> [] /\
  exists indents : list Q,
    StronglySorted Qlt indents /\
    (forall d, In d indents ->
       exists e, In e entries /\ (Toc.indent e == d)%Q) /\
    (forall e, In e entries ->
       (exists d, nth_error indents (toc_rank indents e) = Some d /\
                  (Toc.indent e == d)%Q) /\
       Toc.level e = level_tag (toc_rank indents e + 1)) /\
    (forall e1 e2, In e1 entries -> In e2 entries ->
       ((Toc.indent e1 == Toc.indent e2)%Q -> Toc.level e1 = Toc.level e2) /\
       ((Toc.indent e1 < Toc.indent e2)%Q ->
        toc_rank indents e1 < toc_rank indents e2)) /\
    (forall a b : Q,
       (forall e, In e entries ->
          (Toc.indent e == a)%Q \/ (Toc.indent e == b)%Q) ->
       forall e, In e entries ->
         (Toc.level e = "H1" \/ Toc.level e = "H2") /\ Toc.level e <> "H3").
Proof.
  intros H. apply toc_scan_levels in H as (raw & Hne & ->).
  split.
  { destruct raw; [congruence | discriminate]. }
  exists (toc_indents raw).
  pose proof (toc_indents_strict raw) as SS.
  assert (SB : StronglySorted (before Qeq_bool Qle_bool) (toc_indents raw))
    by now apply strict_Qlt.
  assert (Hin : forall d, In d (toc_indents raw) ->
      exists e, In e (toc_assign_levels raw) /\ (Toc.indent e == d)%Q).
  { intros d Hd. apply ranks_In, in_map_iff in Hd as (r & <- & Hr).
    eexists. split.
    - unfold toc_assign_levels. apply in_map_iff. exists r. eauto.
    - simpl. reflexivity. }
  split; [exact SS|]. split; [exact Hin|].
  split; [intros e He; now apply toc_rank_spec|].
  split.
  - intros e1 e2 H1 H2.
    destruct (toc_rank_spec raw e1 H1) as [(d1 & N1 & E1) L1].
    destruct (toc_rank_spec raw e2 H2) as [(d2 & N2 & E2) L2].
    split.
    + intros E. rewrite L1, L2. do 2 f_equal.
      apply (strict_nth_eqb Qeq_bool Qle_bool Qeq_bool_symm
               _ _ _ d1 d2 SB N1 N2).
      apply Qeq_bool_iff. now rewrite <- E1, <- E2.
    + intros L.
      apply (strict_nth_before Qeq_bool Qle_bool Qeq_bool_refl
               Qle_bool_antisym _ _ _ d1 d2 SB N1 N2).
      apply qbefore_lt. now rewrite <- E1, <- E2.
  - intros a b Hab e He.
    destruct (toc_rank_spec raw e He) as [(d & N & E) L].
    assert (Len : List.length (toc_indents raw) <= 2).
    { apply (two_values_two_ranks _ a b SS).
      intros d' Hd'. destruct (Hin d' Hd') as (e' & He' & E').
      destruct (Hab e' He') as [Ha|Hb]; [left|right];
        now rewrite <- E'. }
    assert (R : toc_rank (toc_indents raw) e < 2).
    { assert (toc_rank (toc_indents raw) e < List.length (toc_indents raw));
        [|lia].
      apply nth_error_Some. congruence. }
    rewrite L.
    destruct (toc_rank (toc_indents raw) e) as [|[|n]]; [| |lia].
    + split; [now left | discriminate].
    + split; [now right | discriminate].
Qed.

Lemma toc_indent_levels_witness :
  exists entries, find_and_parse_toc Samples.toc5 = Some entries /\
    map Toc.level entries = ["H1"; "H2"; "H1"; "H2"; "H1"] /\
    forall e, In e entries -> Toc.level e <> "H3".
Proof.
  destruct (find_and_parse_toc Samples.toc5) as [entries|] eqn:E;
    [|vm_compute in E; discriminate E].
  exists entries. split; [reflexivity|]. split.
  - assert (L : option_map (map Toc.level) (find_and_parse_toc Samples.toc5)
                = Some ["H1"; "H2"; "H1"; "H2"; "H1"])
      by (vm_compute; reflexivity).
    rewrite E in L. now inversion L.
  - destruct (toc_indent_levels Samples.toc5 entries E)
      as (_ & indents & _ & _ & _ & _ & Two).
    intros e He.
    apply (Two (inject_Z 72) (inject_Z 90)); [|exact He].
    assert (A : option_map
                  (forallb (fun e => Qeq_bool (Toc.indent e) (inject_Z 72)
                                     || Qeq_bool (Toc.indent e) (inject_Z 90)))
                  (find_and_parse_toc Samples.toc5) = Some true)
      by (vm_compute; reflexivity).
    rewrite E in A. simpl in A. inversion A as [A'].
    rewrite forallb_forall in A'.
    intros e' He'. specialize (A' e' He').
    apply orb_true_iff in A' as [A'|A']; apply Qeq_bool_iff in A'; auto.
Defined.

(* ================================================================== *)
(** * Levels by font size *)
(* ================================================================== *)

Section SizeLevels.

Lemma Zgeb_total (x y : Z) : Z.geb x y = true \/ Z.geb y x = true.
Proof. rewrite !Z.geb_le. lia. Qed.

Lemma Zgeb_trans (x y z : Z) :
  Z.geb x y = true -> Z.geb y z = true -> Z.geb x z = true.
Proof. rewrite !Z.geb_le. lia. Qed.

Lemma Zeqb_sym (x y : Z) : Z.eqb x y = true -> Z.eqb y x = true.
Proof. rewrite !Z.eqb_eq. auto. Qed.

Lemma Zeqb_trans (x y z : Z) :
  Z.eqb x y = true -> Z.eqb y z = true -> Z.eqb x z = true.
Proof. rewrite !Z.eqb_eq. congruence. Qed.

Lemma strict_Zgt (ds : list Z) :
  StronglySorted (before Z.eqb Z.geb) ds -> StronglySorted Z.gt ds.
Proof.
  induction 1 as [|d ds SS IH FA]; constructor; auto.
  rewrite Forall_forall in *. intros z Hz.
  destruct (FA z Hz) as [L N]. apply Z.geb_le in L. apply Z.eqb_neq in N. lia.
Qed.

Lemma index_where_firstn {A : Type} (p : A -> bool) (n : nat) (l : list A) :
  index_where p (firstn n l) =
  match index_where p l with
  | Some i => if i <? n then Some i else None
  | None => None
  end.
Proof.
  revert n. induction l as [|x l IH]; intros n.
  - now rewrite firstn_nil.
  - destruct n as [|n]; simpl.
    + destruct (p x); [reflexivity|]. now destruct (index_where p l).
    + destruct (p x); [reflexivity|]. rewrite IH.
      destruct (index_where p l) as [i|]; simpl; [|reflexivity].
      change (S i <? S n) with (i <? n). now destruct (i <? n).
Qed.

Lemma size_rank_spec (headings : list Line) (h : Line) :
  In h headings ->
  index_where (Z.eqb (size h)) (heading_sizes headings)
    = Some (size_rank (heading_sizes headings) h) /\
  nth_error (heading_sizes headings) (size_rank (heading_sizes headings) h)
    = Some (size h).
Proof.
  intros H.
  destruct (rank_in_spec Z.eqb Z.geb Z.eqb_refl Zeqb_trans
              (map size headings) (size h) (in_map size _ _ H))
    as [Hi (d & Hd & E)].
  fold (heading_sizes headings) in Hi, Hd. unfold size_rank.
  split; [exact Hi|]. apply Z.eqb_eq in E. rewrite Hd. now rewrite E.
Qed.

Lemma size_map_lookup (headings : list Line) (h : Line) :
  In h headings ->
  dict_get Z.eqb (size_map_of headings) (size h) "H3" =
  level_tag (Nat.min (size_rank (heading_sizes headings) h) 2 + 1).
Proof.
  intros H. destruct (size_rank_spec headings h H) as [Hi _].
  unfold size_map_of, enumerate.
  rewrite (dict_get_enumerate Z.eqb (fun i => level_tag (i + 1))).
  rewrite index_where_firstn, Hi.
  destruct (size_rank (heading_sizes headings) h) as [|[|[|r]]];
    reflexivity.
Qed.

End SizeLevels.

(** C8: the distinct sizes of the headings are ranked in strictly descending
    order; a heading whose size has rank 0, 1 or 2 receives H1, H2 or H3,
    and a heading of any later rank receives H3 as well, so the three tags
    are the only ones the level assigner writes.  Nothing else of a heading
    changes, and the list keeps its order. *)
Theorem font_size_levels (headings : list Line) :
  let sizes := heading_sizes headings in
  StronglySorted Z.gt sizes /\
  (forall s, In s sizes <-> In s (map size headings)) /\
  assign_levels_by_font_size headings =
    map (fun h => set_level (level_tag (Nat.min (size_rank sizes h) 2 + 1)) h)
        headings /\
  (forall h, In h headings ->
     nth_error sizes (size_rank sizes h) = Some (size h) /\
     (size_rank sizes h = 0 -> level_tag (Nat.min (size_rank sizes h) 2 + 1) = "H1") /\
     (size_rank sizes h = 1 -> level_tag (Nat.min (size_rank sizes h) 2 + 1) = "H2") /\
     (2 <= size_rank sizes h -> level_tag (Nat.min (size_rank sizes h) 2 + 1) = "H3")) /\
  (forall h', In h' (assign_levels_by_font_size headings) ->
     level h' = Some "H1" \/ level h' = Some "H2" \/ level h' = Some "H3").
Proof.
  intros sizes.
  assert (EQ : assign_levels_by_font_size headings =
    map (fun h => set_level (level_tag (Nat.min (size_rank sizes h) 2 + 1)) h)
        headings).
  { unfold assign_levels_by_font_size.
    destruct headings as [|h0 hs]; [reflexivity|].
    apply map_ext_in. intros h Hh. now rewrite size_map_lookup. }
  split; [|split; [|split; [exact EQ|split]]].
  - apply strict_Zgt.
    apply (ranks_strict Z.eqb Z.geb Zeqb_sym Zgeb_total Zgeb_trans).
  - intros s. split.
    + apply ranks_In.
    + intros H.
      destruct (ranks_represent Z.eqb Z.geb Z.eqb_refl Zeqb_trans s _ H)
        as (d & Hd & E).
      apply Z.eqb_eq in E. now subst d.
  - intros h Hh. split; [apply (size_rank_spec headings h Hh)|].
    repeat split; intros R.
    + now rewrite R.
    + now rewrite R.
    + rewrite Nat.min_r by exact R. reflexivity.
  - rewrite EQ. intros h' Hh'. apply in_map_iff in Hh' as (h & <- & _).
    simpl. destruct (size_rank sizes h) as [|[|[|r]]]; auto.
Qed.

(** Five sizes 24, 20, 18, 14 and 12: the last two both receive H3. *)
Lemma font_size_levels_example :
  let h (sz : Z) := raw_line "Heading" sz "Times" true 0
                      (Samples.box 72 sz 300 (sz + 10)) in
  map (fun l => (size l, level l))
      (assign_levels_by_font_size [h 12; h 24; h 14; h 20; h 18; h 24])%Z =
  [(12, Some "H3"); (24, Some "H1"); (14, Some "H3"); (20, Some "H2");
   (18, Some "H3"); (24, Some "H1")]%Z.
Proof. vm_compute. reflexivity. Qed.

(* ================================================================== *)
(** * The sanity filter *)
(* ================================================================== *)

Section Sanity.

Lemma chars_app (a b : string) : chars (a ++ b)%string = chars a ++ chars b.
Proof. induction a as [|c a IH]; simpl; [reflexivity|]. now rewrite IH. Qed.

Lemma str_chars (s : string) : str (chars s) = s.
Proof. apply string_of_list_ascii_of_string. Qed.

Lemma chars_str (l : list ascii) : chars (str l) = l.
Proof. apply list_ascii_of_string_of_list_ascii. Qed.

Lemma starts_with_iff (p l : list ascii) :
  starts_with p l = true <-> exists post, l = p ++ post.
Proof.
  revert l. induction p as [|a p IH]; intros l; simpl.
  - split; eauto.
  - destruct l as [|b l].
    + split; [discriminate | intros (post & H); discriminate H].
    + rewrite andb_true_iff, Ascii.eqb_eq, IH. split.
      * intros (-> & post & ->). eauto.
      * intros (post & H). inversion H; subst. eauto.
Qed.

Lemma contains_chars_iff (needle hay : list ascii) :
  contains_chars needle hay = true <->
  exists pre post, hay = pre ++ needle ++ post.
Proof.
  induction hay as [|c hay IH].
  - simpl. rewrite orb_false_r, starts_with_iff. split.
    + intros (post & H). exists [], post. exact H.
    + intros (pre & post & H). destruct pre; [eauto|discriminate H].
  - cbn [contains_chars]. rewrite orb_true_iff, starts_with_iff, IH. split.
    + intros [(post & H)|(pre & post & H)].
      * exists [], post. exact H.
      * exists (c :: pre), post. simpl. now rewrite H.
    + intros (pre & post & H). destruct pre as [|c' pre].
      * left. eauto.
      * right. inversion H; subst. eauto.
Qed.

Lemma contains_iff (needle hay : string) :
  contains needle hay = true <->
  exists pre post, hay = (pre ++ needle ++ post)%string.
Proof.
  unfold contains. rewrite contains_chars_iff. split.
  - intros (pre & post & H). exists (str pre), (str post).
    rewrite <- (str_chars hay), H.
    rewrite <- (str_chars (str pre ++ needle ++ str post)).
    now rewrite !chars_app, !chars_str.
  - intros (pre & post & ->). exists (chars pre), (chars post).
    now rewrite !chars_app.
Qed.

Lemma search_letter_iff (p : nat) (l : list ascii) :
  (exists m, search_from LETTER p l = Some m) <->
  exists c, In c l /\ is_alpha c = true.
Proof.
  revert p. induction l as [|c l IH]; intros p.
  - simpl. split; [intros (m & H); discriminate H | intros (c & [] & _)].
  - cbn [search_from LETTER run rest]. destruct (is_alpha c) eqn:A.
    + split; [intros _; exists c; simpl; auto | eauto].
    + rewrite IH. split.
      * intros (d & Hd & Ad). exists d. simpl; auto.
      * intros (d & [<-|Hd] & Ad); [congruence | eauto].
Qed.

Lemma sanity_loop_filter (headings acc : list Line) :
  sanity_loop headings acc = acc ++ filter (fun h => sane (text h)) headings.
Proof.
  revert acc. induction headings as [|h hs IH]; intros acc; simpl.
  - now rewrite app_nil_r.
  - destruct (sane (text h)); rewrite IH; [|reflexivity].
    now rewrite <- app_assoc.
Qed.

End Sanity.

(** C9, as the code has it: the filter returns the entries that pass the
    test, in their order; an entry passes exactly when its text has a
    letter of [a-zA-Z], does not contain three backticks in a row, and
    splits into fewer than 25 words.  A letter outside that class does not
    count. *)
Theorem sanity_filter_keeps (headings : list Line) :
  nlp_sanity_check headings = filter (fun h => sane (text h)) headings /\
  (forall h, In h (nlp_sanity_check headings) <->
             In h headings /\ sane (text h) = true) /\
  (forall t : string,
      sane t = true <->
      (exists c, In c (chars t) /\ is_alpha c = true) /\
      ~ (exists pre post, t = (pre ++ "```" ++ post)%string) /\
      word_count t < 25).
Proof.
  assert (E : nlp_sanity_check headings
              = filter (fun h => sane (text h)) headings).
  { unfold nlp_sanity_check. now rewrite sanity_loop_filter. }
  split; [exact E|]. split.
  - intros h. rewrite E. apply filter_In.
  - intros t. unfold sane, word_count.
    rewrite !andb_true_iff, negb_true_iff, Nat.ltb_lt.
    rewrite <- (search_letter_iff 0 (chars t)).
    fold (re_search LETTER t).
    rewrite <- contains_iff.
    destruct (re_search LETTER t) as [m|]; destruct (contains "```" t);
      split; intros [[H1 H2] H3] || intros [H1 [H2 H3]];
      repeat split; eauto; try congruence;
      try (now destruct H1); try (now exfalso; apply H2).
Qed.

(** 24 words are kept and 25 are not; digits alone are never kept. *)
Lemma sanity_filter_examples :
  sane (words 24) = true /\ word_count (words 24) = 24 /\
  sane (words 25) = false /\ word_count (words 25) = 25 /\
  sane "12345" = false /\ sane "see ```code``` here" = false /\
  map text (nlp_sanity_check
              [ Samples.line0 (words 25) 0 0; Samples.line0 "Scope" 0 20;
                Samples.line0 "12345" 0 40; Samples.line0 (words 24) 0 60 ])
    = ["Scope"; words 24].
Proof. vm_compute. repeat split; reflexivity. Qed.

(** C9 as stated fails on a letter outside [a-zA-Z]: a text of three
    accented letters has an alphabetic character, no backtick and one
    word, and the filter drops it. *)
Lemma sanity_filter_alphabetic_counterexample :
  (exists c, In c (chars accented_word) /\ is_alphabetic c = true) /\
  ~ (exists pre post, accented_word = (pre ++ "```" ++ post)%string) /\
  word_count accented_word < 25 /\
  nlp_sanity_check [Samples.line0 accented_word 0 0] = [].
Proof.
  split; [|split; [|split]].
  - exists (ascii_of_nat 201). split; [left|]; reflexivity.
  - intros H. apply contains_iff in H. vm_compute in H. discriminate.
  - vm_compute. lia.
  - vm_compute. reflexivity.
Qed.

(* ================================================================== *)
(** * [sorted] with an integer key: ascending, a permutation, stable *)
(* ================================================================== *)

Section SortedByKey.

Context {A : Type} (key : A -> Z).

#[local] Abbreviation leb := (fun a b : A => (key a <=? key b)%Z).
#[local] Abbreviation le := (fun a b : A => (key a <= key b)%Z).

Lemma insert_sorted_perm (x : A) (l : list A) :
  Permutation (x :: l) (insert_sorted leb x l).
Proof.
  induction l as [|y l IH]; simpl; [reflexivity|].
  destruct (leb x y); [reflexivity|].
  rewrite perm_swap. now constructor.
Qed.

Lemma sorted_perm (l : list A) : Permutation l (sorted leb l).
Proof.
  induction l as [|x l IH]; simpl; [constructor|].
  rewrite <- insert_sorted_perm. now constructor.
Qed.

Lemma insert_sorted_ascending (x : A) (s : list A) :
  StronglySorted le s -> StronglySorted le (insert_sorted leb x s).
Proof.
  induction 1 as [|y s SS IH FA]; simpl.
  - constructor; constructor.
  - rewrite Forall_forall in FA. cbn beta.
    destruct (Z.leb_spec (key x) (key y)) as [L|L].
    + constructor; [now constructor; [|apply Forall_forall]|].
      apply Forall_forall. intros z [<-|Hz]; [exact L|].
      specialize (FA z Hz). cbn beta in FA. lia.
    + constructor; [exact IH|].
      apply Forall_forall. intros z Hz.
      apply (Permutation_in _ (Permutation_sym (insert_sorted_perm x s)))
        in Hz.
      destruct Hz as [<-|Hz]; [lia | now apply FA].
Qed.

Lemma sorted_ascending (l : list A) : StronglySorted le (sorted leb l).
Proof.
  induction l as [|x l IH]; simpl; [constructor|].
  now apply insert_sorted_ascending.
Qed.

Lemma insert_sorted_stable (k : Z) (x : A) (l : list A) :
  filter (fun a => (key a =? k)%Z) (insert_sorted leb x l) =
  filter (fun a => (key a =? k)%Z) (x :: l).
Proof.
  induction l as [|y l IH]; [reflexivity|].
  cbn [insert_sorted]. cbn beta.
  destruct (Z.leb_spec (key x) (key y)) as [L|L]; [reflexivity|].
  cbn [filter] in *. rewrite IH.
  destruct (Z.eqb_spec (key x) k) as [Ex|Ex];
    destruct (Z.eqb_spec (key y) k) as [Ey|Ey]; try reflexivity.
  lia.
Qed.

(** Entries with the same key come out in the order they went in. *)
Lemma sorted_stable (k : Z) (l : list A) :
  filter (fun a => (key a =? k)%Z) (sorted leb l) =
  filter (fun a => (key a =? k)%Z) l.
Proof.
  induction l as [|x l IH]; [reflexivity|].
  cbn [sorted]. rewrite insert_sorted_stable. cbn [filter]. now rewrite IH.
Qed.

End SortedByKey.

(* ================================================================== *)
(** * Order of the final outline *)
(* ================================================================== *)

Lemma ml_inference_outline (pages : Pages) (model : option Classifier)
  (payload : Out.payload) :
  ml_inference pages model = Ok payload ->
  exists final_output,
    Out.outline payload = sorted by_page final_output /\
    (final_output = [] \/
     exists predict pages' lines rows,
       model = Some predict /\
       engineer_features_layout pages = Ok (pages', lines) /\
       with_predictions lines (predict (map row_of lines)) = Ok rows /\
       final_output_of pages' rows = Ok final_output).
Proof.
  unfold ml_inference. destruct model as [predict|].
  - destruct (engineer_features_layout pages) as [[pages' lines]|e] eqn:E;
      simpl; [|discriminate].
    destruct lines as [|l0 lines].
    + intros H. inversion H. exists []. auto.
    + destruct (with_predictions _ _) as [rows|e] eqn:R; simpl; [|discriminate].
      destruct (final_output_of pages' rows) as [final_output|e] eqn:F;
        simpl; [|discriminate].
      intros H. inversion H. exists final_output. split; [reflexivity|].
      right. exists predict, pages', (l0 :: lines), rows. auto.
  - intros H. inversion H. exists []. auto.
Qed.

(** C3, as the code has it: a payload of the table-of-contents path lists
    the parsed entries in parse order, without sorting them; a payload of
    the classifier path is the list built from the headings, sorted by
    page: ascending, with the same entries, those of one page in the order
    in which that list had them. *)
Theorem outline_order (pages : Pages) (model : option Classifier)
  (payload : Out.payload) :
  snd (process_document_definitive pages model) = Ok payload ->
  (fst (process_document_definitive pages model) = [INFO_TOC] /\
   exists entries,
     find_and_parse_toc pages = Some entries /\
     Out.outline payload = map toc_outline_entry entries)
  \/
  (fst (process_document_definitive pages model) = [INFO_ML] /\
   page_sorted (Out.outline payload) /\
   exists final_output,
     Out.outline payload = sorted by_page final_output /\
     (final_output = [] \/
      exists predict pages' lines rows,
        model = Some predict /\
        engineer_features_layout pages = Ok (pages', lines) /\
        with_predictions lines (predict (map row_of lines)) = Ok rows /\
        final_output_of pages' rows = Ok final_output) /\
     Permutation final_output (Out.outline payload) /\
     forall p, filter (on_page p) (Out.outline payload)
               = filter (on_page p) final_output).
Proof.
  destruct (process_toc_cases pages model) as [(es & E & L & R)|[H R]];
    rewrite R; simpl; intros P.
  - left. split; [reflexivity|]. exists es. split; [exact E|].
    now inversion P.
  - right. split; [reflexivity|].
    destruct (ml_inference_outline pages model payload P) as (fo & O & W).
    split.
    + rewrite O. apply (sorted_ascending Out.page).
    + exists fo. rewrite O. repeat split; auto.
      * apply (sorted_perm Out.page).
      * intros p. apply (sorted_stable Out.page).
Qed.

Lemma outline_order_witness :
  exists payload,
    snd (process_document_definitive Samples.plain
           (Some (Samples.fixed [9 # 10; 1 # 10; 9 # 10]))) = Ok payload /\
    page_sorted (Out.outline payload).
Proof.
  eexists. split; [vm_compute; reflexivity|].
  match goal with
  | |- page_sorted (Out.outline ?p) =>
      destruct (outline_order Samples.plain
                  (Some (Samples.fixed [9 # 10; 1 # 10; 9 # 10])) p)
        as [[T _]|[_ [S _]]]
  end.
  - vm_compute. reflexivity.
  - vm_compute in T. discriminate T.
  - exact S.
Defined.

(** C3 as stated fails on the table-of-contents path: the five entries of
    the sample contents page come out on pages 1, 2, 8, 4, 9. *)
Lemma outline_sorted_counterexample :
  exists payload,
    process_document_definitive Samples.toc5 None = ([INFO_TOC], Ok payload) /\
    map Out.page (Out.outline payload) = [1; 2; 8; 4; 9]%Z /\
    ~ page_sorted (Out.outline payload).
Proof.
  eexists. split; [vm_compute; reflexivity|].
  split; [reflexivity|].
  unfold page_sorted. intros S.
  inversion S as [|? ? S1 _]; subst.
  inversion S1 as [|? ? S2 _]; subst.
  inversion S2 as [|? ? _ F]; subst.
  inversion F as [|? ? L _]; subst.
  simpl in L. lia.
Qed.

(* ================================================================== *)
(** * The stitcher *)
(* ================================================================== *)

Lemma set_text_same (h : Line) : set_text (text h) h = h.
Proof. now destruct h. Qed.

Lemma stitch_step_nothing_to_absorb (m : LinesMap) (acc : list Line) (h : Line) :
  next_absorbable m h = false ->
  stitch_step m (acc, []) h = (acc ++ [h], []).
Proof.
  unfold next_absorbable, stitch_step. cbn [existsb].
  destruct (index_where _ _) as [i|]; [|reflexivity].
  destruct (skipn (i + 1) _) as [|next_line more]; simpl.
  - intros _. now rewrite set_text_same.
  - intros ->. now rewrite set_text_same.
Qed.

Lemma stitch_loop_nothing_to_absorb (m : LinesMap) (hs acc : list Line) :
  (forall h, In h hs -> next_absorbable m h = false) ->
  fold_left (stitch_step m) hs (acc, []) = (acc ++ hs, []).
Proof.
  revert acc. induction hs as [|h hs IH]; intros acc H; cbn [fold_left].
  - now rewrite app_nil_r.
  - rewrite stitch_step_nothing_to_absorb by (apply H; now left).
    rewrite IH by (intros h' Hh'; apply H; now right).
    now rewrite <- app_assoc.
Qed.

(** C7: take the output of the stitcher for any heading list and any map,
    and run the stitcher on it again with a map in which no heading of that
    output is followed by a line it could absorb.  The second run returns
    the list unchanged, so every entry keeps its text. *)
Theorem stitch_again_keeps_text (headings : list Line)
  (all_lines_map remaining_map : LinesMap) :
  let stitched := stitch_multiline_headings headings all_lines_map in
  (forall h, In h stitched -> next_absorbable remaining_map h = false) ->
  stitch_multiline_headings stitched remaining_map = stitched /\
  map text (stitch_multiline_headings stitched remaining_map)
    = map text stitched.
Proof.
  intros stitched H.
  assert (E : stitch_multiline_headings stitched remaining_map = stitched).
  { unfold stitch_multiline_headings at 1.
    now rewrite stitch_loop_nothing_to_absorb. }
  split; [exact E | now rewrite E].
Qed.

Lemma stitch_again_keeps_text_witness :
  map text (stitch_multiline_headings StitchSample.headings
              StitchSample.full_map) = ["Intro Background"] /\
  map text (stitch_multiline_headings
              (stitch_multiline_headings StitchSample.headings
                 StitchSample.full_map)
              StitchSample.remaining_map)
  = map text (stitch_multiline_headings StitchSample.headings
                StitchSample.full_map).
Proof.
  split; [vm_compute; reflexivity|].
  apply (stitch_again_keeps_text StitchSample.headings
           StitchSample.full_map StitchSample.remaining_map).
  intros h H. vm_compute in H. destruct H as [<-|[]].
  vm_compute. reflexivity.
Defined.

(** With the map left as it was, the second run appends the neighbour a
    second time: the qualification of C7 is needed. *)
Remark stitch_again_same_map :
  map text (stitch_multiline_headings
              (stitch_multiline_headings StitchSample.headings
                 StitchSample.full_map)
              StitchSample.full_map) = ["Intro Background Background"].
Proof. vm_compute. reflexivity. Qed.

Lemma mapM_Forall2 {A B : Type} (f : A -> result B) (l : list A) (l' : list B) :
  mapM f l = Ok l' -> Forall2 (fun x y => f x = Ok y) l l'.
Proof.
  revert l'. induction l as [|x l IH]; intros l'; simpl.
  - intros H. inversion H. constructor.
  - destruct (f x) as [y|e] eqn:F; simpl; [|discriminate].
    destruct (mapM f l) as [ys|e]; simpl; [|discriminate].
    intros H. inversion H. constructor; auto.
Qed.

Lemma Forall2_concat_lists {A B : Type} (R : A -> B -> Prop)
  (xs : list (list A)) (ys : list (list B)) :
  Forall2 (Forall2 R) xs ys -> Forall2 R (List.concat xs) (List.concat ys).
Proof.
  induction 1; simpl; [constructor | now apply Forall2_app].
Qed.

Lemma engineer_features_layout_lines (pages pages' : Pages)
  (lines' : list Line) :
  engineer_features_layout pages = Ok (pages', lines') ->
  lines' = List.concat pages' /\
  Forall2 (fun line line' =>
             annotate pages (font_map_of (List.concat pages)) line = Ok line')
          (List.concat pages) lines'.
Proof.
  unfold engineer_features_layout.
  destruct (List.concat pages) as [|l0 ls] eqn:C.
  - intros H. inversion H; subst. rewrite C. split; [reflexivity|constructor].
  - destruct (mapM _ pages) as [ps|e] eqn:M; simpl; [|discriminate].
    intros H. inversion H; subst. split; [reflexivity|].
    apply mapM_Forall2 in M. rewrite <- C in M |- *.
    apply Forall2_concat_lists.
    eapply Forall2_impl; [|exact M].
    intros p p' Hp. now apply mapM_Forall2.
Qed.

Lemma annotate_fields (pages : Pages) (fm : list (string * Z))
  (line line' : Line) :
  annotate pages fm line = Ok line' ->
  text line' = text line /\ size line' = size line /\
  bold line' = bold line /\ page_num line' = page_num line /\
  bbox line' = bbox line /\
  is_heading_prediction line' = is_heading_prediction line.
Proof.
  unfold annotate.
  destruct (page_width_of pages line) as [w|e]; simpl; [|discriminate].
  destruct (centered_flag (bbox line) w) as [c|e]; simpl; [|discriminate].
  intros H. inversion H. simpl. auto 10.
Qed.

(** On the way from the parser to the stitcher no line of the page map
    receives the [is_heading_prediction] key: the prediction column lives in
    the rows of the frame only. *)
Lemma pipeline_neighbours_unlabelled (pages pages' : Pages)
  (lines' : list Line) :
  (forall l, In l (List.concat pages) -> is_heading_prediction l = None) ->
  engineer_features_layout pages = Ok (pages', lines') ->
  forall l', In l' (List.concat pages') ->
    is_potential_heading l' = false.
Proof.
  intros Raw E. apply engineer_features_layout_lines in E as [EQ F].
  intros l' H. rewrite <- EQ in H. clear EQ.
  unfold is_potential_heading.
  enough (is_heading_prediction l' = None) as -> by reflexivity.
  remember (List.concat pages) as all_lines eqn:C.
  generalize dependent (font_map_of all_lines). intros fm F. clear C.
  induction F as [|l k ls ks A _ IH]; [destruct H|].
  destruct H as [<-|H].
  - apply annotate_fields in A as (_ & _ & _ & _ & _ & ->).
    apply Raw. now left.
  - apply IH; [|exact H]. intros x Hx. apply Raw. now right.
Qed.

Lemma dict_set_values {K V : Type} (eqb : K -> K -> bool)
  (d : list (K * V)) (k : K) (v0 v : V) :
  In v (map snd (dict_set eqb d k v0)) -> v = v0 \/ In v (map snd d).
Proof.
  induction d as [|[k' v'] d IH]; simpl.
  - intros [<-|[]]. now left.
  - destruct (eqb k k'); simpl.
    + intros [<-|H]; auto.
    + intros [<-|H]; auto. destruct (IH H); auto.
Qed.

Lemma page_dict_values (lines : list Line) (d0 : list (BBox * Line))
  (l : Line) :
  In l (map snd (fold_left
                   (fun d line => dict_set bbox_eqb d (bbox line) line)
                   lines d0)) ->
  In l lines \/ In l (map snd d0).
Proof.
  revert d0. induction lines as [|x lines IH]; intros d0; simpl; [auto|].
  intros H. destruct (IH _ H) as [H'|H']; [auto|].
  apply dict_set_values in H' as [->|H']; auto.
Qed.

Lemma sorted_page_lines_In (pages' : Pages) (p : nat) (l : Line) :
  In l (sorted_page_lines (lines_map_of pages') p) ->
  In l (List.concat pages').
Proof.
  unfold sorted_page_lines, lines_map_of. intros H.
  apply sorted_In in H.
  destruct (nth_in_or_default p
              (map (fun lines =>
                      fold_left
                        (fun d line => dict_set bbox_eqb d (bbox line) line)
                        lines []) pages') []) as [I|D].
  - apply in_map_iff in I as (lines & E & I).
    rewrite <- E in H. apply page_dict_values in H as [H|[]].
    apply in_concat. eauto.
  - rewrite D in H. destruct H.
Qed.

(** So the test of the stitcher never sees its fourth condition fail: on
    the lines the pipeline hands to it, the first three decide. *)
Lemma pipeline_absorbs_on_three_conditions (pages pages' : Pages)
  (lines' : list Line) :
  (forall l, In l (List.concat pages) -> is_heading_prediction l = None) ->
  engineer_features_layout pages = Ok (pages', lines') ->
  forall (h : Line) (p : nat) (next_line : Line),
    In next_line (sorted_page_lines (lines_map_of pages') p) ->
    absorbable h next_line =
      (List.length (split (text next_line)) <? 7) &&
      negb (bold next_line) &&
      (Z.abs (size next_line - size h) <=? 1)%Z.
Proof.
  intros Raw E h p next_line H.
  apply sorted_page_lines_In in H.
  unfold absorbable.
  rewrite (pipeline_neighbours_unlabelled pages pages' lines' Raw E _ H).
  now rewrite andb_true_r.
Qed.

(** C2, at the input where the code departs from it: both "Intro" and
    "Background" are predicted headings, yet the second is absorbed into
    the first and the outline has one entry. *)
Theorem stitcher_absorbs_predicted_heading :
  let predict := Samples.fixed [9 # 10; 9 # 10; 1 # 10] in
  (exists pages' lines rows,
      engineer_features_layout Samples.plain = Ok (pages', lines) /\
      with_predictions lines (predict (map row_of lines)) = Ok rows /\
      map (fun r => (text r, is_heading_prediction r)) rows =
        [("Intro", Some 1%Z); ("Background", Some 1%Z);
         ("This is a long body line with many many words in it", Some 0%Z)] /\
      map (fun l => (text l, is_heading_prediction l)) (List.concat pages') =
        [("Intro", None); ("Background", None);
         ("This is a long body line with many many words in it", None)]) /\
  option_map (fun p => Out.outline p)
    (match snd (process_document_definitive Samples.plain (Some predict)) with
     | Ok p => Some p
     | Raise _ => None
     end) = Some [Out.mk "H1" "Intro Background" 0%Z].
Proof.
  split.
  - do 3 eexists. split; [vm_compute; reflexivity|].
    split; [vm_compute; reflexivity|].
    split; vm_compute; reflexivity.
  - vm_compute. reflexivity.
Qed.

(** The test of the stitcher does read the key: given a map whose lines
    carry it, the second heading is left alone.  The pipeline never builds
    such a map. *)
Remark stitcher_reads_prediction_key :
  map text (stitch_multiline_headings StitchSample.two_headings
              StitchSample.labelled_map) = ["Intro"; "Background"] /\
  map text (stitch_multiline_headings StitchSample.two_headings
              StitchSample.full_map) = ["Intro Background"].
Proof. split; vm_compute; reflexivity. Qed.

(* ================================================================== *)
(** * The text of a table-of-contents entry *)
(* ================================================================== *)

Lemma parse_toc_line_fields (toc_line : Line) (e : TocRaw.entry) :
  parse_toc_line toc_line = Some e ->
  exists m,
    re_match TOC_LINE (text toc_line) = Some m /\
    TocRaw.text e =
      re_sub_empty NUM_PREFIX (strip (group (text toc_line) m 1)) /\
    TocRaw.page e = (int_of_digits (group (text toc_line) m 2) - 1)%Z /\
    TocRaw.indent e = b0 (bbox toc_line).
Proof.
  unfold parse_toc_line.
  destruct (re_match TOC_LINE (text toc_line)) as [m|]; [|discriminate].
  intros H. inversion H. exists m. auto.
Qed.

(** C6, at the input where the code departs from it: of the prefix "1.2 "
    only "1." is removed, and the entry text is "2 Introduction".  The page
    and the indentation are as claimed, and a one-level prefix is removed
    whole. *)
Theorem toc_entry_keeps_part_of_prefix :
  parse_toc_line (Samples.line0 "1.2 Introduction .... 5" 90 40) =
    Some (TocRaw.mk "2 Introduction" 4 (inject_Z 90)) /\
  parse_toc_line (Samples.line0 "3. Results .... 7" 72 60) =
    Some (TocRaw.mk "Results" 6 (inject_Z 72)).
Proof. split; vm_compute; reflexivity. Qed.

(* ================================================================== *)
(** * The centring flag *)
(* ================================================================== *)

Lemma Qlt_bool_iff (a b : Q) : Qlt_bool a b = true <-> (a < b)%Q.
Proof.
  unfold Qlt_bool. rewrite negb_true_iff. split.
  - intros H. apply Qnot_le_lt. intros L.
    apply Qle_bool_iff in L. congruence.
  - intros H. destruct (Qle_bool b a) eqn:L; [|reflexivity].
    apply Qle_bool_iff in L. exfalso. now apply (Qlt_not_le _ _ H).
Qed.

Lemma round_half_even_spec (x : Q) :
  (inject_Z (round_half_even x) - (1 # 2) <= x)%Q /\
  (x <= inject_Z (round_half_even x) + (1 # 2))%Q /\
  ((x == inject_Z (round_half_even x) + (1 # 2))%Q \/
   (x == inject_Z (round_half_even x) - (1 # 2))%Q ->
   Z.even (round_half_even x) = true).
Proof.
  unfold round_half_even.
  pose proof (Qfloor_le x) as F1. pose proof (Qlt_floor x) as F2.
  rewrite inject_Z_plus in F2. change (inject_Z 1) with 1%Q in F2.
  set (f := Qfloor x) in *.
  destruct (Qlt_bool (x - inject_Z f) (1 # 2)) eqn:A.
  - apply Qlt_bool_iff in A. split; [lra|]. split; [lra|].
    intros [E|E]; lra.
  - assert (A' : ((1 # 2) <= x - inject_Z f)%Q).
    { apply Qnot_lt_le. intros L. apply Qlt_bool_iff in L. congruence. }
    destruct (Qlt_bool (1 # 2) (x - inject_Z f)) eqn:B.
    + apply Qlt_bool_iff in B. rewrite inject_Z_plus.
      change (inject_Z 1) with 1%Q.
      split; [lra|]. split; [lra|]. intros [E|E]; lra.
    + assert (B' : (x - inject_Z f <= (1 # 2))%Q).
      { apply Qnot_lt_le. intros L. apply Qlt_bool_iff in L. congruence. }
      destruct (Z.even f) eqn:Ev.
      * split; [lra|]. split; [lra|]. intros _. exact Ev.
      * rewrite inject_Z_plus. change (inject_Z 1) with 1%Q.
        split; [lra|]. split; [lra|]. intros _.
        rewrite Z.even_add, Ev. reflexivity.
Qed.

(** Integers as rationals: a strict inequality leaves room for 1. *)
Lemma inject_Z_succ_le (a b : Z) :
  (a < b)%Z -> (inject_Z a + 1 <= inject_Z b)%Q.
Proof.
  intros H. change 1%Q with (inject_Z 1). rewrite <- inject_Z_plus.
  rewrite <- Zle_Qle. lia.
Qed.

Lemma round_half_even_le (x : Q) (k : Z) :
  (x <= inject_Z k)%Q -> (round_half_even x <= k)%Z.
Proof.
  intros H. destruct (round_half_even_spec x) as (L & _ & _).
  destruct (Z_le_gt_dec (round_half_even x) k) as [|G]; [assumption|].
  apply Z.gt_lt, inject_Z_succ_le in G. lra.
Qed.

Lemma round_half_even_ge (x : Q) (k : Z) :
  (inject_Z k <= x)%Q -> (k <= round_half_even x)%Z.
Proof.
  intros H. destruct (round_half_even_spec x) as (_ & U & _).
  destruct (Z_le_gt_dec k (round_half_even x)) as [|G]; [assumption|].
  apply Z.gt_lt, inject_Z_succ_le in G. lra.
Qed.

(** Above an even integer [k]: the tie at [k + 1/2] goes down to [k]. *)
Lemma round_half_even_above (x : Q) (k : Z) :
  Z.even k = true ->
  (k < round_half_even x)%Z <-> (inject_Z k + (1 # 2) < x)%Q.
Proof.
  intros Ev. destruct (round_half_even_spec x) as (L & U & T). split.
  - intros G. pose proof (inject_Z_succ_le _ _ G) as G'.
    destruct (Qlt_le_dec (inject_Z k + (1 # 2)) x) as [|B]; [assumption|].
    assert (E : (inject_Z (round_half_even x) == inject_Z k + 1)%Q) by lra.
    assert (E' : round_half_even x = (k + 1)%Z).
    { apply inject_Z_injective. rewrite inject_Z_plus. exact E. }
    assert (O : Z.even (round_half_even x) = true) by (apply T; right; lra).
    rewrite E', Z.even_add, Ev in O. discriminate.
  - intros G. destruct (Z_lt_le_dec k (round_half_even x)) as [|B];
      [assumption|].
    rewrite Zle_Qle in B. lra.
Qed.

(** Up to an even integer [k]: the tie at [k + 1/2] goes down to [k]. *)
Lemma round_half_even_upto (x : Q) (k : Z) :
  Z.even k = true ->
  (round_half_even x <= k)%Z <-> (x <= inject_Z k + (1 # 2))%Q.
Proof.
  intros Ev. pose proof (round_half_even_above x k Ev) as A. split.
  - intros H. apply Qnot_lt_le. intros G. apply A in G. lia.
  - intros H. destruct (Z_le_gt_dec (round_half_even x) k) as [|G];
      [assumption|].
    apply Z.gt_lt, A in G. lra.
Qed.

Module Float64Facts.
Import Float64.

Lemma pow2_pos (e : Z) : (0 < 2 ^ e)%Q.
Proof. now apply Qpower_0_lt. Qed.

Lemma pow2_add (a b : Z) : (2 ^ (a + b) == 2 ^ a * 2 ^ b)%Q.
Proof. apply Qpower_plus. discriminate. Qed.

Lemma pow2_inject (k : Z) : (0 <= k)%Z -> (2 ^ k == inject_Z (2 ^ k))%Q.
Proof. intros H. now rewrite Zpower_Qpower. Qed.

Lemma pow2_lt_inv (a b : Z) : (2 ^ a < 2 ^ b)%Q -> (a < b)%Z.
Proof. intros H. now apply (Qpower_lt_compat_l_inv 2). Qed.

Lemma pow2_le (a b : Z) : (a <= b)%Z -> (2 ^ a <= 2 ^ b)%Q.
Proof. intros H. apply Qpower_le_compat_l; [assumption | discriminate]. Qed.

(** [q / 2^u] against [2^(k-u)]. *)
Lemma scaled_le (q : Q) (k u : Z) :
  (q <= 2 ^ k)%Q -> (q / 2 ^ u <= 2 ^ (k - u))%Q.
Proof.
  intros H. pose proof (pow2_pos u) as P.
  apply Qle_shift_div_r; [assumption|].
  rewrite <- pow2_add. now replace (k - u + u)%Z with k by ring.
Qed.

Lemma scaled_ge (q : Q) (k u : Z) :
  (2 ^ k <= q)%Q -> (2 ^ (k - u) <= q / 2 ^ u)%Q.
Proof.
  intros H. pose proof (pow2_pos u) as P.
  apply Qle_shift_div_l; [assumption|].
  rewrite <- pow2_add. now replace (k - u + u)%Z with k by ring.
Qed.

(** Rounding to a multiple of [2^u] does not cross a power of two that is
    such a multiple. *)
Lemma rounded_le (q : Q) (k u : Z) :
  (u <= k)%Z -> (q <= 2 ^ k)%Q ->
  (inject_Z (round_half_even (q / 2 ^ u)) * 2 ^ u <= 2 ^ k)%Q.
Proof.
  intros U H. pose proof (pow2_pos u) as P.
  apply (scaled_le _ _ u) in H. rewrite (pow2_inject (k - u)) in H by lia.
  apply round_half_even_le in H. rewrite Zle_Qle in H.
  rewrite <- (pow2_inject (k - u)) in H by lia.
  assert (E : (2 ^ k == 2 ^ (k - u) * 2 ^ u)%Q).
  { rewrite <- pow2_add. now replace (k - u + u)%Z with k by ring. }
  rewrite E. apply Qmult_le_compat_r; [assumption | lra].
Qed.

Lemma rounded_ge (q : Q) (k u : Z) :
  (u <= k)%Z -> (2 ^ k <= q)%Q ->
  (2 ^ k <= inject_Z (round_half_even (q / 2 ^ u)) * 2 ^ u)%Q.
Proof.
  intros U H. pose proof (pow2_pos u) as P.
  apply (scaled_ge _ _ u) in H. rewrite (pow2_inject (k - u)) in H by lia.
  apply round_half_even_ge in H. rewrite Zle_Qle in H.
  rewrite <- (pow2_inject (k - u)) in H by lia.
  assert (E : (2 ^ k == 2 ^ (k - u) * 2 ^ u)%Q).
  { rewrite <- pow2_add. now replace (k - u + u)%Z with k by ring. }
  rewrite E. apply Qmult_le_compat_r; [assumption | lra].
Qed.

Lemma rounded_nonpos (q : Q) (u : Z) :
  (q <= 0)%Q -> (inject_Z (round_half_even (q / 2 ^ u)) * 2 ^ u <= 0)%Q.
Proof.
  intros H. pose proof (pow2_pos u) as P.
  assert (S : (q / 2 ^ u <= inject_Z 0)%Q).
  { apply Qle_shift_div_r; [assumption|]. change (inject_Z 0) with 0%Q. lra. }
  apply round_half_even_le in S. rewrite Zle_Qle in S.
  change (inject_Z 0) with 0%Q in S. nra.
Qed.


Lemma ilog2_spec (q : Q) :
  (0 < q)%Q -> (2 ^ ilog2 q <= q)%Q /\ (q < 2 ^ (ilog2 q + 1))%Q.
Proof.
  destruct q as [n d]. intros Pq.
  assert (Pn : (0 < n)%Z).
  { unfold Qlt in Pq. cbn in Pq. lia. }
  unfold ilog2. cbn [Qnum Qden]. rewrite (Z.abs_eq n) by lia.
  assert (Ab : (Qabs (n # d) == n # d)%Q) by (apply Qabs_pos; lra).
  set (a := Z.log2 n). set (b := Z.log2 (Zpos d)).
  destruct (Z.log2_spec n Pn) as [A1 A2]. fold a in A1, A2.
  destruct (Z.log2_spec (Zpos d) (Pos2Z.is_pos d)) as [B1 B2].
  fold b in B1, B2.
  assert (Na : (0 <= a)%Z) by apply Z.log2_nonneg.
  assert (Nb : (0 <= b)%Z) by apply Z.log2_nonneg.
  rewrite Zle_Qle in A1, B1. rewrite Zlt_Qlt in A2, B2.
  rewrite <- (pow2_inject a) in A1 by lia.
  rewrite <- (pow2_inject b) in B1 by lia.
  rewrite <- (pow2_inject (Z.succ a)) in A2 by lia.
  rewrite <- (pow2_inject (Z.succ b)) in B2 by lia.
  unfold Z.succ in A2, B2. rewrite pow2_add in A2, B2.
  change (2 ^ 1)%Q with 2%Q in A2, B2.
  pose proof (pow2_pos a) as PA. pose proof (pow2_pos b) as PB.
  pose proof (pow2_pos (a - b)) as PE.
  pose proof (pow2_pos (a - b - 1)) as PF.
  assert (EB : (2 ^ (a - b) * 2 ^ b == 2 ^ a)%Q).
  { rewrite <- pow2_add. now replace (a - b + b)%Z with a by ring. }
  assert (FE : (2 ^ (a - b - 1) * 2 == 2 ^ (a - b))%Q).
  { change 2%Q with (2 ^ 1)%Q at 2. rewrite <- pow2_add.
    now replace (a - b - 1 + 1)%Z with (a - b)%Z by ring. }
  assert (E2 : (2 ^ (a - b + 1) == 2 ^ (a - b) * 2)%Q).
  { rewrite pow2_add. reflexivity. }
  assert (PD : (0 < inject_Z (Zpos d))%Q) by (rewrite <- (Zlt_Qlt 0); lia).
  assert (QD : (n # d == inject_Z n / inject_Z (Zpos d))%Q)
    by apply Qmake_Qdiv.
  set (N := inject_Z n) in *. set (D := inject_Z (Zpos d)) in *.
  set (A := (2 ^ a)%Q) in *. set (B := (2 ^ b)%Q) in *.
  set (E := (2 ^ (a - b))%Q) in *. set (F := (2 ^ (a - b - 1))%Q) in *.
  assert (Up : (n # d < E * 2)%Q).
  { rewrite QD. apply Qlt_shift_div_r; [assumption|]. nra. }
  assert (Lo : (F <= n # d)%Q).
  { rewrite QD. apply Qle_shift_div_l; [assumption|]. nra. }
  destruct (Qle_bool E (Qabs (n # d))) eqn:T.
  - apply Qle_bool_iff in T. rewrite Ab in T.
    split; [exact T|]. fold E. rewrite E2. exact Up.
  - assert (T' : (n # d < E)%Q).
    { apply Qnot_le_lt. intros L. rewrite <- Ab in L.
      apply Qle_bool_iff in L. congruence. }
    split; [exact Lo|].
    now replace (a - b - 1 + 1)%Z with (a - b)%Z by ring.
Qed.

(** The exponent of a number between two powers of two. *)
Lemma ilog2_between (q : Q) (lo hi : Z) :
  (2 ^ lo <= q)%Q -> (q < 2 ^ hi)%Q -> (lo <= ilog2 q < hi)%Z.
Proof.
  intros L H. pose proof (pow2_pos lo) as P.
  destruct (ilog2_spec q) as [S1 S2]; [lra|]. split.
  - assert (X : (2 ^ lo < 2 ^ (ilog2 q + 1))%Q) by lra.
    apply pow2_lt_inv in X. lia.
  - assert (X : (2 ^ ilog2 q < 2 ^ hi)%Q) by lra.
    now apply pow2_lt_inv in X.
Qed.


Lemma round_value (q r : Q) :
  round q = Some r ->
  r = (inject_Z (round_half_even (q / 2 ^ quantum q)) * 2 ^ quantum q)%Q.
Proof.
  unfold round. cbv zeta.
  destruct (Qle_bool _ _); [discriminate|]. now intros [= <-].
Qed.

Lemma round_finite (q : Q) :
  let r := (inject_Z (round_half_even (q / 2 ^ quantum q)) * 2 ^ quantum q)%Q
  in (0 <= r)%Q -> (r <= 1)%Q -> round q = Some r.
Proof.
  cbv zeta. intros P H. unfold round. cbv zeta.
  destruct (Qle_bool _ _) eqn:O; [|reflexivity].
  apply Qle_bool_iff in O. rewrite Qabs_pos in O by assumption.
  assert (X : (2 ^ 0 < 2 ^ 1024)%Q)
    by (apply Qpower_lt_compat_l; [lia | reflexivity]).
  change (2 ^ 0)%Q with 1%Q in X. lra.
Qed.

Lemma quantum_low (q : Q) :
  (2 ^ (-2) <= q)%Q -> (q < 2 ^ (-1))%Q -> quantum q = (-54)%Z.
Proof.
  intros L H. unfold quantum.
  pose proof (ilog2_between q (-2) (-1) L H). lia.
Qed.

Lemma quantum_high (q : Q) :
  (2 ^ (-1) <= q)%Q -> (q < 2 ^ 0)%Q -> quantum q = (-53)%Z.
Proof.
  intros L H. unfold quantum.
  pose proof (ilog2_between q (-1) 0 L H). lia.
Qed.

(** The chained comparison of line 83 on the rounded quotient, in terms of
    the quotient before rounding. *)
Lemma round_in_window (q : Q) :
  (exists r, round q = Some r /\ (literal_0_4 < r)%Q /\ (r < literal_0_6)%Q)
  <-> (window_lo < q)%Q /\ (q <= window_hi)%Q.
Proof.
  unfold literal_0_4, literal_0_6, window_lo, window_hi.
  destruct (Qlt_le_dec q (2 ^ (-2))) as [Small|L2].
  { (* below 1/4 the rounded value is at most 1/4 *)
    split.
    - intros (r & R & G & _). apply round_value in R.
      assert (B : (r <= 2 ^ (-2))%Q).
      { rewrite R. destruct (Qlt_le_dec 0 q) as [Pq|Nq].
        - apply rounded_le; [|lra]. unfold quantum.
          assert (X : (2 ^ ilog2 q < 2 ^ (-2))%Q)
            by (destruct (ilog2_spec q Pq); lra).
          apply pow2_lt_inv in X. lia.
        - pose proof (rounded_nonpos q (quantum q) Nq) as X.
          pose proof (pow2_pos (-2)). lra. }
      change (2 ^ (-2))%Q with (1 # 4)%Q in B. lra.
    - change (2 ^ (-2))%Q with (1 # 4)%Q in Small. lra. }
  destruct (Qlt_le_dec q (2 ^ (-1))) as [H1|L1].
  { (* between 1/4 and 1/2: multiples of 2^-54 *)
    pose proof (quantum_low q L2 H1) as U.
    pose proof (rounded_le q (-1) (-54) ltac:(lia) ltac:(lra)) as Le.
    pose proof (rounded_ge q (-2) (-54) ltac:(lia) L2) as Ge.
    pose proof (round_half_even_above (q / 2 ^ (-54)) 7205759403792794
                  eq_refl) as Ab.
    assert (V : forall r, round q = Some r ->
                  r = (inject_Z (round_half_even (q / 2 ^ (-54)))
                       * 2 ^ (-54))%Q).
    { intros r R. apply round_value in R. now rewrite U in R. }
    pose proof (round_finite q) as Fin. cbv zeta in Fin. rewrite U in Fin.
    set (z := round_half_even (q / 2 ^ (-54))) in *.
    change (2 ^ (-54))%Q with (1 # 18014398509481984)%Q in *.
    change (2 ^ (-2))%Q with (1 # 4)%Q in *.
    change (2 ^ (-1))%Q with (1 # 2)%Q in *.
    change (inject_Z 7205759403792794) with (7205759403792794 # 1)%Q in Ab.
    assert (Sc : (q / (1 # 18014398509481984)
                  == q * (18014398509481984 # 1))%Q) by field.
    split.
    - intros (r & R & G & _). apply V in R. subst r.
      assert (Zq : (7205759403792794 < z)%Z).
      { rewrite Zlt_Qlt.
        change (inject_Z 7205759403792794) with (7205759403792794 # 1)%Q.
        lra. }
      apply Ab in Zq. rewrite Sc in Zq. split; lra.
    - intros [G _].
      assert (Zq : (7205759403792794 < z)%Z) by (apply Ab; rewrite Sc; lra).
      rewrite Zlt_Qlt in Zq.
      change (inject_Z 7205759403792794) with (7205759403792794 # 1)%Q in Zq.
      eexists. split; [apply Fin; lra|]. split; lra. }
  destruct (Qlt_le_dec q (2 ^ 0)) as [H0|L0].
  { (* between 1/2 and 1: multiples of 2^-53 *)
    pose proof (quantum_high q L1 H0) as U.
    pose proof (rounded_le q 0 (-53) ltac:(lia) ltac:(lra)) as Le.
    pose proof (rounded_ge q (-1) (-53) ltac:(lia) L1) as Ge.
    pose proof (round_half_even_upto (q / 2 ^ (-53)) 5404319552844594
                  eq_refl) as Up.
    assert (V : forall r, round q = Some r ->
                  r = (inject_Z (round_half_even (q / 2 ^ (-53)))
                       * 2 ^ (-53))%Q).
    { intros r R. apply round_value in R. now rewrite U in R. }
    pose proof (round_finite q) as Fin. cbv zeta in Fin. rewrite U in Fin.
    set (z := round_half_even (q / 2 ^ (-53))) in *.
    change (2 ^ (-53))%Q with (1 # 9007199254740992)%Q in *.
    change (2 ^ (-1))%Q with (1 # 2)%Q in *.
    change (2 ^ 0)%Q with 1%Q in *.
    change (inject_Z 5404319552844594) with (5404319552844594 # 1)%Q in Up.
    assert (Sc : (q / (1 # 9007199254740992)
                  == q * (9007199254740992 # 1))%Q) by field.
    split.
    - intros (r & R & _ & G). apply V in R. subst r.
      assert (Zq : (z <= 5404319552844594)%Z).
      { apply Z.lt_succ_r. rewrite Zlt_Qlt.
        change (inject_Z (Z.succ 5404319552844594))
          with (5404319552844595 # 1)%Q.
        lra. }
      apply Up in Zq. rewrite Sc in Zq. split; lra.
    - intros [_ G].
      assert (Zq : (z <= 5404319552844594)%Z) by (apply Up; rewrite Sc; lra).
      rewrite Zle_Qle in Zq.
      change (inject_Z 5404319552844594) with (5404319552844594 # 1)%Q in Zq.
      eexists. split; [apply Fin; lra|]. split; lra. }
  (* from 1 on the rounded value is at least 1 *)
  split.
  - intros (r & R & _ & G). apply round_value in R.
    assert (Pq : (0 < q)%Q) by (pose proof (pow2_pos 0); lra).
    destruct (ilog2_spec q Pq) as [S1 S2].
    assert (X : (2 ^ 0 < 2 ^ (ilog2 q + 1))%Q) by lra.
    apply pow2_lt_inv in X.
    assert (B : (2 ^ 0 <= r)%Q).
    { apply Qle_trans with (2 ^ ilog2 q)%Q; [apply pow2_le; lia|].
      rewrite R. apply rounded_ge; [unfold quantum; lia | exact S1]. }
    change (2 ^ 0)%Q with 1%Q in B. lra.
  - change (2 ^ 0)%Q with 1%Q in L0. lra.
Qed.


Lemma ilog2_abs (q : Q) : ilog2 (Qabs q) = ilog2 q.
Proof.
  destruct q as [n d]. unfold ilog2. cbn [Qabs Qnum Qden].
  now rewrite Z.abs_idemp.
Qed.

Lemma round_half_even_int (x : Q) (n : Z) :
  (x == inject_Z n)%Q -> round_half_even x = n.
Proof.
  intros E. apply Z.le_antisymm.
  - apply round_half_even_le. lra.
  - apply round_half_even_ge. lra.
Qed.

(** A number with a significand below 2^53 and an exponent in range is
    its own rounding. *)
Lemma round_exact (q : Q) (m k : Z) :
  (q == inject_Z m * 2 ^ k)%Q ->
  (Z.abs m < 2 ^ 53)%Z -> (-1074 <= k <= 971)%Z ->
  exists r, round q = Some r /\ (r == q)%Q.
Proof.
  intros E M K. pose proof (pow2_pos k) as Pk.
  set (u := quantum q).
  pose proof (pow2_pos u) as Pu.
  assert (Ab : (Qabs q == inject_Z (Z.abs m) * 2 ^ k)%Q).
  { rewrite E, Qabs_Qmult, (Qabs_pos (2 ^ k)) by lra.
    apply Qmult_comp; [|reflexivity].
    destruct m as [|p|p]; reflexivity. }
  assert (Bd : (Qabs q < 2 ^ (53 + k))%Q).
  { rewrite Ab, pow2_add, (pow2_inject 53) by lia.
    apply Qmult_lt_compat_r; [assumption|]. now rewrite <- Zlt_Qlt. }
  assert (V : (inject_Z (round_half_even (q / 2 ^ u)) * 2 ^ u == q)%Q).
  { destruct (Z.eq_dec m 0) as [->|Nz].
    - assert (Z0 : (q == 0)%Q) by (rewrite E; change (inject_Z 0) with 0%Q; lra).
      rewrite (round_half_even_int _ 0).
      + rewrite Z0. change (inject_Z 0) with 0%Q. lra.
      + rewrite Z0. change (inject_Z 0) with 0%Q. field. lra.
    - assert (Pa : (0 < Qabs q)%Q).
      { rewrite Ab. apply Qmult_lt_0_compat; [|assumption].
        rewrite <- (Zlt_Qlt 0). lia. }
      destruct (ilog2_spec _ Pa) as [S1 _]. rewrite ilog2_abs in S1.
      assert (X : (2 ^ ilog2 q < 2 ^ (53 + k))%Q) by lra.
      apply pow2_lt_inv in X.
      assert (U : (u <= k)%Z) by (unfold u, quantum; lia).
      assert (Sc : (q / 2 ^ u == inject_Z (m * 2 ^ (k - u)))%Q).
      { rewrite inject_Z_mult, <- (pow2_inject (k - u)) by lia.
        rewrite E. replace k with (k - u + u)%Z at 1 by ring.
        rewrite pow2_add. field. lra. }
      rewrite (round_half_even_int _ _ Sc), <- Sc. field. lra. }
  exists (inject_Z (round_half_even (q / 2 ^ u)) * 2 ^ u)%Q.
  split; [|exact V]. unfold round. cbv zeta. fold u.
  destruct (Qle_bool _ _) eqn:O; [|reflexivity].
  apply Qle_bool_iff in O. rewrite V in O.
  pose proof (pow2_le (53 + k) 1024 ltac:(lia)). lra.
Qed.

End Float64Facts.

Lemma centered_flag_spec (bx : BBox) (w : Q) (c : Z) :
  centered_flag bx w = Ok c ->
  ~ (w == 0)%Q /\
  (c = 1 \/ c = 0)%Z /\
  (c = 1%Z <->
   exists m, midpoint64 bx = Some m /\
             (Float64.window_lo < m / w)%Q /\ (m / w <= Float64.window_hi)%Q).
Proof.
  unfold centered_flag.
  destruct (Qeq_bool w 0) eqn:W; [discriminate|].
  intros H. inversion H as [C]. clear H. split.
  - intros E. apply Qeq_bool_iff in E. congruence.
  - destruct (midpoint64 bx) as [m|]; cbn [Float64.div].
    + pose proof (Float64Facts.round_in_window (m / w)) as Win.
      destruct (Float64.round (m / w)) as [r|].
      * destruct (Qlt_bool Float64.literal_0_4 r
                  && Qlt_bool r Float64.literal_0_6) eqn:T.
        -- split; [now left|]. split; [intros _|reflexivity].
           exists m. split; [reflexivity|]. apply Win. exists r.
           apply andb_true_iff in T as [T1 T2].
           apply Qlt_bool_iff in T1, T2. auto.
        -- split; [now right|]. split; [discriminate|].
           intros (m' & [= <-] & In1 & In2).
           destruct Win as [_ Win].
           destruct (Win (conj In1 In2)) as (r' & [= <-] & T1 & T2).
           apply Qlt_bool_iff in T1, T2. rewrite T1, T2 in T. discriminate.
      * split; [now right|]. split; [discriminate|].
        intros (m' & [= <-] & In1 & In2).
        destruct Win as [_ Win].
        destruct (Win (conj In1 In2)) as (r' & R & _). discriminate.
    + split; [now right|]. split; [discriminate|].
      intros (m' & R & _). discriminate.
Qed.

(** C10, as the code has it: every line comes back with the feature keys
    written; its page is the one its [page_num] names, the width is the
    right edge of the first line of that page (1 for a page without lines,
    which cannot be the page of a line) and is not zero.  The flag is 1
    exactly when the quotient computed in binary64 is strictly between the
    doubles 0.4 and 0.6, that is, when the midpoint as computed, divided
    exactly by the width, is above 0.4 + 9/(5*2^55) and at most
    0.6 - 7/(5*2^54); otherwise it is 0.  A quotient on either bound, or
    within less than that of it, gives 0. *)
Theorem centered_strictly_inside (pages pages' : Pages) (lines' : list Line) :
  engineer_features_layout pages = Ok (pages', lines') ->
  Forall2 (centring_rule pages) (List.concat pages) lines'.
Proof.
  intros E. apply engineer_features_layout_lines in E as [_ F].
  eapply Forall2_impl; [|exact F].
  intros line line' A. unfold centring_rule, annotate in *.
  destruct (page_width_of pages line) as [w|e] eqn:W; simpl in A;
    [|discriminate].
  destruct (centered_flag (bbox line) w) as [c|e] eqn:C; simpl in A;
    [|discriminate].
  inversion A. simpl.
  unfold page_width_of in W.
  destruct (nth_error pages (page_num line)) as [page|] eqn:P; [|discriminate].
  eexists _, page, w. split; [reflexivity|]. split; [reflexivity|].
  split.
  - destruct page; inversion W; reflexivity.
  - simpl. now apply centered_flag_spec.
Qed.

Lemma centered_strictly_inside_witness :
  exists pages' lines',
    engineer_features_layout CenterSample.pages = Ok (pages', lines') /\
    map (fun l => option_map is_centered (features l)) lines'
      = [Some 1%Z; Some 0%Z; Some 1%Z] /\
    Forall2 (centring_rule CenterSample.pages)
            (List.concat CenterSample.pages) lines'.
Proof.
  do 2 eexists. split; [vm_compute; reflexivity|].
  split; [reflexivity|].
  eapply (centered_strictly_inside CenterSample.pages).
  vm_compute. reflexivity.
Defined.

(** The window lies strictly inside the two bounds, and the two literals
    lie outside it. *)
Remark window_inside :
  (2 # 5 < Float64.literal_0_4)%Q /\
  (Float64.literal_0_4 < Float64.window_lo)%Q /\
  (Float64.window_lo == (2 # 5) + (9 # 5) / 2 ^ 55)%Q /\
  (Float64.window_hi == (3 # 5) - (7 # 5) / 2 ^ 54)%Q /\
  (Float64.window_hi < Float64.literal_0_6)%Q /\
  (Float64.literal_0_6 < 3 # 5)%Q /\
  Float64.round (2 # 5) = Some Float64.literal_0_4 /\
  Float64.round (3 # 5) = Some Float64.literal_0_6.
Proof. vm_compute. repeat split; reflexivity. Qed.

(** When the sum of the two edges is a double that can be halved, the
    midpoint is computed without error. *)
Lemma midpoint64_exact (bx : BBox) :
  representable (b0 bx + b2 bx) (-1073) ->
  exists m, midpoint64 bx = Some m /\ (m == (b0 bx + b2 bx) / 2)%Q.
Proof.
  intros (m & k & E & M & K). unfold midpoint64, Float64.add.
  destruct (Float64Facts.round_exact (b0 bx + b2 bx) m k E M ltac:(lia))
    as (s & -> & Es). cbn [Float64.div].
  destruct (Float64Facts.round_exact (s / 2) m (k - 1)) as (h & -> & Eh);
    [|exact M|lia|].
  - rewrite Es, E. replace k with (k - 1 + 1)%Z at 1 by ring.
    rewrite Float64Facts.pow2_add. change (2 ^ 1)%Q with 2%Q. field.
  - exists h. split; [reflexivity|]. now rewrite Eh, Es.
Qed.

(** C10 as stated fails on the boundary: the quotient of the second sample
    line is 2/5, inside [0.4, 0.6], and its flag is 0. *)
Lemma centered_boundary_counterexample :
  let w := b2 (bbox CenterSample.first) in
  let r := centre_ratio (bbox CenterSample.second) w in
  (2 # 5 <= r)%Q /\ (r <= 3 # 5)%Q /\
  exists pages' lines' line' f,
    engineer_features_layout CenterSample.pages = Ok (pages', lines') /\
    nth_error lines' 1 = Some line' /\
    text line' = "Short" /\
    features line' = Some f /\
    is_centered f = 0%Z.
Proof.
  cbv zeta. split; [|split].
  - vm_compute. discriminate.
  - vm_compute. discriminate.
  - do 4 eexists. split; [vm_compute; reflexivity|].
    repeat split; reflexivity.
Qed.


(** On the machine's floats: 2.0 / 5.0 rounds to the float that the
    literal 0.4 denotes, and the strict comparison rejects it. *)
Remark boundary_in_binary64 :
  Binary64.on_boundary = false /\
  Binary64.in_the_middle = true /\
  Binary64.same Binary64.quotient_0_4_5 Binary64.literal_0_4 = true.
Proof. repeat split; vm_compute; reflexivity. Qed.

(** Rounding decides next to the bounds.  With edges 0 and 8.8 (as a
    double) on a page of width 11 the exact quotient is above 2/5, yet
    4.4 / 11 rounds to the double 0.4 and the flag is 0; the same happens
    when the sum 2^-70 + 4 is rounded to 4. *)
Remark rounded_quotient_examples :
  let x := (2476979795053773 # 281474976710656)%Q in
  let tiny := (1 # 1180591620717411303424)%Q in
  (2 # 5 < centre_ratio (mkBBox 0 0 x 0) 11)%Q /\
  centered_flag (mkBBox 0 0 x 0) 11 = Ok 0%Z /\
  (2 # 5 < centre_ratio (mkBBox tiny 0 4 0) 5)%Q /\
  centered_flag (mkBBox tiny 0 4 0) 5 = Ok 0%Z.
Proof. vm_compute. repeat split; reflexivity. Qed.

(** On each of the sample triples [centered_flag] gives what the machine's
    own binary64 arithmetic gives. *)
Remark centered_flag_as_binary64 :
  forallb Binary64.agrees Binary64.triples = true.
Proof. vm_compute. reflexivity. Qed.

(* ================================================================== *)
(** * [sorted] for a total preorder: ascending, a permutation, stable *)
(* ================================================================== *)

Section SortedTotal.

Context {A : Type} (leb : A -> A -> bool).

Hypothesis leb_total : forall x y, leb x y = true \/ leb y x = true.
Hypothesis leb_trans :
  forall x y z, leb x y = true -> leb y z = true -> leb x z = true.

Lemma insert_total_perm (x : A) (l : list A) :
  Permutation (x :: l) (insert_sorted leb x l).
Proof.
  induction l as [|y l IH]; simpl; [reflexivity|].
  destruct (leb x y); [reflexivity|].
  rewrite perm_swap. now constructor.
Qed.

Lemma sorted_total_perm (l : list A) : Permutation l (sorted leb l).
Proof.
  induction l as [|x l IH]; simpl; [constructor|].
  rewrite <- insert_total_perm. now constructor.
Qed.

Lemma insert_total_ascending (x : A) (s : list A) :
  StronglySorted (fun a b => leb a b = true) s ->
  StronglySorted (fun a b => leb a b = true) (insert_sorted leb x s).
Proof.
  induction 1 as [|y s SS IH FA]; simpl.
  - constructor; constructor.
  - rewrite Forall_forall in FA. destruct (leb x y) eqn:L.
    + constructor; [now constructor; [|apply Forall_forall]|].
      apply Forall_forall. intros z [<-|Hz]; [exact L|].
      apply leb_trans with y; auto.
    + constructor; [exact IH|].
      apply Forall_forall. intros z Hz.
      apply (Permutation_in _ (Permutation_sym (insert_total_perm x s)))
        in Hz.
      destruct Hz as [<-|Hz]; [|now apply FA].
      destruct (leb_total x y); congruence.
Qed.

Lemma sorted_total_ascending (l : list A) :
  StronglySorted (fun a b => leb a b = true) (sorted leb l).
Proof.
  induction l as [|x l IH]; simpl; [constructor|].
  now apply insert_total_ascending.
Qed.

(** Elements that compare equal to [k] both ways keep their order. *)
Lemma insert_total_stable (k x : A) (l : list A) :
  filter (fun a => leb a k && leb k a) (insert_sorted leb x l) =
  filter (fun a => leb a k && leb k a) (x :: l).
Proof.
  induction l as [|y l IH]; [reflexivity|].
  cbn [insert_sorted]. destruct (leb x y) eqn:L; [reflexivity|].
  cbn [filter] in *. rewrite IH.
  destruct (leb x k && leb k x) eqn:Ex;
    destruct (leb y k && leb k y) eqn:Ey; try reflexivity.
  apply andb_true_iff in Ex as [X1 X2]. apply andb_true_iff in Ey as [Y1 Y2].
  rewrite (leb_trans _ _ _ X1 Y2) in L. discriminate.
Qed.

Lemma sorted_total_stable (k : A) (l : list A) :
  filter (fun a => leb a k && leb k a) (sorted leb l) =
  filter (fun a => leb a k && leb k a) l.
Proof.
  induction l as [|x l IH]; [reflexivity|].
  cbn [sorted]. rewrite insert_total_stable. cbn [filter]. now rewrite IH.
Qed.

End SortedTotal.

(* ================================================================== *)
(** * The parser *)
(* ================================================================== *)

Lemma lstrip_split (l : list ascii) :
  exists sp, l = sp ++ lstrip_chars l /\ Forall (fun c => is_space c = true) sp.
Proof.
  induction l as [|c l (sp & E & F)]; simpl.
  - exists []. auto.
  - destruct (is_space c) eqn:S.
    + exists (c :: sp). simpl. split; [now f_equal | now constructor].
    + exists []. auto.
Qed.

Lemma lstrip_head (l : list ascii) (c : ascii) (t : list ascii) :
  lstrip_chars l = c :: t -> is_space c = false.
Proof.
  induction l as [|d l IH]; simpl; [discriminate|].
  destruct (is_space d) eqn:S; [exact IH|].
  intros H. inversion H; subst. exact S.
Qed.

Lemma rstrip_split (l : list ascii) :
  exists sp, l = rstrip_chars l ++ sp /\ Forall (fun c => is_space c = true) sp.
Proof.
  unfold rstrip_chars. destruct (lstrip_split (rev l)) as (sp & E & F).
  exists (rev sp). split.
  - rewrite <- rev_app_distr, <- E. now rewrite rev_involutive.
  - now apply Forall_rev.
Qed.

Lemma rstrip_last (l : list ascii) (c : ascii) (i : list ascii) :
  rstrip_chars l = i ++ [c] -> is_space c = false.
Proof.
  unfold rstrip_chars. intros H.
  apply (f_equal (@rev ascii)) in H.
  rewrite rev_involutive, rev_app_distr in H. simpl in H.
  now apply lstrip_head in H.
Qed.

Lemma strip_trimmed (s : string) : strip s <> "" -> trimmed (strip s).
Proof.
  intros N. split; [exact N|]. unfold strip. rewrite chars_str. split.
  - intros c t H.
    destruct (rstrip_split (lstrip_chars (chars s))) as (sp & E & _).
    rewrite H in E. simpl in E. now apply lstrip_head in E.
  - intros c i H. now apply rstrip_last in H.
Qed.

Lemma before_hyphen_free (l : list ascii) (c : ascii) :
  In c (before_hyphen l) -> code c <> 45.
Proof.
  induction l as [|d l IH]; simpl; [tauto|].
  destruct (code d =? 45) eqn:E; simpl; [tauto|].
  intros [<-|H]; [now apply Nat.eqb_neq | auto].
Qed.

Lemma normalize_lines_In (p : nat) (lines : list Raw.line) (line : Line) :
  In line (normalize_lines p lines) <->
  exists rl, In rl lines /\ normalize_line p rl = Some line.
Proof.
  induction lines as [|r lines IH]; simpl.
  - split; [tauto | intros (rl & [] & _)].
  - destruct (normalize_line p r) as [x|] eqn:N; simpl; rewrite IH; split.
    + intros [<-|(rl & H & E)]; eauto.
    + intros (rl & [<-|H] & E); [left; congruence | eauto].
    + intros (rl & H & E); eauto.
    + intros (rl & [<-|H] & E); [congruence | eauto].
Qed.

Lemma block_lines_In (p : nat) (blocks : list Raw.block) (line : Line) :
  In line (block_lines p blocks) <->
  exists block rl,
    In block blocks /\ Raw.type block = 0%Z /\ In rl (Raw.lines block) /\
    normalize_line p rl = Some line.
Proof.
  unfold block_lines. rewrite in_flat_map. split.
  - intros (block & Hb & H).
    destruct (Z.eqb_spec (Raw.type block) 0) as [T|T]; [|destruct H].
    apply normalize_lines_In in H as (rl & Hr & E). eauto 6.
  - intros (block & rl & Hb & T & Hr & E). exists block. split; [exact Hb|].
    rewrite T. simpl. apply normalize_lines_In. eauto.
Qed.

Lemma nth_map_enumerate {A B : Type} (f : nat * A -> list B) (l : list A)
  (n p : nat) :
  nth p (map f (enumerate_from n l)) [] =
  match nth_error l p with
  | Some x => f (n + p, x)
  | None => []
  end.
Proof.
  revert n p. induction l as [|x l IH]; intros n p; simpl.
  - now destruct p.
  - destruct p as [|p]; simpl.
    + now rewrite Nat.add_0_r.
    + rewrite IH. now rewrite Nat.add_succ_r.
Qed.

Lemma parsed_page (doc : list (list Raw.block)) (p : nat) :
  page_lines (parse_pdf_enhanced doc) p =
  match nth_error doc p with
  | Some blocks => sorted by_top (block_lines p blocks)
  | None => []
  end.
Proof.
  unfold page_lines, parse_pdf_enhanced, enumerate.
  now rewrite nth_map_enumerate.
Qed.

Lemma by_top_total (a b : Line) : by_top a b = true \/ by_top b a = true.
Proof. apply Qle_bool_total. Qed.

Lemma by_top_trans (a b c : Line) :
  by_top a b = true -> by_top b c = true -> by_top a c = true.
Proof. apply Qle_bool_tran. Qed.

(** X1: the lines of page [p] of the parsed document are exactly the
    normalised lines of the text blocks of page [p]: a line with no span or
    with a blank text is dropped, a block that is not a text block gives
    nothing, and nothing else is added. *)
Theorem parsed_lines_provenance (doc : list (list Raw.block)) (p : nat)
  (line : Line) :
  In line (page_lines (parse_pdf_enhanced doc) p) <->
  exists rl, text_block_line doc p rl /\ normalize_line p rl = Some line.
Proof.
  rewrite parsed_page. unfold text_block_line.
  destruct (nth_error doc p) as [blocks|] eqn:E.
  - rewrite sorted_In, block_lines_In. split.
    + intros (block & rl & Hb & T & Hr & N). exists rl. eauto 8.
    + intros (rl & (blocks' & block & E' & Hb & T & Hr) & N).
      inversion E'; subst. eauto 6.
  - split; [intros [] | intros (rl & (blocks & block & E' & _) & _)].
    discriminate E'.
Qed.

(** X2: every line of the parsed document carries the number of the page it
    is filed under, and that page exists; its text is not empty and has no
    whitespace at either end; its font family has no hyphen; and it has none
    of the keys that later stages add. *)
Theorem parsed_lines_shape (doc : list (list Raw.block)) (p : nat)
  (line : Line) :
  In line (page_lines (parse_pdf_enhanced doc) p) ->
  page_num line = p /\ p < List.length doc /\
  trimmed (text line) /\
  (forall c, In c (chars (font_family line)) -> code c <> 45) /\
  unannotated line.
Proof.
  rewrite parsed_page.
  destruct (nth_error doc p) as [blocks|] eqn:E; [|intros []].
  intros H. apply sorted_In, block_lines_In in H
    as (block & rl & _ & _ & _ & N).
  assert (L : p < List.length doc) by (apply nth_error_Some; congruence).
  unfold normalize_line in N.
  destruct (Raw.spans rl) as [|sp sps]; [discriminate|].
  remember (strip (join " " (map Raw.text (sp :: sps)))) as t eqn:Et.
  destruct (String.eqb t "") eqn:T; [discriminate|].
  apply String.eqb_neq in T.
  injection N as <-. unfold raw_line, unannotated. cbn.
  split; [reflexivity|]. split; [exact L|]. split; [|split; [|auto]].
  - subst t. now apply strip_trimmed.
  - unfold font_family_of. rewrite chars_str. apply before_hyphen_free.
Qed.

Lemma parsed_lines_shape_witness :
  exists line,
    In line (page_lines (parse_pdf_enhanced DecodedSample.doc) 0) /\
    text line = "Hello World" /\ page_num line = 0 /\
    trimmed (text line) /\ unannotated line.
Proof.
  eexists. split; [vm_compute; right; left; reflexivity|].
  split; [reflexivity|].
  match goal with
  | |- _ /\ trimmed (text ?l) /\ _ =>
      destruct (parsed_lines_shape DecodedSample.doc 0 l)
        as (P & _ & T & _ & U)
  end.
  - vm_compute. right; left; reflexivity.
  - auto.
Defined.

(** X3: the parsed document has one page per page of the decoded document;
    on every page the lines are in ascending order of their top edge, they
    are the lines of the text blocks rearranged, and lines with the same top
    edge keep the order in which the blocks gave them. *)
Theorem parsed_pages_sorted (doc : list (list Raw.block)) :
  List.length (parse_pdf_enhanced doc) = List.length doc /\
  forall p,
    top_sorted (page_lines (parse_pdf_enhanced doc) p) /\
    forall blocks, nth_error doc p = Some blocks ->
      Permutation (block_lines p blocks)
                  (page_lines (parse_pdf_enhanced doc) p) /\
      forall y, filter (at_top y) (page_lines (parse_pdf_enhanced doc) p)
                = filter (at_top y) (block_lines p blocks).
Proof.
  split.
  - unfold parse_pdf_enhanced, enumerate. rewrite length_map.
    generalize 0. induction doc as [|b doc IH]; intros n; simpl; auto.
  - intros p. rewrite parsed_page. split.
    + destruct (nth_error doc p) as [blocks|]; [|constructor].
      pose proof (sorted_total_ascending by_top by_top_total by_top_trans
                    (block_lines p blocks)) as S.
      unfold top_sorted.
      induction S as [|x l S IH F]; constructor; auto.
      rewrite Forall_forall in *. intros z Hz.
      apply Qle_bool_iff. now apply F.
    + intros blocks E. rewrite E. split.
      * apply sorted_total_perm.
      * intros y.
        set (probe := raw_line "" 0 "" false 0 (mkBBox 0 y 0 0)).
        pose proof (sorted_total_stable by_top by_top_trans probe
                      (block_lines p blocks)) as S.
        assert (X : forall l, filter (at_top y) l
                      = filter (fun a => by_top a probe && by_top probe a) l).
        { intros l. apply filter_ext. intros a.
          unfold at_top, by_top, probe. simpl.
          destruct (Qeq_bool (b1 (bbox a)) y) eqn:Q.
          - apply Qeq_bool_iff in Q. symmetry. apply andb_true_iff.
            rewrite !Qle_bool_iff, Q. split; apply Qle_refl.
          - symmetry. apply andb_false_iff.
            destruct (Qle_bool (b1 (bbox a)) y) eqn:L1; [|now left].
            destruct (Qle_bool y (b1 (bbox a))) eqn:L2; [|now right].
            apply Qle_bool_iff in L1, L2.
            pose proof (Qle_antisym _ _ L1 L2) as EQ.
            apply Qeq_bool_iff in EQ. congruence. }
        now rewrite !X.
Qed.


(** X4: a line that the parser keeps has at least one span; its size is
    the size of the first span rounded to the nearest integer (to the even
    one on a tie), its family and bold flag are read from the font name of
    the first span alone, and its bbox is the bbox of the decoded line. *)
Theorem normalized_line_reads_first_span (p : nat) (rl : Raw.line)
  (line : Line) :
  normalize_line p rl = Some line ->
  exists first_span others,
    Raw.spans rl = first_span :: others /\
    (inject_Z (size line) - (1 # 2) <= Raw.size first_span)%Q /\
    (Raw.size first_span <= inject_Z (size line) + (1 # 2))%Q /\
    ((Raw.size first_span == inject_Z (size line) + (1 # 2))%Q \/
     (Raw.size first_span == inject_Z (size line) - (1 # 2))%Q ->
     Z.even (size line) = true) /\
    font_family line = font_family_of (Raw.font first_span) /\
    bold line = contains "bold" (lower (Raw.font first_span)) /\
    bbox line = Raw.bbox rl.
Proof.
  unfold normalize_line.
  destruct (Raw.spans rl) as [|sp sps]; [discriminate|].
  destruct (String.eqb _ "") eqn:T; [discriminate|].
  intros N. injection N as <-. unfold raw_line. cbn.
  exists sp, sps. split; [reflexivity|].
  destruct (round_half_even_spec (Raw.size sp)) as (R1 & R2 & R3). auto 8.
Qed.

Lemma normalized_line_reads_first_span_witness :
  let rl := Raw.mkLine [ Raw.mkSpan " Hello" (23 # 2) "Arial-BoldMT";
                         Raw.mkSpan "World " 10 "Times" ]
                       (Samples.box 72 200 300 212) in
  exists line,
    normalize_line 3 rl = Some line /\
    size line = 12%Z /\ Z.even (size line) = true /\
    font_family line = "Arial" /\ bold line = true.
Proof.
  cbv zeta. eexists. split; [vm_compute; reflexivity|].
  split; [reflexivity|].
  match goal with
  | |- Z.even (size ?l) = true /\ _ =>
      destruct (normalized_line_reads_first_span 3
                  (Raw.mkLine [ Raw.mkSpan " Hello" (23 # 2) "Arial-BoldMT";
                                Raw.mkSpan "World " 10 "Times" ]
                              (Samples.box 72 200 300 212)) l)
        as (sp & others & S & _ & _ & Tie & Fam & Bold & _)
  end.
  - vm_compute. reflexivity.
  - injection S as <- <-. split.
    + apply Tie. right. vm_compute. split; reflexivity.
    + split; [rewrite Fam | rewrite Bold]; vm_compute; reflexivity.
Defined.

(* ================================================================== *)
(** * The matcher against what a pattern accepts *)
(* ================================================================== *)

Section Matcher.

Lemma branch_ext {T : Type} (a b c d : option T) (g : bool) :
  a = c -> b = d ->
  (if g then orelse a b else orelse b a)
  = (if g then orelse c d else orelse d c).
Proof. intros -> ->. reflexivity. Qed.

Lemma run_ext (r : regex) :
  forall st k1 k2, (forall x, k1 x = k2 x) -> run r st k1 = run r st k2.
Proof.
  induction r as [| |p|r1 IH1 r2 IH2|r1 IH1 r2 IH2|g lo hi r IH|n r IH];
    intros st k1 k2 E; cbn [run].
  - now rewrite E.
  - now rewrite E.
  - destruct (rest st) as [|c t]; [reflexivity|]. now rewrite E.
  - apply IH1. intros x. now apply IH2.
  - now rewrite (IH1 st k1 k2 E), (IH2 st k1 k2 E).
  - generalize (List.length (rest st)) as fuel.
    generalize 0 as cnt. generalize st as cur.
    intros cur cnt fuel. revert cnt cur.
    induction fuel as [|fuel IHf]; intros cnt cur.
    + now rewrite E.
    + apply branch_ext; [|now rewrite E].
      destruct (below cnt hi); [|reflexivity].
      apply IH. intros nxt. destruct (pos nxt =? pos cur); [reflexivity|].
      apply IHf.
  - apply IH. intros x. apply E.
Qed.

Lemma run_rep (g : bool) (lo : nat) (hi : option nat) (r : regex)
  (st : mstate) (k : mstate -> option mstate) :
  run (Rep g lo hi r) st k =
  rep_loop (run r) g lo hi k (List.length (rest st)) 0 st.
Proof.
  cbn [run]. generalize (List.length (rest st)) as fuel.
  generalize 0 as cnt. generalize st as cur.
  intros cur cnt fuel. revert cnt cur.
  induction fuel as [|fuel IHf]; intros cnt cur.
  - reflexivity.
  - cbn [rep_loop]. apply branch_ext; [|reflexivity].
    destruct (below cnt hi); [|reflexivity].
    apply run_ext. intros nxt.
    destruct (pos nxt =? pos cur); [reflexivity|]. apply IHf.
Qed.

Lemma orelse_some {A : Type} (a b : option A) (x : A) :
  orelse a b = Some x -> a = Some x \/ b = Some x.
Proof. destruct a; simpl; auto. Qed.

Lemma orelse_not_none_l {A : Type} (a b : option A) :
  a <> None -> orelse a b <> None.
Proof. destruct a; simpl; congruence. Qed.

Lemma orelse_not_none_r {A : Type} (a b : option A) :
  b <> None -> orelse a b <> None.
Proof. destruct a; simpl; congruence. Qed.

(** A match consumes a stretch of the subject and moves the position by
    its length. *)
Lemma iter_consumes (R : mstate -> mstate -> Prop) :
  (forall st st', R st st' ->
     exists w, rest st = w ++ rest st' /\ pos st' = pos st + List.length w) ->
  forall n st st', iter R n st st' ->
     exists w, rest st = w ++ rest st' /\ pos st' = pos st + List.length w.
Proof.
  intros HR. induction n as [|n IH]; intros st st'; simpl.
  - intros ->. exists []. simpl. split; [reflexivity | lia].
  - intros (st1 & H1 & _ & H2).
    destruct (HR _ _ H1) as (w1 & E1 & P1).
    destruct (IH _ _ H2) as (w2 & E2 & P2).
    exists (w1 ++ w2). rewrite E1, E2, <- app_assoc, length_app.
    split; [reflexivity | lia].
Qed.

Lemma matches_consumes (r : regex) (st st' : mstate) :
  matches r st st' ->
  exists w, rest st = w ++ rest st' /\ pos st' = pos st + List.length w.
Proof.
  revert st st'. induction r as [| |p|r1 IH1 r2 IH2|r1 IH1 r2 IH2|g lo hi r IH|n r IH];
    intros st st'; simpl.
  - intros [_ ->]. exists []. simpl. split; [reflexivity | lia].
  - intros [_ ->]. exists []. simpl. split; [reflexivity | lia].
  - intros (c & t & E & _ & ->). exists [c]. simpl. split; [exact E | lia].
  - intros (st1 & H1 & H2).
    destruct (IH1 _ _ H1) as (w1 & E1 & P1).
    destruct (IH2 _ _ H2) as (w2 & E2 & P2).
    exists (w1 ++ w2). rewrite E1, E2, <- app_assoc, length_app.
    split; [reflexivity | lia].
  - intros [H|H]; auto.
  - intros (n & _ & _ & H). now apply (iter_consumes (matches r) IH n).
  - intros (st1 & H & ->). simpl. now apply IH.
Qed.

Lemma matches_shrinks (r : regex) (st st' : mstate) :
  matches r st st' -> pos st' <> pos st ->
  List.length (rest st') < List.length (rest st).
Proof.
  intros H N. destruct (matches_consumes r st st' H) as (w & E & P).
  rewrite E, length_app. destruct w; simpl in *; lia.
Qed.

(** Soundness: a result of the matcher comes from a position the pattern
    accepts and the continuation takes. *)
Lemma rep_loop_sound (r : regex) (g : bool) (lo : nat) (hi : option nat)
  (k : mstate -> option mstate) :
  (forall st k' m, run r st k' = Some m ->
     exists st', matches r st st' /\ k' st' = Some m) ->
  forall fuel cnt cur m,
    (forall h, hi = Some h -> cnt <= h) ->
    rep_loop (run r) g lo hi k fuel cnt cur = Some m ->
    exists n st', iter (matches r) n cur st' /\ lo <= cnt + n /\
                  (forall h, hi = Some h -> cnt + n <= h) /\
                  k st' = Some m.
Proof.
  intros HR. induction fuel as [|fuel IH]; intros cnt cur m B H.
  - simpl in H. destruct (lo <=? cnt) eqn:L; [|discriminate].
    apply Nat.leb_le in L. exists 0, cur. simpl.
    repeat split; auto; try lia. intros h E. specialize (B h E). lia.
  - cbn [rep_loop] in H.
    assert (Stop : (if lo <=? cnt then k cur else None) = Some m ->
                   exists n st', iter (matches r) n cur st' /\ lo <= cnt + n /\
                     (forall h, hi = Some h -> cnt + n <= h) /\ k st' = Some m).
    { intros S. destruct (lo <=? cnt) eqn:L; [|discriminate].
      apply Nat.leb_le in L. exists 0, cur. simpl.
      repeat split; auto; try lia. intros h E. specialize (B h E). lia. }
    assert (More :
      (if below cnt hi
       then run r cur (fun nxt => if pos nxt =? pos cur then None
                                  else rep_loop (run r) g lo hi k fuel (S cnt) nxt)
       else None) = Some m ->
      exists n st', iter (matches r) n cur st' /\ lo <= cnt + n /\
        (forall h, hi = Some h -> cnt + n <= h) /\ k st' = Some m).
    { intros S. destruct (below cnt hi) eqn:Bl; [|discriminate].
      apply HR in S as (st1 & M1 & K1).
      destruct (pos st1 =? pos cur) eqn:P; [discriminate|].
      apply Nat.eqb_neq in P.
      apply IH in K1 as (n & st' & I & L & Hh & K).
      - exists (S n), st'. simpl. repeat split; eauto; try lia.
        intros h E. specialize (Hh h E). lia.
      - intros h E. subst hi. simpl in Bl. apply Nat.ltb_lt in Bl. lia. }
    destruct g; apply orelse_some in H as [H|H]; auto.
Qed.

Lemma run_sound (r : regex) :
  forall st k m, run r st k = Some m ->
    exists st', matches r st st' /\ k st' = Some m.
Proof.
  induction r as [| |p|r1 IH1 r2 IH2|r1 IH1 r2 IH2|g lo hi r IH|n r IH];
    intros st k m H.
  - simpl in H. destruct (pos st =? 0) eqn:P; [|discriminate].
    apply Nat.eqb_eq in P. exists st. simpl. auto.
  - simpl in H. destruct (rest st) as [|c [|d t]] eqn:R; try discriminate.
    + exists st. simpl. rewrite R. auto.
    + destruct (code c =? 10) eqn:C; [|discriminate].
      apply Nat.eqb_eq in C. exists st. simpl. rewrite R. eauto 6.
  - simpl in H. destruct (rest st) as [|c t] eqn:R; [discriminate|].
    destruct (p c) eqn:P; [|discriminate].
    eexists. split; [|exact H]. simpl. rewrite R. eauto 6.
  - simpl in H. apply IH1 in H as (st1 & M1 & H).
    apply IH2 in H as (st2 & M2 & H). exists st2. simpl. eauto.
  - simpl in H. apply orelse_some in H as [H|H].
    + apply IH1 in H as (st' & M & K). exists st'. simpl. auto.
    + apply IH2 in H as (st' & M & K). exists st'. simpl. auto.
  - rewrite run_rep in H.
    apply (rep_loop_sound r g lo hi k IH) in H as (n & st' & I & L & Hh & K).
    + exists st'. split; [|exact K]. simpl. exists n. auto.
    + intros h _. lia.
  - simpl in H. apply IH in H as (st1 & M & K).
    eexists. split; [|exact K]. simpl. eauto.
Qed.

(** Completeness: when the pattern accepts a position that the
    continuation takes, the matcher returns a result. *)
Lemma rep_loop_complete (r : regex) (g : bool) (lo : nat) (hi : option nat)
  (k : mstate -> option mstate) :
  (forall st k' st', matches r st st' -> k' st' <> None ->
     run r st k' <> None) ->
  forall n fuel cnt cur st',
    iter (matches r) n cur st' -> lo <= cnt + n ->
    (forall h, hi = Some h -> cnt + n <= h) ->
    k st' <> None -> List.length (rest cur) <= fuel ->
    rep_loop (run r) g lo hi k fuel cnt cur <> None.
Proof.
  intros HR. induction n as [|n IH]; intros fuel cnt cur st' I L Hh K F.
  - simpl in I. subst st'.
    assert (Stop : (if lo <=? cnt then k cur else None) <> None).
    { replace (lo <=? cnt) with true; [exact K|].
      symmetry. apply Nat.leb_le. lia. }
    destruct fuel as [|fuel]; [exact Stop|].
    cbn [rep_loop]. destruct g.
    + now apply orelse_not_none_r.
    + now apply orelse_not_none_l.
  - simpl in I. destruct I as (st1 & M1 & P & I).
    pose proof (matches_shrinks r cur st1 M1 P) as Sh.
    destruct fuel as [|fuel]; [lia|].
    cbn [rep_loop].
    assert (More :
      (if below cnt hi
       then run r cur (fun nxt => if pos nxt =? pos cur then None
                                  else rep_loop (run r) g lo hi k fuel (S cnt) nxt)
       else None) <> None).
    { replace (below cnt hi) with true.
      - apply (HR cur _ st1 M1).
        replace (pos st1 =? pos cur) with false
          by (symmetry; now apply Nat.eqb_neq).
        apply (IH fuel (S cnt) st1 st' I); auto; try lia.
        intros h E. specialize (Hh h E). lia.
      - symmetry. destruct hi as [h|]; [|reflexivity].
        simpl. apply Nat.ltb_lt. specialize (Hh h eq_refl). lia. }
    destruct g.
    + now apply orelse_not_none_l.
    + now apply orelse_not_none_r.
Qed.

Lemma run_complete (r : regex) :
  forall st k st', matches r st st' -> k st' <> None -> run r st k <> None.
Proof.
  induction r as [| |p|r1 IH1 r2 IH2|r1 IH1 r2 IH2|g lo hi r IH|n r IH];
    intros st k st' M K.
  - simpl in *. destruct M as [P ->]. now rewrite P.
  - simpl in *. destruct M as [[R|(c & R & C)] ->]; rewrite R; [exact K|].
    now rewrite C.
  - simpl in *. destruct M as (c & t & R & P & ->). now rewrite R, P.
  - simpl in *. destruct M as (st1 & M1 & M2).
    apply (IH1 st _ st1 M1). now apply (IH2 st1 k st').
  - simpl in *. destruct M as [M|M].
    + apply orelse_not_none_l. now apply (IH1 st k st').
    + apply orelse_not_none_r. now apply (IH2 st k st').
  - rewrite run_rep. simpl in M. destruct M as (n & L & Hh & I).
    apply (rep_loop_complete r g lo hi k IH n _ 0 st st' I); auto.
  - simpl in *. destruct M as (st1 & M & ->).
    now apply (IH st _ st1 M).
Qed.

(** [re.match] finds a match exactly when the pattern accepts a stretch
    of the subject that starts at its beginning. *)
Lemma re_match_iff (r : regex) (s : string) :
  (exists m, re_match r s = Some m) <->
  exists st', matches r (mkState 0 (chars s) []) st'.
Proof.
  unfold re_match. split.
  - intros (m & H). apply run_sound in H as (st' & M & _). eauto.
  - intros (st' & M).
    destruct (run r (mkState 0 (chars s) []) Some) as [m|] eqn:E; [eauto|].
    exfalso. apply (run_complete r _ Some st' M); [discriminate | exact E].
Qed.


End Matcher.

(* ================================================================== *)
(** * What the patterns of the source accept *)
(* ================================================================== *)

Lemma iter_chr (p : ascii -> bool) (n : nat) (st st' : mstate) :
  iter (matches (Chr p)) n st st' <->
  exists w, List.length w = n /\ Forall (fun c => p c = true) w /\
            rest st = w ++ rest st' /\
            st' = mkState (pos st + n) (rest st') (caps st).
Proof.
  revert st st'. induction n as [|n IH]; intros st st'; simpl.
  - split.
    + intros ->. exists []. repeat split; auto.
      destruct st; simpl. now rewrite Nat.add_0_r.
    + intros (w & L & _ & E & Hs). destruct w; [|discriminate].
      simpl in E. rewrite <- E, Nat.add_0_r in Hs. rewrite Hs. now destruct st.
  - split.
    + intros (st1 & (c & t & R & P & ->) & _ & I).
      apply IH in I as (w & L & F & E & Hs). simpl in *.
      exists (c :: w). simpl. repeat split; auto.
      * now rewrite R, E.
      * rewrite Hs. f_equal. lia.
    + intros (w & L & F & E & Hs). destruct w as [|c w]; [discriminate|].
      inversion F as [|? ? Pc Fw]; subst. simpl in E.
      exists (mkState (S (pos st)) (w ++ rest st') (caps st)). split; [|split].
      * exists c, (w ++ rest st'). auto.
      * simpl. lia.
      * apply IH. exists w. simpl. repeat split; auto.
        rewrite Hs. f_equal. simpl in L. lia.
Qed.

(** The pattern of line 82 accepts a text exactly when the text begins with
    a decimal digit. *)
Lemma section_mark_iff (s : string) :
  (exists m, re_match SECTION_MARK s = Some m) <-> starts_with_digit s.
Proof.
  rewrite re_match_iff. unfold starts_with_digit, SECTION_MARK, star. split.
  - intros (st' & M). cbn [matches] in M.
    destruct M as (st1 & [_ ->] & st2 & (st3 & (n & L & _ & I) & _) & _).
    destruct n as [|n]; [lia|]. cbn [iter matches] in I.
    destruct I as (st4 & (c & t & R & P & _) & _). simpl in R. eauto.
  - intros (c & t & R & P).
    eexists. cbn [matches]. eexists. split; [split; reflexivity|].
    eexists. split; [|reflexivity].
    exists (mkState 1 t []). split.
    + exists 1. split; [lia|]. split; [intros h E; inversion E; lia|].
      cbn [iter matches]. eexists. split; [|split; [|reflexivity]].
      * exists c, t. simpl. auto.
      * simpl. lia.
    + exists 0. split; [lia|]. split; [intros h E; discriminate E|].
      reflexivity.
Qed.

Lemma firstn_length_app {A : Type} (a b : list A) :
  firstn (List.length a) (a ++ b) = a.
Proof. induction a as [|x a IH]; simpl; [now destruct b | now rewrite IH]. Qed.


Lemma leader_item_consumes (st st1 : mstate) :
  matches LEADER_ITEM st st1 ->
  exists w, 1 <= List.length w /\ Forall (fun c => is_leader c = true) w /\
            rest st = w ++ rest st1 /\
            st1 = mkState (pos st + List.length w) (rest st1) (caps st).
Proof.
  unfold LEADER_ITEM, star. cbn [matches].
  intros [(st2 & (n & _ & _ & I) & (c & t & R & P & ->))
         |(c & t & R & P & ->)].
  - apply iter_chr in I as (w & L & F & E & Hs).
    exists (w ++ [c]). rewrite length_app. simpl. split; [lia|]. split; [|split].
    + apply Forall_app. split.
      * eapply Forall_impl; [|exact F]. intros a Ha. unfold is_leader.
        now rewrite Ha.
      * constructor; [|constructor]. unfold is_leader. rewrite P.
        apply orb_true_r.
    + rewrite E, R, <- app_assoc. reflexivity.
    + rewrite Hs. simpl. f_equal. lia.
  - exists [c]. simpl. split; [lia|]. split; [|split].
    + constructor; [|constructor]. unfold is_leader. now rewrite P.
    + exact R.
    + f_equal. lia.
Qed.

Lemma iter_leader_consumes (n : nat) (st st' : mstate) :
  iter (matches LEADER_ITEM) n st st' ->
  exists w, n <= List.length w /\ Forall (fun c => is_leader c = true) w /\
            rest st = w ++ rest st' /\
            st' = mkState (pos st + List.length w) (rest st') (caps st).
Proof.
  revert st. induction n as [|n IH]; intros st; cbn [iter].
  - intros ->. exists []. simpl. repeat split; auto.
    destruct st; simpl. now rewrite Nat.add_0_r.
  - intros (st1 & M & _ & I).
    apply leader_item_consumes in M as (w1 & L1 & F1 & E1 & S1).
    apply IH in I as (w2 & L2 & F2 & E2 & S2).
    exists (w1 ++ w2). rewrite length_app. split; [lia|]. split; [|split].
    + now apply Forall_app.
    + rewrite E1, E2, <- app_assoc. reflexivity.
    + rewrite S2, S1. simpl. f_equal. lia.
Qed.

Lemma leader_char_item (c : ascii) (t : list ascii) (st : mstate) :
  is_leader c = true -> rest st = c :: t ->
  matches LEADER_ITEM st (mkState (S (pos st)) t (caps st)).
Proof.
  intros L R. unfold LEADER_ITEM, star. cbn [matches].
  destruct (is_space c) eqn:Sp.
  - right. exists c, t. auto.
  - left. exists st. split.
    + exists 0. split; [lia|]. split; [intros h E; discriminate E|].
      reflexivity.
    + exists c, t. unfold is_leader in L. rewrite Sp in L. auto.
Qed.

Lemma iter_leader_word (w t : list ascii) (st : mstate) :
  Forall (fun c => is_leader c = true) w -> rest st = w ++ t ->
  iter (matches LEADER_ITEM) (List.length w) st
       (mkState (pos st + List.length w) t (caps st)).
Proof.
  revert st. induction w as [|c w IH]; intros st F R; simpl.
  - simpl in R. rewrite <- R, Nat.add_0_r. now destruct st.
  - inversion F as [|? ? Lc Fw]; subst. simpl in R.
    exists (mkState (S (pos st)) (w ++ t) (caps st)). split; [|split].
    + now apply (leader_char_item c (w ++ t)).
    + simpl. lia.
    + replace (pos st + S (List.length w))
        with (pos (mkState (S (pos st)) (w ++ t) (caps st)) + List.length w)
        by (simpl; lia).
      now apply (IH (mkState (S (pos st)) (w ++ t) (caps st))).
Qed.





(** A greedy repeat of one character class in front of a continuation that
    always answers takes the longest run of the class. *)
Lemma greedy_chr_loop (p : ascii -> bool) (lo : nat)
  (k : mstate -> option mstate) :
  (forall x, k x <> None) ->
  forall fuel cnt cur,
    List.length (rest cur) <= fuel ->
    rep_loop (run (Chr p)) true lo None k fuel cnt cur =
    if lo <=? cnt + List.length (take_while p (rest cur))
    then k (mkState (pos cur + List.length (take_while p (rest cur)))
                    (drop_while p (rest cur)) (caps cur))
    else None.
Proof.
  intros Total. induction fuel as [|fuel IH]; intros cnt cur F.
  - destruct cur as [ps rs cs]. simpl in *. destruct rs; [|simpl in F; lia].
    simpl. now rewrite !Nat.add_0_r.
  - cbn [rep_loop below run]. destruct cur as [ps rs cs]. cbn [rest pos caps] in *.
    destruct rs as [|c t]; cbn [take_while drop_while List.length].
    + cbn [orelse]. now rewrite !Nat.add_0_r.
    + destruct (p c) eqn:P; cbn [orelse List.length].
      * replace (S ps =? ps) with false by (symmetry; apply Nat.eqb_neq; lia).
        rewrite IH by (simpl in F; simpl; lia). cbn [rest pos caps].
        replace (S cnt + List.length (take_while p t))
          with (cnt + S (List.length (take_while p t))) by lia.
        replace (S ps + List.length (take_while p t))
          with (ps + S (List.length (take_while p t))) by lia.
        destruct (lo <=? cnt + S (List.length (take_while p t))) eqn:L.
        -- destruct (k _) eqn:K; [reflexivity|]. now apply Total in K.
        -- cbn [orelse]. apply Nat.leb_gt in L.
           replace (lo <=? cnt) with false; [reflexivity|].
           symmetry. apply Nat.leb_gt. lia.
      * now rewrite !Nat.add_0_r.
Qed.

Lemma greedy_chr (p : ascii -> bool) (lo : nat) (k : mstate -> option mstate)
  (st : mstate) :
  (forall x, k x <> None) ->
  run (Rep true lo None (Chr p)) st k =
  if lo <=? List.length (take_while p (rest st))
  then k (mkState (pos st + List.length (take_while p (rest st)))
                  (drop_while p (rest st)) (caps st))
  else None.
Proof.
  intros Total. rewrite run_rep.
  now rewrite (greedy_chr_loop p lo k Total) by lia.
Qed.

Lemma run_cat (r1 r2 : regex) (st : mstate) (k : mstate -> option mstate) :
  run (Cat r1 r2) st k = run r1 st (fun st1 => run r2 st1 k).
Proof. reflexivity. Qed.

Lemma run_bol (st : mstate) (k : mstate -> option mstate) :
  run Bol st k = if pos st =? 0 then k st else None.
Proof. reflexivity. Qed.

Lemma run_grp (n : nat) (r : regex) (st : mstate)
  (k : mstate -> option mstate) :
  run (Grp n r) st k =
  run r st (fun st1 => k (mkState (pos st1) (rest st1)
                            ((n, (pos st, pos st1)) :: caps st1))).
Proof. reflexivity. Qed.

Lemma num_prefix_at_start (l : list ascii) :
  run NUM_PREFIX (mkState 0 l []) Some =
  match take_while is_digit l with
  | [] => None
  | _ :: d =>
      Some (mkState (S (List.length d)
                     + List.length (take_while is_dot_or_space
                                      (drop_while is_digit l)))
                    (drop_while is_dot_or_space (drop_while is_digit l)) [])
  end.
Proof.
  unfold NUM_PREFIX, plus, star. rewrite run_cat, run_bol. cbn [pos Nat.eqb].
  rewrite run_cat.
  rewrite greedy_chr.
  - cbn [rest pos caps]. destruct (take_while is_digit l) as [|c d]; [reflexivity|].
    cbn [List.length Nat.leb]. rewrite greedy_chr by discriminate.
    cbn [rest pos caps Nat.leb Nat.add]. reflexivity.
  - intros x. rewrite greedy_chr by discriminate. discriminate.
Qed.

Lemma num_prefix_later (fuel p : nat) (l : list ascii) :
  p <> 0 -> sub_loop fuel NUM_PREFIX p l = l.
Proof.
  revert p l. induction fuel as [|fuel IH]; intros p l N; [reflexivity|].
  cbn [sub_loop]. unfold NUM_PREFIX at 1. rewrite run_cat, run_bol. cbn [pos].
  replace (p =? 0) with false by (symmetry; now apply Nat.eqb_neq).
  destruct l as [|c t]; [reflexivity|]. now rewrite IH.
Qed.

Lemma re_sub_num_prefix (s : string) :
  re_sub_empty NUM_PREFIX s =
  match take_while is_digit (chars s) with
  | [] => s
  | _ :: _ =>
      str (drop_while is_dot_or_space (drop_while is_digit (chars s)))
  end.
Proof.
  unfold re_sub_empty. cbn [sub_loop]. rewrite num_prefix_at_start.
  destruct (take_while is_digit (chars s)) as [|c d] eqn:T.
  - rewrite <- (str_chars s) at 2.
    destruct (chars s) as [|a t]; [reflexivity|].
    now rewrite num_prefix_later.
  - cbn [pos rest List.length Nat.add Nat.eqb]. now rewrite num_prefix_later.
Qed.

(** X6: the removal of the numbering deletes the leading run of decimal
    digits together with the dots and whitespace that follow it, and nothing
    else; a text that does not begin with a digit is returned unchanged.  A
    second number, as in "1.2 Scope", therefore stays. *)
Theorem numeric_prefix_removed (s : string) :
  re_sub_empty NUM_PREFIX s =
  match take_while is_digit (chars s) with
  | [] => s
  | _ :: _ =>
      str (drop_while is_dot_or_space (drop_while is_digit (chars s)))
  end.
Proof. apply re_sub_num_prefix. Qed.

Lemma orelse_none_r {A : Type} (a : option A) : orelse a None = a.
Proof. now destruct a. Qed.

Lemma lazy_chr_loop (p : ascii -> bool) (k : mstate -> option mstate) :
  forall fuel cnt cur,
    List.length (rest cur) <= fuel ->
    rep_loop (run (Chr p)) false 0 None k fuel cnt cur =
    lazy_scan p k (pos cur) (rest cur) (caps cur).
Proof.
  induction fuel as [|fuel IH]; intros cnt cur F;
    destruct cur as [ps rs cs]; cbn [rest pos caps] in *.
  - destruct rs; [|simpl in F; lia]. simpl. now rewrite orelse_none_r.
  - cbn [rep_loop below run Nat.leb rest pos caps].
    destruct rs as [|c t]; cbn [lazy_scan]; [reflexivity|].
    destruct (p c); [|reflexivity].
    replace (S ps =? ps) with false by (symmetry; apply Nat.eqb_neq; lia).
    rewrite IH by (simpl in F; simpl; lia). reflexivity.
Qed.

Lemma lazy_scan_first (p : ascii -> bool) (k : mstate -> option mstate)
  (cs : list (nat * (nat * nat))) (m : mstate) :
  forall l ps,
    lazy_scan p k ps l cs = Some m ->
    exists w t,
      l = w ++ t /\ Forall (fun c => p c = true) w /\
      k (mkState (ps + List.length w) t cs) = Some m /\
      forall w1 x, w = w1 ++ x -> x <> [] ->
        k (mkState (ps + List.length w1) (x ++ t) cs) = None.
Proof.
  induction l as [|c l IH]; intros ps H; cbn [lazy_scan] in H.
  - rewrite orelse_none_r in H. exists [], []. simpl.
    rewrite Nat.add_0_r. repeat split; auto.
    intros w1 x E N. destruct w1; destruct x; simpl in E; congruence.
  - destruct (k (mkState ps (c :: l) cs)) as [m'|] eqn:K; cbn [orelse] in H.
    + injection H as ->. exists [], (c :: l). simpl.
      rewrite Nat.add_0_r. repeat split; auto.
      intros w1 x E N. destruct w1; destruct x; simpl in E; congruence.
    + destruct (p c) eqn:P; [|discriminate].
      apply IH in H as (w & t & E & F & Kw & Min).
      exists (c :: w), t. simpl. rewrite E. split; [reflexivity|].
      split; [now constructor|]. split.
      * now rewrite Nat.add_succ_r.
      * intros w1 x Ew N. destruct w1 as [|c1 w1]; simpl in *.
        -- rewrite Nat.add_0_r. subst x. simpl. rewrite <- E. exact K.
        -- injection Ew as <- Ew. rewrite Nat.add_succ_r.
           now apply Min.
Qed.

Lemma toc_rest_sound (st m : mstate) :
  matches TOC_REST st m ->
  exists leader digits,
    rest st = leader ++ digits ++ rest m /\
    Forall (fun c => is_leader c = true) leader /\
    2 <= List.length leader /\
    digits <> [] /\ Forall (fun c => is_digit c = true) digits /\
    (rest m = [] \/ exists c, rest m = [c] /\ code c = 10) /\
    caps m = (2, (pos st + List.length leader,
                  pos st + List.length leader + List.length digits))
             :: caps st.
Proof.
  unfold TOC_REST, plus. cbn [matches].
  intros (st4 & (n2 & L2 & _ & I2) &
          st5 & (st6 & (n3 & L3 & _ & I3) & ->) & [T ->]).
  apply iter_leader_consumes in I2 as (w2 & Ln2 & F2 & E2 & S2).
  apply iter_chr in I3 as (w3 & Ln3 & F3 & E3 & S3).
  rewrite S3, S2 in *. simpl in *.
  exists w2, w3. split; [now rewrite E2, E3|].
  split; [exact F2|]. split; [lia|]. split.
  - intros ->. simpl in Ln3. lia.
  - split; [exact F3|]. split; [exact T|]. now rewrite <- Ln3.
Qed.

Lemma toc_rest_complete (st : mstate) (leader digits tail : list ascii) :
  rest st = leader ++ digits ++ tail ->
  Forall (fun c => is_leader c = true) leader ->
  2 <= List.length leader ->
  digits <> [] -> Forall (fun c => is_digit c = true) digits ->
  (tail = [] \/ exists c, tail = [c] /\ code c = 10) ->
  exists m, matches TOC_REST st m.
Proof.
  intros E F2 L2 N3 F3 T. unfold TOC_REST, plus. cbn [matches].
  set (st4 := mkState (pos st + List.length leader) (digits ++ tail) (caps st)).
  set (st6 := mkState (pos st4 + List.length digits) tail (caps st4)).
  eexists. exists st4. split.
  { exists (List.length leader). split; [exact L2|].
    split; [intros h X; discriminate X|].
    now apply iter_leader_word. }
  eexists. split.
  { exists st6. split; [|reflexivity].
    exists (List.length digits). split.
    - destruct digits; [congruence | simpl; lia].
    - split; [intros h X; discriminate X|].
      apply iter_chr. exists digits. simpl. auto. }
  split; [|reflexivity]. simpl. exact T.
Qed.

Lemma re_match_toc_line (s : string) :
  re_match TOC_LINE s =
  lazy_scan not_newline
    (fun st1 => run TOC_REST
                  (mkState (pos st1) (rest st1) ((1, (0, pos st1)) :: caps st1))
                  Some)
    0 (chars s) [].
Proof.
  unfold re_match.
  change TOC_LINE
    with (Cat Bol (Cat (Grp 1 (Rep false 0 None (Chr not_newline))) TOC_REST)).
  rewrite run_cat, run_bol. cbn [pos Nat.eqb].
  rewrite run_cat, run_grp, run_rep.
  now rewrite lazy_chr_loop by lia.
Qed.

Lemma str_inj (a b : list ascii) : str a = str b -> a = b.
Proof.
  intros H. apply (f_equal chars) in H. now rewrite !chars_str in H.
Qed.

(** The label is the shortest that lets the rest of the pattern match: it
    has no line feed and does not end with a dot or whitespace. *)
Lemma toc_label_minimal (s : string) (m : mstate) :
  re_match TOC_LINE s = Some m ->
  exists label,
    group s m 1 = str label /\
    Forall (fun c => not_newline c = true) label /\
    forall i c, label = i ++ [c] -> is_leader c = false.
Proof.
  rewrite re_match_toc_line. intros H.
  apply lazy_scan_first in H as (w & t & E & F & K & Min).
  cbv beta in K. cbn [pos rest caps Nat.add] in K.
  apply run_sound in K as (m' & M & K). injection K as ->.
  apply toc_rest_sound in M
    as (leader & digits & Et & F2 & L2 & N3 & F3 & T & C).
  simpl in Et, C.
  exists w. split; [|split; [exact F|]].
  - unfold group. rewrite C. simpl.
    rewrite Nat.sub_0_r, E. now rewrite firstn_length_app.
  - intros i c -> .
    destruct (is_leader c) eqn:Lc; [exfalso|reflexivity].
    specialize (Min i [c] eq_refl ltac:(discriminate)).
    cbv beta in Min. cbn [pos rest caps Nat.add app] in Min.
    destruct (toc_rest_complete
                (mkState (List.length i) (c :: t) [(1, (0, List.length i))])
                (c :: leader) digits (rest m)) as (m2 & M2); auto.
    + simpl. now rewrite Et.
    + simpl. lia.
    + apply (run_complete TOC_REST _ Some m2 M2); [discriminate | exact Min].
Qed.

Lemma drop_while_suffix (p : ascii -> bool) (l : list ascii) :
  exists pre, l = pre ++ drop_while p l.
Proof.
  induction l as [|c l (pre & E)]; simpl; [now exists []|].
  destruct (p c); [|now exists []].
  exists (c :: pre). simpl. now f_equal.
Qed.

Lemma drop_while_head (p : ascii -> bool) (l : list ascii) (c : ascii)
  (t : list ascii) :
  drop_while p l = c :: t -> p c = false.
Proof.
  induction l as [|d l IH]; simpl; [discriminate|].
  destruct (p d) eqn:P; [exact IH|]. intros H. injection H as <- _. exact P.
Qed.

Lemma rstrip_id (l : list ascii) :
  (forall i c, l = i ++ [c] -> is_space c = false) -> rstrip_chars l = l.
Proof.
  intros H. unfold rstrip_chars.
  destruct (rev l) as [|c r] eqn:R.
  - simpl. apply (f_equal (@rev ascii)) in R.
    now rewrite rev_involutive in R.
  - assert (E : l = rev r ++ [c]).
    { apply (f_equal (@rev ascii)) in R. now rewrite rev_involutive in R. }
    simpl. rewrite (H _ _ E). simpl. now rewrite E.
Qed.

(** X7: the text of an entry of the table of contents has no line feed,
    does not begin with whitespace, and does not end with a dot or with
    whitespace: the leader is removed whole. *)
Theorem toc_entry_text_clean (toc_line : Line) (e : TocRaw.entry) :
  parse_toc_line toc_line = Some e ->
  (forall c, In c (chars (TocRaw.text e)) -> not_newline c = true) /\
  (forall c t, chars (TocRaw.text e) = c :: t -> is_space c = false) /\
  (forall i c, chars (TocRaw.text e) = i ++ [c] -> is_leader c = false).
Proof.
  unfold parse_toc_line.
  destruct (re_match TOC_LINE (text toc_line)) as [m|] eqn:M; [|discriminate].
  intros H. injection H as <-. cbn [TocRaw.text].
  apply toc_label_minimal in M as (label & -> & NL & Last).
  set (u := lstrip_chars label).
  destruct (lstrip_split label) as (sp & Eu & _). fold u in Eu.
  assert (LastU : forall i c, u = i ++ [c] -> is_leader c = false).
  { intros i c E. apply (Last (sp ++ i) c). now rewrite Eu, E, app_assoc. }
  assert (Strip : chars (strip (str label)) = u).
  { unfold strip. rewrite !chars_str. fold u. apply rstrip_id.
    intros i c E. specialize (LastU i c E). unfold is_leader in LastU.
    now apply orb_false_iff in LastU. }
  assert (NLu : Forall (fun c => not_newline c = true) u).
  { rewrite Eu in NL. now apply Forall_app in NL. }
  rewrite re_sub_num_prefix, Strip.
  destruct (take_while is_digit u) as [|d ds] eqn:T.
  - rewrite Strip. split; [|split].
    + intros c Hc. rewrite Forall_forall in NLu. now apply NLu.
    + intros c t E. now apply (lstrip_head label c t).
    + exact LastU.
  - rewrite chars_str.
    set (v := drop_while is_dot_or_space (drop_while is_digit u)).
    destruct (drop_while_suffix is_digit u) as (p1 & E1).
    destruct (drop_while_suffix is_dot_or_space (drop_while is_digit u))
      as (p2 & E2).
    fold v in E2. split; [|split].
    + intros c Hc. rewrite Forall_forall in NLu. apply NLu.
      rewrite E1, E2. apply in_or_app. right. apply in_or_app. now right.
    + intros c t E. apply drop_while_head in E.
      unfold is_dot_or_space in E. now apply orb_false_iff in E.
    + intros i c E. apply (LastU (p1 ++ p2 ++ i) c).
      now rewrite E1, E2, E, <- !app_assoc.
Qed.

Lemma toc_entry_text_clean_witness :
  exists e,
    parse_toc_line (Samples.line0 "  2.3  Data and methods . . . .  17" 90 0)
      = Some e /\
    TocRaw.text e = "3  Data and methods" /\
    (forall i c, chars (TocRaw.text e) = i ++ [c] -> is_leader c = false).
Proof.
  eexists. split; [vm_compute; reflexivity|]. split; [reflexivity|].
  eapply (toc_entry_text_clean
            (Samples.line0 "  2.3  Data and methods . . . .  17" 90 0)).
  vm_compute. reflexivity.
Defined.

(* ================================================================== *)
(** * The feature engineer *)
(* ================================================================== *)

Lemma mapM_ok_iff {A B : Type} (f : A -> result B) (l : list A) :
  (exists ys, mapM f l = Ok ys) <-> forall x, In x l -> exists y, f x = Ok y.
Proof.
  induction l as [|x l IH]; simpl.
  - split; [intros _ x [] | eauto].
  - split.
    + intros (ys & H) z [<-|Hz].
      * destruct (f x); [eauto | discriminate].
      * destruct (f x); [|discriminate]. simpl in H.
        destruct (mapM f l) eqn:M; [|discriminate].
        apply (proj1 IH); eauto.
    + intros H. destruct (H x (or_introl eq_refl)) as (y & ->). simpl.
      destruct (proj2 IH (fun z Hz => H z (or_intror Hz))) as (ys & ->).
      simpl. eauto.
Qed.

Lemma mapM_raise {A B : Type} (f : A -> result B) (l : list A) (e : exn) :
  mapM f l = Raise e -> exists x, In x l /\ f x = Raise e.
Proof.
  induction l as [|x l IH]; simpl; [discriminate|].
  destruct (f x) as [y|e'] eqn:F; simpl.
  - destruct (mapM f l) as [ys|e'']; simpl; [discriminate|].
    intros H. injection H as ->. destruct (IH eq_refl) as (z & Hz & Fz). eauto.
  - intros H. injection H as ->. eauto.
Qed.

Lemma annotate_cases (pages : Pages) (fm : list (string * Z)) (line : Line) :
  match annotate pages fm line with
  | Ok line' =>
      exists page, nth_error pages (page_num line) = Some page /\
                   ~ (page_width page == 0)%Q
  | Raise KeyError => nth_error pages (page_num line) = None
  | Raise ZeroDivisionError =>
      exists page, nth_error pages (page_num line) = Some page /\
                   (page_width page == 0)%Q
  | Raise ValueError => False
  end.
Proof.
  unfold annotate, page_width_of.
  destruct (nth_error pages (page_num line)) as [page|]; [|reflexivity].
  assert (W : (match page with
               | [] => Ok 1%Q
               | first :: _ => Ok (b2 (bbox first))
               end : result Q) = Ok (page_width page)) by now destruct page.
  rewrite W. cbn [bind]. unfold centered_flag.
  destruct (Qeq_bool (page_width page) 0) eqn:Z; cbn [bind].
  - apply Qeq_bool_iff in Z. eauto.
  - exists page. split; [reflexivity|]. intros E.
    apply Qeq_bool_iff in E. congruence.
Qed.

Lemma engineer_result_cases (pages : Pages) :
  match engineer_features_layout pages with
  | Ok _ =>
      forall line, In line (List.concat pages) ->
        exists page, nth_error pages (page_num line) = Some page /\
                     ~ (page_width page == 0)%Q
  | Raise KeyError =>
      exists line, In line (List.concat pages) /\
                   nth_error pages (page_num line) = None
  | Raise ZeroDivisionError =>
      exists line page,
        In line (List.concat pages) /\
        nth_error pages (page_num line) = Some page /\
        (page_width page == 0)%Q
  | Raise ValueError => False
  end.
Proof.
  unfold engineer_features_layout.
  destruct (List.concat pages) as [|l0 ls] eqn:C; [intros line []|].
  rewrite <- C.
  set (fm := font_map_of (List.concat pages)).
  destruct (mapM (mapM (annotate pages fm)) pages) as [ps|e] eqn:M; cbn [bind].
  - intros line Hl. apply in_concat in Hl as (page & Hp & Hl).
    assert (X : exists ys, mapM (mapM (annotate pages fm)) pages = Ok ys)
      by eauto.
    destruct (proj1 (mapM_ok_iff _ _) X page Hp) as (ys & Y).
    destruct (proj1 (mapM_ok_iff _ _) (ex_intro _ ys Y) line Hl) as (l' & A).
    pose proof (annotate_cases pages fm line) as K. now rewrite A in K.
  - apply mapM_raise in M as (page & Hp & M).
    apply mapM_raise in M as (line & Hl & A).
    assert (In line (List.concat pages)) by (apply in_concat; eauto).
    pose proof (annotate_cases pages fm line) as K. rewrite A in K.
    destruct e.
    + destruct K as (pg & N & W). exists line, pg. auto.
    + exists line. auto.
    + exact K.
Qed.

(** X8: the feature engineer returns exactly when the page of every line
    exists and has a width other than zero.  Otherwise it raises: KeyError
    only if some line names a page that is not in the document,
    ZeroDivisionError only if the first line of some line's page has its
    right edge at 0; it raises nothing else. *)
Theorem feature_engineering_errors (pages : Pages) :
  match engineer_features_layout pages with
  | Ok _ =>
      forall line, In line (List.concat pages) ->
        exists page, nth_error pages (page_num line) = Some page /\
                     ~ (page_width page == 0)%Q
  | Raise KeyError =>
      exists line, In line (List.concat pages) /\
                   nth_error pages (page_num line) = None
  | Raise ZeroDivisionError =>
      exists line page,
        In line (List.concat pages) /\
        nth_error pages (page_num line) = Some page /\
        (page_width page == 0)%Q
  | Raise ValueError => False
  end.
Proof. apply engineer_result_cases. Qed.

Lemma parsed_line_page (doc : list (list Raw.block)) (p : nat) (line : Line) :
  In line (page_lines (parse_pdf_enhanced doc) p) ->
  page_num line = p /\ is_heading_prediction line = None.
Proof.
  rewrite parsed_page.
  destruct (nth_error doc p) as [blocks|]; [|intros []].
  intros H. apply sorted_In, block_lines_In in H
    as (block & rl & _ & _ & _ & N).
  unfold normalize_line in N.
  destruct (Raw.spans rl) as [|sp sps]; [discriminate|].
  destruct (String.eqb _ "") eqn:T; [discriminate|].
  injection N as <-. split; reflexivity.
Qed.

Lemma in_concat_page (pages : Pages) (line : Line) :
  In line (List.concat pages) <->
  exists p, In line (page_lines pages p) /\ p < List.length pages.
Proof.
  rewrite in_concat. unfold page_lines. split.
  - intros (page & Hp & Hl). apply In_nth_error in Hp as (p & Hp).
    exists p. split.
    + now rewrite (nth_error_nth _ _ _ Hp).
    + apply nth_error_Some. congruence.
  - intros (p & Hl & L). exists (nth p pages []). split; [|exact Hl].
    now apply nth_In.
Qed.

(** X9: on a parsed document the feature engineer never raises KeyError:
    it returns, unless the first line of some page has its right edge at 0,
    and then it raises ZeroDivisionError. *)
Theorem parsed_document_features (doc : list (list Raw.block)) :
  (forall e, engineer_features_layout (parse_pdf_enhanced doc) = Raise e ->
             e = ZeroDivisionError) /\
  ((exists r, engineer_features_layout (parse_pdf_enhanced doc) = Ok r) <->
   forall p first others,
     page_lines (parse_pdf_enhanced doc) p = first :: others ->
     ~ (b2 (bbox first) == 0)%Q).
Proof.
  set (pages := parse_pdf_enhanced doc).
  assert (Own : forall line, In line (List.concat pages) ->
            exists first others,
              nth_error pages (page_num line) = Some (first :: others)).
  { intros line H. apply in_concat_page in H as (p & Hl & L).
    destruct (parsed_line_page doc p line Hl) as [Pn _]. subst p.
    unfold page_lines in Hl.
    destruct (nth_error pages (page_num line)) as [page|] eqn:E.
    - rewrite (nth_error_nth _ _ _ E) in Hl.
      destruct page; [destruct Hl | eauto].
    - apply nth_error_None in E. lia. }
  pose proof (engineer_result_cases pages) as K.
  split; [|split].
  - intros e E. rewrite E in K. destruct e; auto.
    + destruct K as (line & Hl & N).
      destruct (Own line Hl) as (f & o & S). congruence.
    + destruct K.
  - intros (r & E) p first others P. rewrite E in K.
    assert (Hf : In first (page_lines pages p)) by (rewrite P; now left).
    destruct (parsed_line_page doc p first Hf) as [Pn _].
    assert (Hc : In first (List.concat pages)).
    { apply in_concat_page. exists p. split; [exact Hf|].
      unfold page_lines in P.
      destruct (Nat.lt_ge_cases p (List.length pages)) as [L|L]; [exact L|].
      rewrite nth_overflow in P by exact L. discriminate P. }
    destruct (K first Hc) as (page & N & W). rewrite Pn in N.
    unfold page_lines in P. rewrite (nth_error_nth _ _ _ N) in P.
    subst page. exact W.
  - intros H.
    destruct (engineer_features_layout pages) as [r|e]; [eauto|exfalso].
    destruct e.
    + destruct K as (line & page & Hl & N & W).
      destruct (Own line Hl) as (f & o & S).
      rewrite S in N. injection N as <-.
      apply (H (page_num line) f o); [|exact W].
      unfold page_lines. now rewrite (nth_error_nth _ _ _ S).
    + destruct K as (line & Hl & N).
      destruct (Own line Hl) as (f & o & S). congruence.
    + destruct K.
Qed.

Lemma annotate_annotated (pages : Pages) (fm : list (string * Z))
  (line line' : Line) :
  annotate pages fm line = Ok line' ->
  annotated_from line line' /\
  (exists f, features line' = Some f /\
             font_family_encoded f
             = dict_get String.eqb fm (font_family line) (-1)%Z) /\
  font_family line' = font_family line.
Proof.
  unfold annotate.
  destruct (page_width_of pages line) as [w|e]; cbn [bind]; [|discriminate].
  destruct (centered_flag (bbox line) w) as [c|e]; cbn [bind]; [|discriminate].
  intros H. injection H as <-. split; [|split].
  - eexists. split; [reflexivity|]. cbn [indentation pattern_match].
    split; [reflexivity|].
    destruct (re_match SECTION_MARK (text line)) as [m|] eqn:M.
    + left. split; [reflexivity|]. apply section_mark_iff. eauto.
    + right. split; [reflexivity|]. intros S.
      apply section_mark_iff in S as (m & S). congruence.
  - eexists. split; reflexivity.
  - reflexivity.
Qed.

Lemma concat_nil_all {A : Type} (ls : list (list A)) :
  List.concat ls = [] -> Forall (fun l => l = []) ls.
Proof.
  induction ls as [|l ls IH]; simpl; [constructor|].
  intros H. apply app_eq_nil in H as [-> H]. constructor; auto.
Qed.

(** X10: when the feature engineer returns, the flattened list is the
    pages laid end to end, page by page and line by line; every line comes
    back with the same values under the keys it had, with [indentation] set
    to its left edge and [pattern_match] set to 1 if its text begins with a
    decimal digit and to 0 if not. *)
Theorem features_written (pages pages' : Pages) (lines' : list Line) :
  engineer_features_layout pages = Ok (pages', lines') ->
  lines' = List.concat pages' /\
  Forall2 (Forall2 annotated_from) pages pages'.
Proof.
  unfold engineer_features_layout.
  destruct (List.concat pages) as [|l0 ls] eqn:C.
  - intros H. injection H as <- <-. split; [now rewrite C|].
    apply concat_nil_all in C.
    induction C as [|p ps Hp _ IH]; constructor; auto.
    subst p. constructor.
  - destruct (mapM _ pages) as [ps|e] eqn:M; cbn [bind]; [|discriminate].
    intros H. injection H as <- <-. split; [reflexivity|].
    apply mapM_Forall2 in M. eapply Forall2_impl; [|exact M].
    intros p p' Hp. apply mapM_Forall2 in Hp.
    eapply Forall2_impl; [|exact Hp].
    intros line line' A. now apply annotate_annotated in A.
Qed.

Lemma features_written_witness :
  exists pages' lines',
    engineer_features_layout CenterSample.pages = Ok (pages', lines') /\
    Forall2 (Forall2 annotated_from) CenterSample.pages pages' /\
    map text lines' = ["A wide first line"; "Short"; "Middle"].
Proof.
  do 2 eexists. split; [vm_compute; reflexivity|]. split; [|reflexivity].
  eapply (features_written CenterSample.pages). vm_compute. reflexivity.
Defined.

(* ------------------------------------------------------------------ *)

Lemma ascii_compare_lt_trans (x y z : ascii) :
  Ascii.compare x y = Lt -> Ascii.compare y z = Lt -> Ascii.compare x z = Lt.
Proof.
  unfold Ascii.compare. rewrite !N.compare_lt_iff. apply N.lt_trans.
Qed.

Lemma string_compare_lt_trans (a b c : string) :
  String.compare a b = Lt -> String.compare b c = Lt ->
  String.compare a c = Lt.
Proof.
  revert b c. induction a as [|x a IH]; intros [|y b] [|z c]; simpl;
    try discriminate; auto.
  destruct (Ascii.compare x y) eqn:XY; try discriminate;
    destruct (Ascii.compare y z) eqn:YZ; try discriminate; intros H1 H2.
  - apply Ascii.compare_eq_iff in XY, YZ. subst.
    replace (Ascii.compare z z) with Eq
      by (symmetry; unfold Ascii.compare; apply N.compare_refl).
    now apply IH with b.
  - apply Ascii.compare_eq_iff in XY. subst. now rewrite YZ.
  - apply Ascii.compare_eq_iff in YZ. subst. now rewrite XY.
  - now rewrite (ascii_compare_lt_trans x y z).
Qed.

Lemma string_leb_lt (a b : string) :
  String.leb a b = true <-> String.compare a b = Lt \/ a = b.
Proof.
  unfold String.leb. destruct (String.compare a b) eqn:C; split; auto.
  - intros _. right. now apply String.compare_eq_iff.
  - discriminate.
  - intros [H| ->]; [discriminate|].
    pose proof (String.compare_antisym b b) as X. rewrite C in X.
    discriminate X.
Qed.

Lemma string_leb_trans (a b c : string) :
  String.leb a b = true -> String.leb b c = true -> String.leb a c = true.
Proof.
  rewrite !string_leb_lt. intros [H1| ->] [H2| ->]; auto.
  left. eapply string_compare_lt_trans; eauto.
Qed.

Lemma string_eqb_sym (a b : string) :
  String.eqb a b = true -> String.eqb b a = true.
Proof. rewrite !String.eqb_eq. auto. Qed.

Lemma string_eqb_trans (a b c : string) :
  String.eqb a b = true -> String.eqb b c = true -> String.eqb a c = true.
Proof. rewrite !String.eqb_eq. congruence. Qed.

Lemma string_before_ltb (a b : string) :
  before String.eqb String.leb a b -> String.ltb a b = true.
Proof.
  intros [L N]. apply string_leb_lt in L as [L| ->].
  - unfold String.ltb. now rewrite L.
  - rewrite String.eqb_refl in N. discriminate.
Qed.

Lemma Forall2_In_r {A B : Type} (R : A -> B -> Prop) (l : list A)
  (l' : list B) (y : B) :
  Forall2 R l l' -> In y l' -> exists x, In x l /\ R x y.
Proof.
  induction 1 as [|a b l l' Rab _ IH]; simpl; [tauto|].
  intros [<-|H]; [eauto|]. destruct (IH H) as (x & Hx & Rx). eauto.
Qed.

(** X11: the distinct font families of the document, put in alphabetical
    order, are numbered from 0, and the feature engineer writes into every
    line the number of its family.  So two lines share a code exactly when
    they share a family, the codes follow the alphabetical order of the
    names, and the fallback -1 is never written. *)
Theorem font_codes_rank_families (pages pages' : Pages) (lines' : list Line) :
  engineer_features_layout pages = Ok (pages', lines') ->
  StronglySorted (fun a b => String.ltb a b = true) (font_families pages) /\
  forall line', In line' lines' ->
    exists f,
      features line' = Some f /\
      (0 <= font_family_encoded f)%Z /\
      nth_error (font_families pages) (Z.to_nat (font_family_encoded f))
        = Some (font_family line').
Proof.
  intros E. split.
  - unfold font_families.
    pose proof (ranks_strict String.eqb String.leb string_eqb_sym
                  String.leb_total string_leb_trans
                  (map font_family (List.concat pages))) as S.
    induction S as [|x l S IH F]; constructor; auto.
    rewrite Forall_forall in *. intros y Hy.
    now apply string_before_ltb, F.
  - apply engineer_features_layout_lines in E as [_ F].
    intros line' H.
    destruct (Forall2_In_r _ _ _ _ F H) as (line & Hl & A).
    apply annotate_annotated in A as (_ & (f & Ff & Code) & Fam).
    exists f. split; [exact Ff|].
    destruct (rank_in_spec String.eqb String.leb String.eqb_refl
                string_eqb_trans (map font_family (List.concat pages))
                (font_family line) (in_map font_family _ _ Hl))
      as [Hi (d & Hd & Ed)].
    apply String.eqb_eq in Ed. subst d.
    unfold font_map_of, enumerate in Code.
    rewrite (dict_get_enumerate String.eqb Z.of_nat) in Code.
    rewrite Hi in Code. rewrite Code, Fam. split; [lia|].
    rewrite Nat.add_0_l, Nat2Z.id. exact Hd.
Qed.

Lemma font_codes_rank_families_witness :
  exists pages' lines',
    engineer_features_layout FontSample.pages = Ok (pages', lines') /\
    font_families FontSample.pages = ["Arial"; "Courier"; "Times"] /\
    map (fun l => option_map font_family_encoded (features l)) lines'
      = [Some 2%Z; Some 0%Z; Some 2%Z; Some 1%Z] /\
    forall line', In line' lines' ->
      exists f, features line' = Some f /\ (0 <= font_family_encoded f)%Z.
Proof.
  do 2 eexists. split; [vm_compute; reflexivity|].
  split; [vm_compute; reflexivity|]. split; [reflexivity|].
  intros line' H.
  edestruct (font_codes_rank_families FontSample.pages) as [_ C].
  - vm_compute. reflexivity.
  - destruct (C line' H) as (f & Ff & P & _). eauto.
Defined.

(* ================================================================== *)
(** * The title *)
(* ================================================================== *)

Lemma max_of_spec (x : Z) (l : list Z) :
  (x <= max_of x l)%Z /\
  (forall y, In y l -> (y <= max_of x l)%Z) /\
  (max_of x l = x \/ In (max_of x l) l).
Proof.
  unfold max_of. revert x. induction l as [|y l IH]; intros x; simpl.
  - split; [lia|]. split; [tauto | now left].
  - destruct (IH (Z.max x y)) as (A & B & C). split; [lia|]. split.
    + intros z [<-|Hz]; [lia | now apply B].
    + destruct C as [C|C]; [|now right; right].
      rewrite C. destruct (Z.max_spec x y) as [[_ ->]|[_ ->]]; auto.
Qed.

(** X12: when page 0 has lines, the title is made of the texts, joined by
    single blanks and in page order, of the lines of page 0 whose size is
    the largest size found on that page; at least one line contributes.
    When page 0 has no line (or the document has no page) the title is
    "Untitled". *)
Theorem title_from_largest_lines (pages : Pages) :
  match page_lines pages 0 with
  | [] => title_of pages = "Untitled"
  | first :: others =>
      exists biggest,
        (forall l, In l (first :: others) -> (size l <= biggest)%Z) /\
        (exists l, In l (first :: others) /\ size l = biggest) /\
        filter (fun l => (size l =? biggest)%Z) (first :: others) <> [] /\
        title_of pages =
          join " " (map text (filter (fun l => (size l =? biggest)%Z)
                                     (first :: others)))
  end.
Proof.
  unfold title_of. destruct (page_lines pages 0) as [|first others];
    [reflexivity|].
  set (biggest := max_of (size first) (map size others)).
  destruct (max_of_spec (size first) (map size others)) as (A & B & C).
  fold biggest in A, B, C.
  assert (Att : exists l, In l (first :: others) /\ size l = biggest).
  { destruct C as [C|C].
    - exists first. split; [now left | now symmetry].
    - apply in_map_iff in C as (l & E & Hl). exists l. split; [now right|auto]. }
  exists biggest. split; [|split; [exact Att|split; [|reflexivity]]].
  - intros l [<-|Hl]; [exact A|]. apply B. now apply in_map.
  - destruct Att as (l & Hl & E). intros N.
    assert (X : In l (filter (fun l => (size l =? biggest)%Z)
                             (first :: others))).
    { apply filter_In. split; [exact Hl | now apply Z.eqb_eq]. }
    rewrite N in X. destruct X.
Qed.

Lemma title_of_page0 (pages pages' : Pages) :
  map (fun l => (text l, size l)) (page_lines pages' 0)
    = map (fun l => (text l, size l)) (page_lines pages 0) ->
  title_of pages' = title_of pages.
Proof.
  unfold title_of.
  destruct (page_lines pages' 0) as [|a' l'];
    destruct (page_lines pages 0) as [|a l]; simpl; try discriminate;
    [reflexivity|].
  intros H. injection H as Et Es H.
  assert (M : map size l' = map size l).
  { apply (f_equal (map snd)) in H. now rewrite !map_map in H. }
  rewrite Es, M.
  set (big := max_of (size a) (map size l)).
  assert (G : forall x y,
            map (fun l => (text l, size l)) x
              = map (fun l => (text l, size l)) y ->
            map text (filter (fun l => (size l =? big)%Z) x)
              = map text (filter (fun l => (size l =? big)%Z) y)).
  { induction x as [|u x IH]; intros [|v y] E; simpl in *;
      try discriminate; [reflexivity|].
    injection E as E1 E2 E. rewrite E2.
    destruct (size v =? big)%Z; simpl; [rewrite E1; f_equal|]; now apply IH. }
  destruct (size a =? big)%Z.
  - change (join " " (map text (a' :: filter (fun l => (size l =? big)%Z) l'))
            = join " " (map text (a :: filter (fun l => (size l =? big)%Z) l))).
    simpl map. now rewrite Et, (G l' l H).
  - now rewrite (G l' l H).
Qed.

Lemma Forall2_nth_default {A B : Type} (R : A -> B -> Prop)
  (l : list (list A)) (l' : list (list B)) (n : nat) :
  Forall2 (Forall2 R) l l' -> Forall2 R (nth n l []) (nth n l' []).
Proof.
  intros F. revert n. induction F as [|a b l l' Rab _ IH]; intros n.
  - destruct n; constructor.
  - destruct n; simpl; auto.
Qed.

Lemma engineer_keeps_title (pages pages' : Pages) (lines' : list Line) :
  engineer_features_layout pages = Ok (pages', lines') ->
  title_of pages' = title_of pages.
Proof.
  unfold engineer_features_layout.
  destruct (List.concat pages) as [|l0 ls] eqn:C.
  - intros H. now injection H as <- <-.
  - destruct (mapM _ pages) as [ps|e] eqn:M; cbn [bind]; [|discriminate].
    intros H. injection H as <- <-.
    apply title_of_page0. unfold page_lines.
    apply mapM_Forall2 in M.
    assert (F : Forall2 (Forall2 (fun a b => text b = text a /\ size b = size a))
                        pages ps).
    { eapply Forall2_impl; [|exact M]. intros p p' Hp.
      apply mapM_Forall2 in Hp. eapply Forall2_impl; [|exact Hp].
      intros a b A. apply annotate_fields in A. tauto. }
    apply (Forall2_nth_default _ _ _ 0) in F.
    induction F as [|a b x y [Et Es] _ IH]; simpl; [reflexivity|].
    now rewrite Et, Es, IH.
Qed.

(** X13: whatever the strategy, a returned payload has one of three
    titles: the title made from page 0 of the document as parsed; or,
    without a model on the classifier path, the fixed error text; or, with a
    model and a document without any line, "Could not parse document".  In
    the last two cases the outline is empty.  The features written on the
    classifier path do not change the title. *)
Theorem title_of_result (pages : Pages) (model : option Classifier)
  (payload : Out.payload) :
  snd (process_document_definitive pages model) = Ok payload ->
  Out.title payload = title_of pages \/
  (model = None /\ Out.outline payload = [] /\
   Out.title payload = "Error: ML Model not provided for inference.") \/
  (List.concat pages = [] /\ Out.outline payload = [] /\
   Out.title payload = "Could not parse document").
Proof.
  destruct (process_toc_cases pages model) as [(es & _ & _ & R)|[_ R]];
    rewrite R; cbn [snd]; intros H.
  - injection H as <-. now left.
  - unfold ml_inference in H. destruct model as [predict|].
    + destruct (engineer_features_layout pages) as [[pages' lines]|e] eqn:E;
        cbn [bind] in H; [|discriminate].
      destruct lines as [|l0 lines].
      * injection H as <-. right. right. split; [|auto].
        apply engineer_features_layout_lines in E as [_ F].
        now inversion F.
      * destruct (with_predictions _ _) as [rows|e]; cbn [bind] in H;
          [|discriminate].
        destruct (final_output_of pages' rows) as [fo|e]; cbn [bind] in H;
          [|discriminate].
        injection H as <-. left. cbn [Out.title].
        now apply engineer_keeps_title in E.
    + injection H as <-. right. left. auto.
Qed.

Lemma title_of_result_witness :
  exists payload,
    snd (process_document_definitive Samples.plain
           (Some (Samples.fixed [9 # 10; 1 # 10; 1 # 10]))) = Ok payload /\
    Out.title payload = title_of Samples.plain.
Proof.
  eexists. split; [vm_compute; reflexivity|].
  match goal with
  | |- Out.title ?p = _ =>
      destruct (title_of_result Samples.plain
                  (Some (Samples.fixed [9 # 10; 1 # 10; 1 # 10])) p)
        as [T|[(N & _)|(N & _)]]
  end.
  - vm_compute. reflexivity.
  - exact T.
  - discriminate N.
  - vm_compute in N. discriminate N.
Defined.

(* ================================================================== *)
(** * The scan for the table of contents *)
(* ================================================================== *)






(* ================================================================== *)
(** * The stitcher: what it keeps, what it appends, what it skips *)
(* ================================================================== *)

Lemma string_app_nil_r (s : string) : (s ++ "")%string = s.
Proof. induction s as [|c s IH]; simpl; [reflexivity | now rewrite IH]. Qed.

Lemma string_app_assoc (a b c : string) :
  ((a ++ b) ++ c)%string = (a ++ b ++ c)%string.
Proof. induction a as [|x a IH]; simpl; [reflexivity | now rewrite IH]. Qed.

Lemma sublist_refl {A : Type} (l : list A) : sublist l l.
Proof.
  induction l as [|x l IH]; [apply sublist_nil | now apply sublist_take].
Qed.

Lemma absorb_run (h : Line) (lines : list Line) (merged : string)
  (pr : list (nat * BBox)) :
  exists new,
    absorb h lines merged pr =
      ((merged ++ absorbed_text (run_while (absorbable h) lines))%string,
       new ++ pr).
Proof.
  revert merged pr. induction lines as [|l lines IH]; intros merged pr;
    cbn [absorb run_while].
  - exists []. cbn [absorbed_text app]. now rewrite string_app_nil_r.
  - destruct (absorbable h l).
    + destruct (IH (merged ++ " " ++ text l)%string
                   ((page_num l, bbox l) :: pr)) as (new & ->).
      exists (new ++ [(page_num l, bbox l)]). f_equal.
      * cbn [absorbed_text]. now rewrite !string_app_assoc.
      * now rewrite <- app_assoc.
    + exists []. cbn [absorbed_text app]. now rewrite string_app_nil_r.
Qed.

(** One turn of the loop: the heading is skipped when it is consumed, and
    otherwise appended with the run it absorbs; the consumed set grows. *)
Lemma stitch_step_cases (m : LinesMap) (acc : list Line)
  (pr : list (nat * BBox)) (h : Line) :
  exists new,
    stitch_step m (acc, pr) h =
      if consumed pr h then (acc, pr)
      else (acc ++ [set_text (text h ++ absorbed_text (absorbed_run m h)) h],
            new ++ pr).
Proof.
  unfold stitch_step, consumed, absorbed_run.
  destruct (existsb _ pr); [now exists []|].
  destruct (index_where _ _) as [i|].
  - destruct (absorb_run h (skipn (i + 1)
                              (sorted_page_lines m (page_num h)))
                         (text h) pr) as (new & ->).
    now exists new.
  - exists []. simpl. rewrite string_app_nil_r. now rewrite set_text_same.
Qed.

Lemma consumed_grows (new pr : list (nat * BBox)) (h : Line) :
  consumed (new ++ pr) h = false -> consumed pr h = false.
Proof.
  unfold consumed. rewrite existsb_app. intros H.
  now apply orb_false_iff in H.
Qed.

(** The whole loop from any state: what it adds comes from headings that
    were not consumed in that state, in their order, with text appended. *)
Lemma stitch_loop_from (m : LinesMap) (hs acc : list Line)
  (pr : list (nat * BBox)) :
  exists kept out new,
    fold_left (stitch_step m) hs (acc, pr) = (acc ++ out, new ++ pr) /\
    sublist kept hs /\
    Forall2 text_extended kept out /\
    Forall (fun h => consumed pr h = false) kept.
Proof.
  revert acc pr. induction hs as [|h hs IH]; intros acc pr; cbn [fold_left].
  - exists [], [], []. rewrite app_nil_r.
    repeat split; [apply sublist_nil | constructor | constructor].
  - destruct (stitch_step_cases m acc pr h) as (new & ->).
    destruct (consumed pr h) eqn:C.
    + destruct (IH acc pr) as (kept & out & new' & -> & S & F & N).
      exists kept, out, new'. repeat split; auto. now apply sublist_skip.
    + destruct (IH (acc ++ [set_text (text h ++ absorbed_text (absorbed_run m h)) h])
                   (new ++ pr)) as (kept & out & new' & -> & S & F & N).
      exists (h :: kept),
             (set_text (text h ++ absorbed_text (absorbed_run m h)) h :: out),
             (new' ++ new).
      rewrite <- !app_assoc. split; [reflexivity|].
      split; [now apply sublist_take|].
      split.
      * constructor; [|exact F]. now exists (absorbed_text (absorbed_run m h)).
      * constructor; [exact C|].
        eapply Forall_impl; [|exact N]. intros x. apply consumed_grows.
Qed.

(** X15: the stitcher returns some of the headings it was given, in the
    order it was given them, each with the same values under every key but
    [text], to which it may have appended something.  It never reorders,
    repeats or invents a heading. *)
Theorem stitch_keeps_headings (headings : list Line)
  (all_lines_map : LinesMap) :
  exists kept,
    sublist kept headings /\
    Forall2 text_extended kept
            (stitch_multiline_headings headings all_lines_map).
Proof.
  unfold stitch_multiline_headings.
  destruct (stitch_loop_from all_lines_map headings [] [])
    as (kept & out & new & -> & S & F & _).
  exists kept. auto.
Qed.

(** X16: the first heading is always kept, and what is appended to its
    text is the longest run of lines that follow it on its page in the map
    and pass the test one after the other, each after a blank: absorption
    stops for good at the first line that fails.  A heading whose bbox is
    not in the map of its page is kept as it is. *)
Theorem stitch_first_heading (h : Line) (more : list Line)
  (all_lines_map : LinesMap) :
  exists tail,
    stitch_multiline_headings (h :: more) all_lines_map =
    set_text (text h ++ absorbed_text (absorbed_run all_lines_map h)) h
    :: tail.
Proof.
  unfold stitch_multiline_headings. cbn [fold_left].
  destruct (stitch_step_cases all_lines_map [] [] h) as (new & ->).
  cbn [consumed existsb app].
  destruct (stitch_loop_from all_lines_map more
              [set_text (text h ++ absorbed_text (absorbed_run all_lines_map h)) h]
              (new ++ [])) as (kept & out & new' & -> & _).
  now exists out.
Qed.

(** X17: once the loop has consumed a (page, bbox) pair, no heading with
    that page and bbox is appended afterwards: cut the heading list at any
    point, and what the loop adds for the second part has no heading that
    was consumed during the first. *)
Theorem stitch_skips_consumed (before_cut after_cut : list Line)
  (all_lines_map : LinesMap) :
  exists added,
    stitch_multiline_headings (before_cut ++ after_cut) all_lines_map =
      fst (stitch_state before_cut all_lines_map) ++ added /\
    forall h', In h' added ->
      consumed (snd (stitch_state before_cut all_lines_map)) h' = false.
Proof.
  unfold stitch_multiline_headings, stitch_state. rewrite fold_left_app.
  destruct (fold_left (stitch_step all_lines_map) before_cut ([], []))
    as [acc pr].
  destruct (stitch_loop_from all_lines_map after_cut acc pr)
    as (kept & out & new & -> & _ & F & N).
  exists out. split; [reflexivity|]. cbn [snd].
  intros h' H. destruct (Forall2_In_r _ _ _ _ F H) as (h & Hh & (sfx & ->)).
  rewrite Forall_forall in N. specialize (N h Hh).
  unfold consumed in *. now destruct h.
Qed.

(* ================================================================== *)
(** * The filter and the levels together *)
(* ================================================================== *)

Lemma filter_sublist {A : Type} (p : A -> bool) (l : list A) :
  sublist (filter p l) l.
Proof.
  induction l as [|x l IH]; simpl; [apply sublist_nil|].
  destruct (p x); [now apply sublist_take | now apply sublist_skip].
Qed.

Lemma filter_twice {A : Type} (p : A -> bool) (l : list A) :
  filter p (filter p l) = filter p l.
Proof.
  induction l as [|x l IH]; simpl; [reflexivity|].
  destruct (p x) eqn:P; simpl; [rewrite P, IH|]; auto.
Qed.

Lemma nlp_sanity_check_filter (headings : list Line) :
  nlp_sanity_check headings = filter (fun h => sane (text h)) headings.
Proof. unfold nlp_sanity_check. now rewrite sanity_loop_filter. Qed.

(** X18: the sanity filter works entry by entry.  It returns some of the
    entries in their order, the filter of two lists laid end to end is the
    two filtered lists laid end to end, and filtering a second time removes
    nothing more. *)
Theorem sanity_filter_entrywise (a b : list Line) :
  sublist (nlp_sanity_check a) a /\
  nlp_sanity_check (a ++ b) = nlp_sanity_check a ++ nlp_sanity_check b /\
  nlp_sanity_check (nlp_sanity_check a) = nlp_sanity_check a.
Proof.
  rewrite !nlp_sanity_check_filter. split; [apply filter_sublist|].
  split; [apply filter_app | apply filter_twice].
Qed.

Lemma assign_levels_map (headings : list Line) :
  assign_levels_by_font_size headings =
  map (fun h => set_level
                  (level_tag
                     (Nat.min (size_rank (heading_sizes headings) h) 2 + 1)) h)
      headings.
Proof.
  unfold assign_levels_by_font_size.
  destruct headings as [|h0 hs]; [reflexivity|].
  apply map_ext_in. intros h Hh. now rewrite size_map_lookup.
Qed.

Lemma filter_map_swap {A B : Type} (p : B -> bool) (g : A -> B) (l : list A) :
  filter p (map g l) = map g (filter (fun x => p (g x)) l).
Proof.
  induction l as [|x l IH]; simpl; [reflexivity|].
  destruct (p (g x)); simpl; now rewrite IH.
Qed.

(** X19: the levels are fixed before the filter runs.  Filtering the
    levelled headings gives the filtered headings with the levels they had
    among all the headings, dropped ones included: the rank of a size counts
    the sizes of headings that the filter removes, so the outline may start
    below H1. *)
Theorem levels_fixed_before_filter (headings : list Line) :
  nlp_sanity_check (assign_levels_by_font_size headings) =
  map (fun h => set_level
                  (level_tag
                     (Nat.min (size_rank (heading_sizes headings) h) 2 + 1)) h)
      (nlp_sanity_check headings).
Proof.
  rewrite !nlp_sanity_check_filter, assign_levels_map, filter_map_swap.
  reflexivity.
Qed.

(* ================================================================== *)
(** * The classifier path as a whole *)
(* ================================================================== *)

Lemma sublist_trans {A : Type} (a b c : list A) :
  sublist a b -> sublist b c -> sublist a c.
Proof.
  intros H1 H2. revert a H1.
  induction H2 as [|x l l' H2 IH|x l l' H2 IH]; intros a H1.
  - exact H1.
  - apply sublist_skip, IH, H1.
  - inversion H1 as [|y a' l0 H|y a' l0 H]; subst.
    + apply sublist_skip, IH, H.
    + apply sublist_take, IH, H.
Qed.

Lemma sublist_In {A : Type} (a b : list A) (x : A) :
  sublist a b -> In x a -> In x b.
Proof.
  induction 1 as [|y l l' H IH|y l l' H IH]; cbn [In]; intuition.
Qed.

Lemma sublist_length {A : Type} (a b : list A) :
  sublist a b -> List.length a <= List.length b.
Proof.
  induction 1 as [|y l l' H IH|y l l' H IH]; cbn [List.length]; lia.
Qed.

Lemma sublist_map {A B : Type} (f : A -> B) (a b : list A) :
  sublist a b -> sublist (map f a) (map f b).
Proof.
  induction 1 as [|y l l' H IH|y l l' H IH]; cbn [map].
  - apply sublist_nil.
  - now apply sublist_skip.
  - now apply sublist_take.
Qed.

Lemma sublist_sorted {A : Type} (R : A -> A -> Prop) (a b : list A) :
  sublist a b -> StronglySorted R b -> StronglySorted R a.
Proof.
  induction 1 as [|y l l' H IH|y l l' H IH]; intros SS.
  - constructor.
  - inversion SS; subst. auto.
  - inversion SS as [|? ? SS' FA]; subst. constructor; [auto|].
    rewrite Forall_forall in *. intros z Hz.
    apply FA. eapply sublist_In; eauto.
Qed.

Lemma sorted_fixed {A : Type} (leb : A -> A -> bool) (l : list A) :
  StronglySorted (fun a b => leb a b = true) l -> sorted leb l = l.
Proof.
  induction 1 as [|x l SS IH FA]; [reflexivity|].
  cbn [sorted]. rewrite IH. destruct l as [|y t]; [reflexivity|].
  cbn [insert_sorted]. inversion FA as [|? ? L _]; subst. now rewrite L.
Qed.

Lemma with_predictions_ok (rows : list Line) (predictions : list Q)
  (rows' : list Line) :
  with_predictions rows predictions = Ok rows' ->
  List.length predictions = List.length rows /\
  rows' = map (fun rp => set_prediction
                           (if Qlt_bool (1 # 2) (snd rp) then 1 else 0)%Z
                           (fst rp))
              (combine rows predictions).
Proof.
  revert predictions rows'.
  induction rows as [|r rows IH]; intros [|p ps] rows' H;
    cbn [with_predictions] in H; try discriminate.
  - injection H as <-. auto.
  - destruct (with_predictions rows ps) as [rest|e] eqn:E; cbn [bind] in H;
      [|discriminate].
    injection H as <-. destruct (IH _ _ E) as [L ->].
    split; [cbn [List.length]; now rewrite L | reflexivity].
Qed.


Lemma mapM_map_ok {A B C : Type} (f : B -> result C) (g : A -> B)
  (k : A -> C) (l : list A) :
  (forall x, f (g x) = Ok (k x)) -> mapM f (map g l) = Ok (map k l).
Proof.
  intros H. induction l as [|x l IH]; [reflexivity|].
  cbn [map mapM]. rewrite H, IH. reflexivity.
Qed.

(** Lines 185-197 never fail: every heading that reaches the loop has its
    [level] key, written by line 148. *)
Lemma final_output_closed (pages' : Pages) (rows : list Line) :
  let stitched :=
    stitch_multiline_headings
      (filter (fun r => match is_heading_prediction r with
                        | Some v => (v =? 1)%Z
                        | None => false
                        end) rows)
      (lines_map_of pages') in
  final_output_of pages' rows =
  Ok (map (fun h =>
             Out.mk (level_tag
                       (Nat.min (size_rank (heading_sizes stitched) h) 2 + 1))
                    (text h) (Z.of_nat (page_num h)))
          (filter (fun h => sane (text h)) stitched)).
Proof.
  intros stitched. unfold final_output_of. cbv zeta. fold stitched.
  rewrite nlp_sanity_check_filter, assign_levels_map, filter_map_swap.
  apply mapM_map_ok. intros h. reflexivity.
Qed.

Lemma text_extended_fields (h h' : Line) :
  text_extended h h' -> page_num h' = page_num h /\ size h' = size h.
Proof. intros [s ->]. split; reflexivity. Qed.

Lemma Forall2_map_eq {A B C : Type} (f : A -> C) (g : B -> C)
  (l : list A) (l' : list B) :
  Forall2 (fun x y => g y = f x) l l' -> map g l' = map f l.
Proof.
  induction 1 as [|x y l l' H F IH]; [reflexivity|].
  cbn [map]. now rewrite H, IH.
Qed.

Lemma final_output_pages (pages' : Pages) (rows : list Line)
  (final_output : list Out.entry) :
  final_output_of pages' rows = Ok final_output ->
  exists ks, sublist ks (map page_num rows) /\
             map Out.page final_output = map Z.of_nat ks.
Proof.
  rewrite final_output_closed. cbv zeta. intros H. injection H as <-.
  unfold stitch_multiline_headings.
  destruct (stitch_loop_from (lines_map_of pages')
              (filter (fun r => match is_heading_prediction r with
                                | Some v => (v =? 1)%Z
                                | None => false
                                end) rows) [] [])
    as (kept & out & new & -> & Hs & F & _).
  cbn [app fst].
  exists (map page_num (filter (fun h => sane (text h)) out)). split.
  - apply sublist_trans with (map page_num out);
      [apply sublist_map, filter_sublist|].
    replace (map page_num out) with (map page_num kept).
    + apply sublist_map.
      eapply sublist_trans; [exact Hs | apply filter_sublist].
    + symmetry. apply Forall2_map_eq.
      eapply Forall2_impl; [|exact F].
      intros a b T. now apply text_extended_fields in T.
  - rewrite !map_map. reflexivity.
Qed.

Lemma final_output_length (pages' : Pages) (rows : list Line)
  (final_output : list Out.entry) :
  final_output_of pages' rows = Ok final_output ->
  List.length final_output <=
  List.length (filter (fun r => match is_heading_prediction r with
                                | Some v => (v =? 1)%Z
                                | None => false
                                end) rows).
Proof.
  rewrite final_output_closed. cbv zeta. intros H. injection H as <-.
  unfold stitch_multiline_headings.
  destruct (stitch_loop_from (lines_map_of pages')
              (filter (fun r => match is_heading_prediction r with
                                | Some v => (v =? 1)%Z
                                | None => false
                                end) rows) [] [])
    as (kept & out & new & -> & Hs & F & _).
  cbn [app fst]. rewrite length_map.
  apply Nat.le_trans with (List.length out).
  - apply sublist_length, filter_sublist.
  - rewrite <- (Forall2_length F). now apply sublist_length.
Qed.

Lemma final_output_entries (pages' : Pages) (rows : list Line)
  (final_output : list Out.entry) (e : Out.entry) :
  final_output_of pages' rows = Ok final_output -> In e final_output ->
  In (Out.level e) ["H1"; "H2"; "H3"] /\ sane (Out.text e) = true.
Proof.
  rewrite final_output_closed. cbv zeta. intros H. injection H as <-.
  intros He. apply in_map_iff in He as (h & <- & Hh).
  apply filter_In in Hh as [_ Hh]. cbn [Out.level Out.text]. split; [|exact Hh].
  destruct (size_rank _ h) as [|[|[|r]]]; cbn; auto.
Qed.

Lemma predicted_rows (lines : list Line) (predictions : list Q) :
  List.length predictions = List.length lines ->
  List.length
    (filter (fun r => match is_heading_prediction r with
                      | Some v => (v =? 1)%Z
                      | None => false
                      end)
            (map (fun rp => set_prediction
                              (if Qlt_bool (1 # 2) (snd rp) then 1 else 0)%Z
                              (fst rp))
                 (combine lines predictions))) =
  List.length (filter (Qlt_bool (1 # 2)) predictions).
Proof.
  revert predictions.
  induction lines as [|l lines IH]; intros [|p ps] L; try discriminate;
    [reflexivity|].
  cbn [combine map filter set_prediction is_heading_prediction fst snd].
  injection L as L.
  destruct (Qlt_bool (1 # 2) p); cbn [Z.eqb Pos.eqb List.length];
    now rewrite IH.
Qed.

Lemma rows_page_nums (lines : list Line) (predictions : list Q) :
  List.length predictions = List.length lines ->
  map page_num
      (map (fun rp => set_prediction
                        (if Qlt_bool (1 # 2) (snd rp) then 1 else 0)%Z
                        (fst rp))
           (combine lines predictions)) =
  map page_num lines.
Proof.
  revert predictions.
  induction lines as [|l lines IH]; intros [|p ps] L; try discriminate;
    [reflexivity|].
  injection L as L. cbn [combine map fst snd]. now rewrite IH.
Qed.

Lemma engineer_page_nums (pages pages' : Pages) (lines' : list Line) :
  engineer_features_layout pages = Ok (pages', lines') ->
  map page_num lines' = map page_num (List.concat pages).
Proof.
  intros E. apply engineer_features_layout_lines in E as [_ F].
  apply Forall2_map_eq. eapply Forall2_impl; [|exact F].
  intros a b H. now apply annotate_fields in H.
Qed.

Lemma process_ml_path (pages : Pages) (model : option Classifier)
  (r : result Out.payload) :
  process_document_definitive pages model = ([INFO_ML], r) ->
  r = ml_inference pages model.
Proof.
  destruct (process_toc_cases pages model) as [(es & _ & _ & R)|[_ R]];
    rewrite R; intros H.
  - unfold INFO_TOC, INFO_ML in H. discriminate H.
  - now injection H as <-.
Qed.

Lemma ml_inference_ok (pages : Pages) (predict : Classifier)
  (payload : Out.payload) :
  ml_inference pages (Some predict) = Ok payload ->
  exists pages' lines,
    engineer_features_layout pages = Ok (pages', lines) /\
    ((lines = [] /\ Out.outline payload = []) \/
     exists rows final_output,
       with_predictions lines (predict (map row_of lines)) = Ok rows /\
       final_output_of pages' rows = Ok final_output /\
       Out.outline payload = sorted by_page final_output).
Proof.
  unfold ml_inference. intros H.
  destruct (engineer_features_layout pages) as [[pages' lines]|e];
    cbn [bind] in H; [|discriminate].
  exists pages', lines. split; [reflexivity|].
  destruct lines as [|l0 lines].
  - injection H as <-. left. auto.
  - destruct (with_predictions _ _) as [rows|e] eqn:W; cbn [bind] in H;
      [|discriminate].
    destruct (final_output_of pages' rows) as [fo|e] eqn:F; cbn [bind] in H;
      [|discriminate].
    injection H as <-. right. exists rows, fo.
    split; [reflexivity|]. split; [exact F | reflexivity].
Qed.




(** X21: every entry of an outline made on the classifier path has level
    H1, H2 or H3, a text that passes the sanity filter, and the number of a
    page of the document, counted from 0. *)
Theorem classifier_outline_entries (pages : Pages) (predict : Classifier)
  (payload : Out.payload) :
  process_document_definitive pages (Some predict) = ([INFO_ML], Ok payload) ->
  Forall (fun e =>
            In (Out.level e) ["H1"; "H2"; "H3"] /\
            sane (Out.text e) = true /\
            (0 <= Out.page e < Z.of_nat (List.length pages))%Z)
         (Out.outline payload).
Proof.
  intros H. apply process_ml_path in H. symmetry in H.
  apply ml_inference_ok in H
    as (pages' & lines & E & [[_ ->]|(rows & fo & W & F & ->)]);
    [constructor|].
  apply Forall_forall. intros e He.
  apply (Permutation_in _ (Permutation_sym (sorted_total_perm by_page fo))) in He.
  destruct (final_output_entries _ _ _ _ F He) as [Lv Sa].
  split; [exact Lv|]. split; [exact Sa|].
  destruct (final_output_pages _ _ _ F) as (ks & Hs & M).
  assert (Hp : In (Out.page e) (map Out.page fo)) by now apply in_map.
  rewrite M in Hp. apply in_map_iff in Hp as (k & <- & Hk).
  apply (sublist_In _ _ _ Hs) in Hk.
  apply with_predictions_ok in W as [L ->].
  rewrite (rows_page_nums _ _ L), (engineer_page_nums _ _ _ E) in Hk.
  apply in_map_iff in Hk as (line & <- & Hl).
  pose proof (engineer_result_cases pages) as C. rewrite E in C.
  destruct (C line Hl) as (page & N & _).
  assert (page_num line < List.length pages)
    by (apply nth_error_Some; congruence).
  lia.
Qed.

Lemma classifier_outline_entries_witness :
  exists payload,
    process_document_definitive Samples.plain
      (Some (ConstantModel.always (9 # 10))) = ([INFO_ML], Ok payload) /\
    Out.outline payload <> [] /\
    Forall (fun e =>
              In (Out.level e) ["H1"; "H2"; "H3"] /\
              sane (Out.text e) = true /\
              (0 <= Out.page e < Z.of_nat (List.length Samples.plain))%Z)
           (Out.outline payload).
Proof.
  eexists. split; [vm_compute; reflexivity|].
  split; [discriminate|].
  eapply (classifier_outline_entries Samples.plain
            (ConstantModel.always (9 # 10))).
  vm_compute. reflexivity.
Defined.

(** X22: the outline has at most as many entries as there are lines whose
    probability is above 0.5; a line at exactly 0.5 is not counted.  In
    particular a model that never exceeds 0.5 gives an empty outline. *)
Theorem outline_bounded_by_predictions (pages : Pages) (predict : Classifier)
  (payload : Out.payload) :
  process_document_definitive pages (Some predict) = ([INFO_ML], Ok payload) ->
  exists pages' lines,
    engineer_features_layout pages = Ok (pages', lines) /\
    List.length (Out.outline payload) <=
    List.length (filter (Qlt_bool (1 # 2)) (predict (map row_of lines))).
Proof.
  intros H. apply process_ml_path in H. symmetry in H.
  apply ml_inference_ok in H
    as (pages' & lines & E & [[_ ->]|(rows & fo & W & F & ->)]);
    exists pages', lines; (split; [exact E|]); [cbn [List.length]; lia|].
  rewrite <- (Permutation_length (sorted_total_perm by_page fo)).
  apply final_output_length in F.
  apply with_predictions_ok in W as [L ->].
  now rewrite (predicted_rows _ _ L) in F.
Qed.

Lemma outline_bounded_by_predictions_witness :
  exists payload,
    process_document_definitive Samples.plain
      (Some (ConstantModel.always (1 # 2))) = ([INFO_ML], Ok payload) /\
    Out.outline payload = [] /\
    exists pages' lines,
      engineer_features_layout Samples.plain = Ok (pages', lines) /\
      List.length (Out.outline payload) <=
      List.length (filter (Qlt_bool (1 # 2))
                          (ConstantModel.always (1 # 2) (map row_of lines))).
Proof.
  eexists. split; [vm_compute; reflexivity|].
  split; [reflexivity|].
  eapply (outline_bounded_by_predictions Samples.plain
            (ConstantModel.always (1 # 2))).
  vm_compute. reflexivity.
Defined.

Lemma block_line_page (p : nat) (blocks : list Raw.block) (line : Line) :
  In line (sorted by_top (block_lines p blocks)) -> page_num line = p.
Proof.
  intros H. apply sorted_In, block_lines_In in H
    as (block & rl & _ & _ & _ & N).
  unfold normalize_line in N.
  destruct (Raw.spans rl) as [|sp sps]; [discriminate|].
  destruct (String.eqb _ "") eqn:T; [discriminate|].
  now injection N as <-.
Qed.

Lemma sorted_app {A : Type} (R : A -> A -> Prop) (a b : list A) :
  StronglySorted R a -> StronglySorted R b ->
  (forall x y, In x a -> In y b -> R x y) ->
  StronglySorted R (a ++ b).
Proof.
  induction 1 as [|x a SS IH FA]; intros SB H; [exact SB|].
  cbn [app]. constructor.
  - apply IH; [exact SB|]. intros; apply H; cbn [In]; auto.
  - apply Forall_app. split; [exact FA|].
    apply Forall_forall. intros y Hy. apply H; cbn [In]; auto.
Qed.

Lemma constant_sorted (i : nat) (l : list nat) :
  (forall x, In x l -> x = i) -> StronglySorted le l.
Proof.
  induction l as [|x l IH]; intros H; constructor.
  - apply IH. intros; apply H; cbn [In]; auto.
  - apply Forall_forall. intros y Hy.
    rewrite (H x), (H y); cbn [In]; auto.
Qed.

(** The lines of a parsed document, page after page, carry page numbers
    that never decrease. *)
Lemma parsed_page_nums_from (i : nat) (doc : list (list Raw.block)) :
  let nums :=
    map page_num
        (List.concat
           (map (fun p => sorted by_top (block_lines (fst p) (snd p)))
                (enumerate_from i doc))) in
  StronglySorted le nums /\ Forall (le i) nums.
Proof.
  revert i. induction doc as [|blocks doc IH]; intros i; cbv zeta.
  - cbn. split; constructor.
  - cbn [enumerate_from map List.concat fst snd]. rewrite map_app.
    destruct (IH (S i)) as [SS FA]. cbv zeta in SS, FA.
    assert (P : forall x,
               In x (map page_num (sorted by_top (block_lines i blocks))) ->
               x = i).
    { intros x Hx. apply in_map_iff in Hx as (line & <- & Hl).
      now apply block_line_page in Hl. }
    rewrite Forall_forall in FA. split.
    + apply sorted_app; [now apply constant_sorted with i | exact SS |].
      intros x y Hx Hy. rewrite (P x Hx). apply FA in Hy. lia.
    + apply Forall_app. split; apply Forall_forall; intros x Hx.
      * now rewrite (P x Hx).
      * apply FA in Hx. lia.
Qed.

Lemma entries_sorted_by_page (final_output : list Out.entry)
  (ks : list nat) :
  map Out.page final_output = map Z.of_nat ks -> StronglySorted le ks ->
  StronglySorted (fun a b => by_page a b = true) final_output.
Proof.
  revert ks. induction final_output as [|e fo IH]; intros [|k ks] M SS;
    try discriminate; constructor.
  - injection M as _ M. inversion SS; subst. eauto.
  - injection M as M0 M. inversion SS as [|? ? _ FA]; subst.
    rewrite Forall_forall in *. intros e' He'.
    assert (Hp : In (Out.page e') (map Out.page fo)) by now apply in_map.
    rewrite M in Hp. apply in_map_iff in Hp as (k' & Hk' & Hin).
    apply FA in Hin. unfold by_page. apply Z.leb_le. lia.
Qed.

(** X23: on a parsed document the final sort changes nothing.  The lines
    come page after page, the frame, the selection of the predicted rows,
    the stitcher, the levels and the filter keep that order, so the list of
    lines 185-197 is the outline as returned. *)
Theorem parsed_outline_in_document_order (doc : list (list Raw.block))
  (predict : Classifier) (payload : Out.payload) :
  process_decoded doc (Some predict) = ([INFO_ML], Ok payload) ->
  exists pages' lines,
    engineer_features_layout (parse_pdf_enhanced doc) = Ok (pages', lines) /\
    ((lines = [] /\ Out.outline payload = []) \/
     exists rows,
       with_predictions lines (predict (map row_of lines)) = Ok rows /\
       final_output_of pages' rows = Ok (Out.outline payload)).
Proof.
  unfold process_decoded. intros H. apply process_ml_path in H.
  symmetry in H.
  apply ml_inference_ok in H
    as (pages' & lines & E & [[Ln ->]|(rows & fo & W & F & ->)]);
    exists pages', lines; (split; [exact E|]); [left; auto|].
  right. exists rows. split; [exact W|].
  rewrite sorted_fixed; [exact F|].
  destruct (final_output_pages _ _ _ F) as (ks & Hs & M).
  apply (entries_sorted_by_page _ ks M).
  apply (sublist_sorted _ _ _ Hs).
  apply with_predictions_ok in W as [L ->].
  rewrite (rows_page_nums _ _ L), (engineer_page_nums _ _ _ E).
  apply (parsed_page_nums_from 0 doc).
Qed.

Lemma parsed_outline_in_document_order_witness :
  exists payload,
    process_decoded DecodedSample.doc
      (Some (ConstantModel.always (9 # 10))) = ([INFO_ML], Ok payload) /\
    Out.outline payload <> [] /\
    exists pages' lines,
      engineer_features_layout (parse_pdf_enhanced DecodedSample.doc) =
        Ok (pages', lines) /\
      ((lines = [] /\ Out.outline payload = []) \/
       exists rows,
         with_predictions lines
           (ConstantModel.always (9 # 10) (map row_of lines)) = Ok rows /\
         final_output_of pages' rows = Ok (Out.outline payload)).
Proof.
  eexists. split; [vm_compute; reflexivity|].
  split; [discriminate|].
  eapply (parsed_outline_in_document_order DecodedSample.doc
            (ConstantModel.always (9 # 10))).
  vm_compute. reflexivity.
Defined.
